(** * cursorAIOddsjam: the odds-comparison frontend and its data contract

    The repository's source is the React frontend [frontend/src/App.tsx].
    It consumes the snapshot served at [/props], filters and sorts the
    comparison records and renders them as table rows.  The odds pipeline
    of the backend (odds conversion, matching) is described by the design
    document only; its operations are modelled here from that document
    and are marked as such.

    Layout: definitions first (the JavaScript runtime pieces the frontend
    relies on, the frontend itself, then the backend operations), the
    lemmas and theorems afterwards. *)

From Stdlib Require Import ZArith QArith Qround Qabs Qpower Bool List Ascii String Lia Lqa Permutation Sorted.
From Stdlib Require PrimFloat Uint63 FloatOps SpecFloat.
Import ListNotations.

Local Open Scope Z_scope.

(* ================================================================== *)
(** * Binary64 rounding on exact values *)
(* ================================================================== *)

(** The numbers of the frontend and the floats of the design document are
    IEEE 754 binary64 values.  A finite binary64 is modelled by its exact
    rational value, and an operation by the exact operation followed by
    rounding to the nearest binary64, ties to even, with gradual underflow.
    Overflow to infinity is not modelled: [rnd] is the binary64 result
    wherever that result is finite. *)
Module IEEE754.
Local Open Scope Q_scope.

Definition pow2 (k : Z) : Q := 2 ^ k.

(** The floor of the binary logarithm of a positive rational. *)
Definition flog2 (x : Q) : Z :=
  let e := (Z.log2 (Qnum x) - Z.log2 (Zpos (Qden x)))%Z in
  if Qle_bool (pow2 e) x then e else (e - 1)%Z.

(** Rounding to the nearest integer, ties to even. *)
Definition rne (z : Q) : Z :=
  let f := Qfloor z in
  match Qcompare (z - inject_Z f) (1 # 2) with
  | Lt => f
  | Gt => (f + 1)%Z
  | Eq => if Z.even f then f else (f + 1)%Z
  end.

(** The exponent of the last place of the binary64 values around a
    positive [x]: 53 significant bits, and [2^-1074] for the subnormal
    values. *)
Definition sexp (x : Q) : Z := Z.max (flog2 x - 52) (-1074).

Definition rnd_pos (x : Q) : Q := inject_Z (rne (x / pow2 (sexp x))) * pow2 (sexp x).

(** Rounding of an exact value to binary64. *)
Definition rnd (x : Q) : Q :=
  match Qcompare x 0 with
  | Eq => 0
  | Gt => rnd_pos x
  | Lt => - rnd_pos (- x)
  end.

(** The value is a finite binary64. *)
Definition is_binary64 (x : Q) : bool :=
  Qeq_bool (rnd x) x && negb (Qle_bool (pow2 1024) (Qabs x)).

(** Half the relative spacing of the normal values, and half the spacing
    of the subnormal ones. *)
Definition eps64 : Q := pow2 (-53).
Definition eta64 : Q := pow2 (-1075).

(** The exact value of a primitive float; [None] for an infinity or a NaN. *)
Definition float_value (f : PrimFloat.float) : option Q :=
  match FloatOps.Prim2SF f with
  | SpecFloat.S754_zero _ => Some 0
  | SpecFloat.S754_finite s m e =>
      Some ((if s then -1 else 1) * inject_Z (Zpos m) * pow2 e)
  | _ => None
  end.

End IEEE754.

(* ================================================================== *)
(** * The JavaScript runtime pieces used by the frontend *)
(* ================================================================== *)

Module JS.

(** A JavaScript number is modelled by the exact rational value of a finite
    binary64; [NaN] is [None] where an operation can produce it.  Strings
    are sequences of code units below 256 (one [ascii] each). *)
Definition number := Q.

(** Builtins whose result depends on the engine, the locale or the binary64
    format are provided by the host. *)
Record Host := {
  (** [Number::toString]: shortest digits that round-trip *)
  Number_toString : number -> string;
  (** [StringToNumber], [None] for [NaN] *)
  StringToNumber : string -> option number;
  (** [Date.prototype.toLocaleTimeString] of a time value ([None]: invalid date) *)
  toLocaleTimeString : option Z -> string;
  (** rounding of an exact result to binary64 *)
  round64 : Q -> Q
}.

(** An evaluation either completes or throws. *)
Inductive Exception := TypeError.

Inductive Outcome (A : Type) :=
| Ok (a : A)
| Throw (e : Exception).
Arguments Ok {A} a.
Arguments Throw {A} e.

Definition bind {A B} (m : Outcome A) (k : A -> Outcome B) : Outcome B :=
  match m with
  | Ok a => k a
  | Throw e => Throw e
  end.

Notation "x <- m ;; k" := (bind m (fun x => k))
  (at level 61, m at next level, right associativity).

Fixpoint mapM {A B} (f : A -> Outcome B) (l : list A) : Outcome (list B) :=
  match l with
  | [] => Ok []
  | x :: l' => y <- f x ;; ys <- mapM f l' ;; Ok (y :: ys)
  end.

(** [Array.prototype.filter] with a predicate that may throw. *)
Fixpoint filterM {A} (f : A -> Outcome bool) (l : list A) : Outcome (list A) :=
  match l with
  | [] => Ok []
  | x :: l' =>
      keep <- f x ;; rest <- filterM f l' ;;
      Ok (if keep then x :: rest else rest)
  end.

(** ** Strings *)

Definition lower_unit (c : ascii) : ascii :=
  let n := nat_of_ascii c in
  if ((65 <=? n) && (n <=? 90))%nat then ascii_of_nat (n + 32)
  else if ((192 <=? n) && (n <=? 222) && negb (n =? 215))%nat then ascii_of_nat (n + 32)
  else c.

(** [String.prototype.toLowerCase] on code units below 256. *)
Fixpoint toLowerCase (s : string) : string :=
  match s with
  | EmptyString => EmptyString
  | String c s' => String (lower_unit c) (toLowerCase s')
  end.

(** [String.prototype.includes]: [sub] occurs somewhere in [s]. *)
Fixpoint includes (s sub : string) : bool :=
  String.prefix sub s ||
  match s with
  | EmptyString => false
  | String _ s' => includes s' sub
  end.

(** ** Numbers *)

(** [x < y] on numbers. *)
Definition Qltb (x y : Q) : bool := negb (Qle_bool y x).

(** [x - y] and [x * y], rounded as the host rounds. *)
Definition fsub (h : Host) (x y : number) : number := round64 h (x - y).
Definition fmul (h : Host) (x y : number) : number := round64 h (x * y).

Definition digit_char (d : Z) : ascii := ascii_of_nat (48 + Z.to_nat d).

Fixpoint digits_fuel (fuel : nat) (n : Z) : string :=
  match fuel with
  | O => EmptyString
  | S fuel' =>
      if n <=? 0 then EmptyString
      else (digits_fuel fuel' (n / 10) ++ String (digit_char (n mod 10)) EmptyString)%string
  end.

(** The digits of the decimal representation of [n >= 0], without leading
    zeroes; ["0"] for zero. *)
Definition decimal_digits (n : Z) : string :=
  if n <=? 0 then "0"%string
  else digits_fuel (S (Z.to_nat (Z.log2 n))) n.

Fixpoint zeros (k : nat) : string :=
  match k with
  | O => EmptyString
  | S k' => String "0"%char (zeros k')
  end.

(** The integer [n] for which [n / 10^f - x] is as close to zero as possible,
    the larger one if there are two (for [x >= 0]). *)
Definition nearest_scaled (f : nat) (x : Q) : Z :=
  Qfloor (x * inject_Z (10 ^ Z.of_nat f) + (1 # 2)).

(** [Number.prototype.toFixed(f)], following the steps of ECMA-262 for a
    finite number. *)
Definition toFixed (h : Host) (f : nat) (x : number) : string :=
  let s := if Qltb x 0 then "-"%string else EmptyString in
  let x := if Qltb x 0 then Qopp x else x in
  let m :=
    if Qle_bool (inject_Z (10 ^ 21)) x then Number_toString h x
    else
      let n := nearest_scaled f x in
      let m := decimal_digits n in
      match f with
      | O => m
      | _ =>
          let k := String.length m in
          let m := if (k <=? f)%nat then (zeros (f + 1 - k) ++ m)%string else m in
          let k := if (k <=? f)%nat then (f + 1)%nat else k in
          let a := String.substring 0 (k - f) m in
          let b := String.substring (k - f) f m in
          (a ++ "." ++ b)%string
      end in
  (s ++ m)%string.

(** [Math.abs]. *)
Definition Math_abs (x : number) : number := Qabs x.

(** *** Reading a displayed number back *)

Definition is_digit (c : ascii) : bool :=
  ((48 <=? nat_of_ascii c) && (nat_of_ascii c <=? 57))%nat.

Fixpoint all_digits (s : string) : bool :=
  match s with
  | EmptyString => true
  | String c s' => is_digit c && all_digits s'
  end.

Fixpoint digits_value_from (acc : Z) (s : string) : Z :=
  match s with
  | EmptyString => acc
  | String c s' => digits_value_from (10 * acc + (Z.of_nat (nat_of_ascii c) - 48)) s'
  end.

(** The natural number a string of decimal digits denotes. *)
Definition digits_value (s : string) : Z := digits_value_from 0 s.

(** [s] shows [x] rounded to two decimal places: a minus sign if [x] is
    negative, then digits, a point and exactly two digits, which read as
    the hundredths [n] nearest to the magnitude of [x] (the larger [n] on
    a tie). *)
Definition two_decimals (x : number) (s : string) : Prop :=
  exists a b : string,
    s = ((if Qltb x 0 then "-" else "") ++ a ++ "." ++ b)%string
    /\ a <> EmptyString
    /\ all_digits a = true /\ all_digits b = true
    /\ String.length b = 2%nat
    /\ (inject_Z (digits_value (a ++ b)) <= Qabs x * 100 + (1 # 2))%Q
    /\ (Qabs x * 100 + (1 # 2) < inject_Z (digits_value (a ++ b)) + 1)%Q.

(** ** [Array.prototype.sort]

    The engine's sort is a stable comparison sort driven by the sign of the
    comparator.  It is modelled as insertion sort over the array from left
    to right: each element moves left past the elements it compares
    strictly below ([cmp x y < 0]).

    For a consistent comparator every conforming engine returns this
    list.  For a comparator that is not consistent ECMA-262 leaves the
    order to the engine; the list below is then the order of this
    insertion sort, and only what every comparison sort shares (the
    elements, and what a single comparison forces) carries over to other
    engines. *)
Section Sort.
Context {A : Type} (cmp : A -> A -> Z).

(** [sorted_rev] is the sorted prefix, last element first. *)
Fixpoint insert_rev (x : A) (sorted_rev : list A) : list A :=
  match sorted_rev with
  | [] => [x]
  | y :: r => if cmp x y <? 0 then y :: insert_rev x r else x :: y :: r
  end.

Definition Array_sort (l : list A) : list A :=
  rev (fold_left (fun acc x => insert_rev x acc) l []).

End Sort.

(** A host to run examples on: integers print in decimal, no string parses
    as a number, a time prints as its count of milliseconds, and every
    exact result is taken to be representable. *)
Definition example_host : Host :=
  {| Number_toString := fun x => decimal_digits (Qfloor x);
     StringToNumber := fun _ => None;
     toLocaleTimeString :=
       fun t => match t with
                | Some ms => decimal_digits ms
                | None => "Invalid Date"%string
                end;
     round64 := fun x => x |}.

(** The same host with the rounding of binary64. *)
Definition binary64_host : Host :=
  {| Number_toString := Number_toString example_host;
     StringToNumber := StringToNumber example_host;
     toLocaleTimeString := toLocaleTimeString example_host;
     round64 := IEEE754.rnd |}.

Fixpoint strip_zeros (fuel : nat) (n : Z) : Z :=
  match fuel with
  | O => n
  | S fuel' => if (0 <? n) && (n mod 10 =? 0) then strip_zeros fuel' (n / 10) else n
  end.

(** Exponent notation of a whole number [n >= 1]: its first digit, a point
    and the other digits up to the last one that is not zero (no point if
    there is none), then [e+] and the exponent. *)
Definition exponent_notation (n : Z) : string :=
  let all := decimal_digits n in
  let digits := decimal_digits (strip_zeros (String.length all) n) in
  let e := decimal_digits (Z.of_nat (String.length all - 1)) in
  match digits with
  | EmptyString => EmptyString
  | String c EmptyString => (String c "e+" ++ e)%string
  | String c rest => (String c "." ++ rest ++ "e+" ++ e)%string
  end.

(** A host that prints a whole number from [10^21] on in exponent
    notation, as [Number::toString] does.  The digits printed are those of
    the exact value, which are the digits [Number::toString] prints when
    no shorter digit string reads back as the same binary64 (so for
    [10^21], which prints as [1e+21]). *)
Definition exponent_host : Host :=
  {| Number_toString :=
       fun x => if Qle_bool (inject_Z (10 ^ 21)) x
                then exponent_notation (Qfloor x)
                else decimal_digits (Qfloor x);
     StringToNumber := StringToNumber example_host;
     toLocaleTimeString := toLocaleTimeString example_host;
     round64 := IEEE754.rnd |}.

(** ** Parsed JSON

    What [response.json()] yields. *)
#[local] Unset Elimination Schemes.
Inductive Json :=
| JsonNull
| JsonNumber (x : number)
| JsonString (s : string)
| JsonArray (elements : list Json)
| JsonObject (members : list (string * Json)).
#[local] Set Elimination Schemes.

(** The member of an object under a name; of two members of the same name
    the later one counts.  [None] is [undefined]. *)
Fixpoint member (name : string) (members : list (string * Json)) : option Json :=
  match members with
  | [] => None
  | (k, v) :: rest =>
      match member name rest with
      | Some later => Some later
      | None => if String.eqb k name then Some v else None
      end
  end.

(** [o[name]] on a parsed value. *)
Definition Json_get (o : Json) (name : string) : option Json :=
  match o with
  | JsonObject members => member name members
  | _ => None
  end.

End JS.

(* ================================================================== *)
(** * The frontend: [frontend/src/App.tsx] *)
(* ================================================================== *)

Module App.
Import JS.

(** ** Declared types *)

(** The member types that occur in the two interfaces. *)
Inductive TsType :=
| TString
| TNumber
| TArrayOfProp.   (* [Prop[]] *)

Record Member := {
  m_name : string;
  m_type : TsType;
  m_optional : bool
}.

(** [interface Prop]. *)
Definition Prop_interface : list Member :=
  [ {| m_name := "player_name";     m_type := TString; m_optional := false |};
    {| m_name := "prop_type";       m_type := TString; m_optional := false |};
    {| m_name := "line";            m_type := TNumber; m_optional := false |};
    {| m_name := "prizepicks_odds"; m_type := TNumber; m_optional := false |};
    {| m_name := "pinnacle_over";   m_type := TNumber; m_optional := false |};
    {| m_name := "pinnacle_under";  m_type := TNumber; m_optional := false |};
    {| m_name := "no_vig_over";     m_type := TNumber; m_optional := false |};
    {| m_name := "no_vig_under";    m_type := TNumber; m_optional := false |} ].

(** [interface PropsData]. *)
Definition PropsData_interface : list Member :=
  [ {| m_name := "props";        m_type := TArrayOfProp; m_optional := false |};
    {| m_name := "disclaimer";   m_type := TString;      m_optional := true |};
    {| m_name := "last_updated"; m_type := TString;      m_optional := false |};
    {| m_name := "status";       m_type := TString;      m_optional := true |} ].

(** [type SortField], which is also [keyof Prop]. *)
Inductive SortField :=
| player_name_f
| prop_type_f
| line_f
| prizepicks_odds_f
| pinnacle_over_f
| pinnacle_under_f
| no_vig_over_f
| no_vig_under_f.

Definition SortField_all : list SortField :=
  [ player_name_f; prop_type_f; line_f; prizepicks_odds_f;
    pinnacle_over_f; pinnacle_under_f; no_vig_over_f; no_vig_under_f ].

(** The string literal of each member of the union. *)
Definition SortField_literal (f : SortField) : string :=
  match f with
  | player_name_f => "player_name"
  | prop_type_f => "prop_type"
  | line_f => "line"
  | prizepicks_odds_f => "prizepicks_odds"
  | pinnacle_over_f => "pinnacle_over"
  | pinnacle_under_f => "pinnacle_under"
  | no_vig_over_f => "no_vig_over"
  | no_vig_under_f => "no_vig_under"
  end.

Definition SortField_eqb (f g : SortField) : bool :=
  String.eqb (SortField_literal f) (SortField_literal g).

(** [type SortDirection]. *)
Inductive SortDirection := asc | desc.

(** ** Values at run time

    A comparison record as the frontend holds it after [response.json()].
    The comparator tests field values against [null], so each field is
    either [null] ([None]) or a value of its declared type. *)
Record Prop_ := {
  player_name : option string;
  prop_type : option string;
  line : option number;
  prizepicks_odds : option number;
  pinnacle_over : option number;
  pinnacle_under : option number;
  no_vig_over : option number;
  no_vig_under : option number
}.

(** The primitive values a field or [last_updated] can hold. *)
Inductive JsValue :=
| JUndefined
| JNull
| JNum (x : number)
| JStr (s : string).

Definition of_string (v : option string) : JsValue :=
  match v with None => JNull | Some s => JStr s end.

Definition of_number (v : option number) : JsValue :=
  match v with None => JNull | Some x => JNum x end.

(** [a[sortField]]. *)
Definition Prop_get (a : Prop_) (f : SortField) : JsValue :=
  match f with
  | player_name_f => of_string (player_name a)
  | prop_type_f => of_string (prop_type a)
  | line_f => of_number (line a)
  | prizepicks_odds_f => of_number (prizepicks_odds a)
  | pinnacle_over_f => of_number (pinnacle_over a)
  | pinnacle_under_f => of_number (pinnacle_under a)
  | no_vig_over_f => of_number (no_vig_over a)
  | no_vig_under_f => of_number (no_vig_under a)
  end.

Definition is_null (v : JsValue) : bool :=
  match v with JNull => true | _ => false end.

(** [typeof] restricted to the declared member types. *)
Definition has_type (t : TsType) (v : JsValue) : bool :=
  match t, v with
  | TString, JStr _ => true
  | TNumber, JNum _ => true
  | _, _ => false
  end.

(** The response body.  [props] is reached through [?.], so it may be
    missing; [last_updated] is declared [string] and multiplied as a
    number, so it is kept as the primitive value received. *)
Record PropsData := {
  props : option (list Prop_);
  disclaimer : option string;
  last_updated : JsValue;
  status : option string
}.

(** ** Component state of [PropsTable] *)
Record State := {
  searchTerm : string;
  selectedPropType : string;
  sortField : SortField;
  sortDirection : SortDirection;
  lastUpdated : string
}.

(** The [useState] initial values. *)
Definition initial_state : State :=
  {| searchTerm := "";
     selectedPropType := "all";
     sortField := no_vig_over_f;
     sortDirection := desc;
     lastUpdated := "" |}.

(** ** [handleSort]

    One call followed by the re-render that commits the state setters. *)
Definition handleSort (field : SortField) (st : State) : State :=
  if SortField_eqb field (sortField st) then
    {| searchTerm := searchTerm st;
       selectedPropType := selectedPropType st;
       sortField := sortField st;
       sortDirection := match sortDirection st with asc => desc | desc => asc end;
       lastUpdated := lastUpdated st |}
  else
    {| searchTerm := searchTerm st;
       selectedPropType := selectedPropType st;
       sortField := field;
       sortDirection := asc;
       lastUpdated := lastUpdated st |}.

(** ** The query function *)

(** [ToBoolean]. *)
Definition ToBoolean (v : JsValue) : bool :=
  match v with
  | JUndefined | JNull => false
  | JNum x => negb (Qeq_bool x 0)
  | JStr s => negb (String.eqb s "")
  end.

(** [ToNumber]; [None] is [NaN]. *)
Definition ToNumber (h : Host) (v : JsValue) : option number :=
  match v with
  | JUndefined => None
  | JNull => Some 0%Q
  | JNum x => Some x
  | JStr s => StringToNumber h s
  end.

(** [TimeClip]: the time value of [new Date(t)], in milliseconds since the
    epoch; [None] for an invalid date. *)
Definition TimeClip (t : option number) : option Z :=
  match t with
  | None => None
  | Some x =>
      if Qle_bool (Qabs x) (inject_Z 8640000000000000)
      then Some (Qfloor (Qabs x) * Z.sgn (Qnum x))
      else None
  end.

(** [new Date(data.last_updated * 1000)]. *)
Definition Date_of_last_updated (h : Host) (v : JsValue) : option Z :=
  TimeClip (option_map (fun x => fmul h x (inject_Z 1000)) (ToNumber h v)).

(** The argument [queryFn] passes to [setLastUpdated], if it calls it. *)
Definition queryFn_setLastUpdated (h : Host) (data : PropsData) : option string :=
  if ToBoolean (last_updated data)
  then Some (toLocaleTimeString h (Date_of_last_updated h (last_updated data)))
  else None.

(** The state after a successful fetch of [data]. *)
Definition queryFn (h : Host) (data : PropsData) (st : State) : State :=
  match queryFn_setLastUpdated h data with
  | Some s =>
      {| searchTerm := searchTerm st;
         selectedPropType := selectedPropType st;
         sortField := sortField st;
         sortDirection := sortDirection st;
         lastUpdated := s |}
  | None => st
  end.


(** ** Filtering and sorting: [filteredAndSortedData] *)

(** The [filter] callback.  Calling [toLowerCase] on a [null] name throws. *)
Definition filter_callback (st : State) (prop : Prop_) : Outcome bool :=
  match player_name prop with
  | None => Throw TypeError
  | Some name =>
      Ok (includes (toLowerCase name) (toLowerCase (searchTerm st)) &&
          (String.eqb (selectedPropType st) "all" ||
           match prop_type prop with
           | Some t => String.eqb t (selectedPropType st)
           | None => false
           end))
  end.

(** [x < y] on primitive values: code-unit order on two strings, numeric
    order after [ToNumber] otherwise, [false] when a side is [NaN]. *)
Definition IsLessThan (h : Host) (x y : JsValue) : bool :=
  match x, y with
  | JStr s, JStr t => String.ltb s t
  | _, _ =>
      match ToNumber h x, ToNumber h y with
      | Some a, Some b => Qltb a b
      | _, _ => false
      end
  end.

(** The [sort] callback. *)
Definition comparator (h : Host) (st : State) (a b : Prop_) : Z :=
  let aValue := Prop_get a (sortField st) in
  let bValue := Prop_get b (sortField st) in
  if is_null aValue then 1
  else if is_null bValue then -1
  else
    let comparison :=
      if IsLessThan h aValue bValue then -1
      else if IsLessThan h bValue aValue then 1
      else 0 in
    match sortDirection st with
    | asc => comparison
    | desc => - comparison
    end.

(** [data?.props?.filter(...).sort(...)]; [None] is [undefined]. *)
Definition filteredAndSortedData (h : Host) (data : option PropsData) (st : State)
  : Outcome (option (list Prop_)) :=
  match data with
  | None => Ok None
  | Some d =>
      match props d with
      | None => Ok None
      | Some ps =>
          kept <- filterM (filter_callback st) ps ;;
          Ok (Some (Array_sort (comparator h st) kept))
      end
  end.

(** ** Rendering *)

Inductive Icon := TrendingUpIcon | TrendingDownIcon.
Inductive ChipColor := success | error.

(** One [Tooltip] with its [Chip]. *)
Record Chip := {
  tooltip_title : string;
  chip_icon : Icon;
  chip_label : string;
  chip_color : ChipColor
}.

Definition make_chip (h : Host) (side letter : string) (diff : number) : Chip :=
  let isBetter := Qltb 0 diff in
  {| tooltip_title :=
       (side ++ ": " ++ (if isBetter then "Better" else "Worse") ++ " by "
        ++ toFixed h 2 (Math_abs diff))%string;
     chip_icon := if isBetter then TrendingUpIcon else TrendingDownIcon;
     chip_label :=
       (letter ++ " " ++ (if isBetter then "+" else "") ++ toFixed h 2 diff)%string;
     chip_color := if isBetter then success else error |}.

(** A [null] operand of [-] counts as zero. *)
Definition operand (v : option number) : number :=
  match v with Some x => x | None => 0%Q end.

(** [OddsComparison]: the over chip and the under chip. *)
Definition OddsComparison (h : Host) (prizepicks pinnacleOver pinnacleUnder : option number)
  : Chip * Chip :=
  let overDiff := fsub h (operand prizepicks) (operand pinnacleOver) in
  let underDiff := fsub h (operand prizepicks) (operand pinnacleUnder) in
  (make_chip h "Over" "O" overDiff, make_chip h "Under" "U" underDiff).

(** [v.toFixed(2)]; a [null] receiver throws. *)
Definition call_toFixed2 (h : Host) (v : option number) : Outcome string :=
  match v with
  | Some x => Ok (toFixed h 2 x)
  | None => Throw TypeError
  end.

(** One [TableRow]: its key and the children of its nine cells. *)
Record Row := {
  key : nat;
  cell_player_name : JsValue;
  cell_prop_type : JsValue;
  cell_line : JsValue;
  cell_prizepicks_odds : JsValue;
  cell_pinnacle_over : string;
  cell_pinnacle_under : string;
  cell_no_vig_over : string;
  cell_no_vig_under : string;
  cell_comparison : Chip * Chip
}.

Definition render_row (h : Host) (index : nat) (prop : Prop_) : Outcome Row :=
  po <- call_toFixed2 h (pinnacle_over prop) ;;
  pu <- call_toFixed2 h (pinnacle_under prop) ;;
  no <- call_toFixed2 h (no_vig_over prop) ;;
  nu <- call_toFixed2 h (no_vig_under prop) ;;
  Ok {| key := index;
        cell_player_name := of_string (player_name prop);
        cell_prop_type := of_string (prop_type prop);
        cell_line := of_number (line prop);
        cell_prizepicks_odds := of_number (prizepicks_odds prop);
        cell_pinnacle_over := po;
        cell_pinnacle_under := pu;
        cell_no_vig_over := no;
        cell_no_vig_under := nu;
        cell_comparison :=
          OddsComparison h (prizepicks_odds prop) (pinnacle_over prop) (pinnacle_under prop) |}.

(** [l.map((prop, index) => ...)], the index starting at [index]. *)
Fixpoint render_rows (h : Host) (index : nat) (l : list Prop_) : Outcome (list Row) :=
  match l with
  | [] => Ok []
  | prop :: l' =>
      r <- render_row h index prop ;;
      rs <- render_rows h (S index) l' ;;
      Ok (r :: rs)
  end.

(** The children of [TableBody] for the fetched [data] and the state. *)
Definition TableBody_rows (h : Host) (data : option PropsData) (st : State)
  : Outcome (list Row) :=
  fs <- filteredAndSortedData h data st ;;
  match fs with
  | None => Ok []
  | Some l => render_rows h 0 l
  end.

(** The cell [cell] shows the field value [v] through [toFixed(2)], which in
    the range of fixed notation (magnitude below 10^21) is the value
    rounded to two decimal places. *)
Definition shows_fixed2 (h : Host) (v : option number) (cell : string) : Prop :=
  exists x, v = Some x
            /\ cell = toFixed h 2 x
            /\ ((Qabs x < inject_Z (10 ^ 21))%Q -> two_decimals x cell).

(** The [MenuItem]s of the prop-type [Select]: value and label. *)
Definition propType_MenuItems : list (string * string) :=
  [ ("all", "All Props");
    ("Strikeouts", "Strikeouts");
    ("Hits", "Hits");
    ("Total Bases", "Total Bases");
    ("RBI", "RBI");
    ("Home Runs", "Home Runs");
    ("Walks", "Walks");
    ("Stolen Bases", "Stolen Bases");
    ("Pitching Strikeouts", "Pitching Strikeouts");
    ("Earned Runs", "Earned Runs");
    ("Innings Pitched", "Innings Pitched") ]%string.

(** ** The other state setters *)

(** [setSearchTerm(e.target.value)], the [onChange] of the search field. *)
Definition setSearchTerm (value : string) (st : State) : State :=
  {| searchTerm := value;
     selectedPropType := selectedPropType st;
     sortField := sortField st;
     sortDirection := sortDirection st;
     lastUpdated := lastUpdated st |}.

(** [setSelectedPropType(e.target.value)], the [onChange] of the [Select]. *)
Definition setSelectedPropType (value : string) (st : State) : State :=
  {| searchTerm := searchTerm st;
     selectedPropType := value;
     sortField := sortField st;
     sortDirection := sortDirection st;
     lastUpdated := lastUpdated st |}.

(** Whether the [filter] callback keeps a record (a record on which it
    throws is not kept). *)
Definition passes (st : State) (prop : Prop_) : bool :=
  match filter_callback st prop with
  | Ok keep => keep
  | Throw _ => false
  end.

(** Two values that [<] compares without converting them. *)
Definition comparable_values (x y : JsValue) : Prop :=
  match x, y with
  | JStr _, JStr _ => True
  | JNum _, JNum _ => True
  | _, _ => False
  end.

(** None of the four fields that are formatted by [toFixed] is [null]. *)
Definition odds_present (prop : Prop_) : bool :=
  match pinnacle_over prop, pinnacle_under prop, no_vig_over prop, no_vig_under prop with
  | Some _, Some _, Some _, Some _ => true
  | _, _, _, _ => false
  end.

(** A value that is a string or [null], as a prop type is. *)
Definition string_or_null (v : JsValue) : Prop := exists a, v = of_string a.

(** What a comparison chip reads for the difference [diff]: green, rising
    and [+m] with the tooltip [Better by m] when the difference is
    positive; red, falling and [-m] (or [m] at zero) with the tooltip
    [Worse by m] otherwise, [m] being the magnitude in two decimals. *)
Definition chip_reads (h : Host) (side letter : string) (diff : number) (c : Chip) : Prop :=
  let m := toFixed h 2 (Qabs diff) in
  if Qltb 0 diff
  then chip_color c = success /\ chip_icon c = TrendingUpIcon
       /\ chip_label c = (letter ++ " +" ++ m)%string
       /\ tooltip_title c = (side ++ ": Better by " ++ m)%string
  else chip_color c = error /\ chip_icon c = TrendingDownIcon
       /\ chip_label c = (letter ++ " " ++ (if Qltb diff 0 then "-" else "") ++ m)%string
       /\ tooltip_title c = (side ++ ": Worse by " ++ m)%string.

(** [a] stands before an occurrence of [b] in the list. *)
Inductive precedes {A : Type} (a b : A) : list A -> Prop :=
| precedes_here (l : list A) : In b l -> precedes a b (a :: l)
| precedes_later (x : A) (l : list A) : precedes a b l -> precedes a b (x :: l).

(** ** [uniquePropTypes] *)

(** [SameValueZero], the equality of [Set] members. *)
Definition SameValueZero (x y : JsValue) : bool :=
  match x, y with
  | JUndefined, JUndefined => true
  | JNull, JNull => true
  | JNum a, JNum b => Qeq_bool a b
  | JStr s, JStr t => String.eqb s t
  | _, _ => false
  end.

(** [Array.from(new Set(values))]: the values in the order of their first
    occurrence, each once. *)
Definition Array_from_Set (values : list JsValue) : list JsValue :=
  fold_left
    (fun members v => if existsb (SameValueZero v) members then members else members ++ [v])
    values [].

(** [Array.from(new Set(data?.props?.map(prop => prop.prop_type) || []))]. *)
Definition uniquePropTypes (data : option PropsData) : list JsValue :=
  Array_from_Set
    match data with
    | Some d =>
        match props d with
        | Some ps => map (fun prop => of_string (prop_type prop)) ps
        | None => []
        end
    | None => []
    end.

(** ** The table head *)

Inductive ArrowIcon := ArrowUpwardIcon | ArrowDownwardIcon.
Inductive Align := align_default | align_right | align_center.

(** One [TableCell] of the head: its text, its alignment, the field its
    [onClick] passes to [handleSort] (if it has one), and the icon after
    the text (a [false] child renders nothing). *)
Record HeaderCell := {
  header_text : string;
  header_align : Align;
  header_onClick : option SortField;
  header_icon : option ArrowIcon
}.

(** A sortable head cell: [sortField === field && (sortDirection === 'asc'
    ? <ArrowUpwardIcon /> : <ArrowDownwardIcon />)]. *)
Definition sortable_header (st : State) (text : string) (al : Align) (field : SortField)
  : HeaderCell :=
  {| header_text := text;
     header_align := al;
     header_onClick := Some field;
     header_icon :=
       if SortField_eqb (sortField st) field
       then Some (match sortDirection st with
                  | asc => ArrowUpwardIcon
                  | desc => ArrowDownwardIcon
                  end)
       else None |}.

(** The cells of the [TableHead] row.  The text of a sortable cell ends in
    the space that separates it from the icon expression. *)
Definition TableHead_cells (st : State) : list HeaderCell :=
  [ sortable_header st "Player " align_default player_name_f;
    sortable_header st "Prop Type " align_default prop_type_f;
    sortable_header st "Line " align_right line_f;
    sortable_header st "PrizePicks " align_right prizepicks_odds_f;
    sortable_header st "Pinnacle Over " align_right pinnacle_over_f;
    sortable_header st "Pinnacle Under " align_right pinnacle_under_f;
    sortable_header st "No-Vig Over " align_right no_vig_over_f;
    sortable_header st "No-Vig Under " align_right no_vig_under_f;
    {| header_text := "Comparison"; header_align := align_center;
       header_onClick := None; header_icon := None |} ].

Definition has_icon (cell : HeaderCell) : bool :=
  match header_icon cell with Some _ => true | None => false end.

(** A click on a head cell. *)
Definition click_header (cell : HeaderCell) (st : State) : State :=
  match header_onClick cell with
  | Some field => handleSort field st
  | None => st
  end.

(** ** The component [PropsTable] *)

(** What [useQuery] hands to the component. *)
Record Query := {
  query_data : option PropsData;
  isLoading : bool;
  query_error : bool   (* [error], when it is set *)
}.

(** What the component returns: the skeleton, the error alert, or the
    controls and the table. *)
Inductive View :=
| LoadingSkeleton_view
| ErrorAlert_view
| Table_view (last_updated_text : option string)
             (head : list HeaderCell)
             (body : list Row).

(** [lastUpdated && (<Typography>Last updated: {lastUpdated}</Typography>)]:
    the text is there when [lastUpdated] is not the empty string. *)
Definition last_updated_text (st : State) : option string :=
  if String.eqb (lastUpdated st) "" then None
  else Some ("Last updated: " ++ lastUpdated st)%string.

(** The body of [PropsTable].  [filteredAndSortedData] is evaluated before
    the two early returns, the rows only in the last [return]. *)
Definition PropsTable (h : Host) (q : Query) (st : State) : Outcome View :=
  fs <- filteredAndSortedData h (query_data q) st ;;
  if isLoading q then Ok LoadingSkeleton_view
  else if query_error q then Ok ErrorAlert_view
  else
    rows <- match fs with
            | None => Ok []
            | Some l => render_rows h 0 l
            end ;;
    Ok (Table_view (last_updated_text st) (TableHead_cells st) rows).

(** ** Reading the parsed response

    The component reads the parsed body through property accesses only.
    The records of the model hold, for each field, [null] or a value of
    the declared type; a parsed element is such a record when each of the
    eight members is there and holds one of the two.  Members under other
    names are never read. *)

Definition string_field (o : Json) (name : string) : option (option string) :=
  match Json_get o name with
  | Some (JsonString s) => Some (Some s)
  | Some JsonNull => Some None
  | _ => None
  end.

Definition number_field (o : Json) (name : string) : option (option number) :=
  match Json_get o name with
  | Some (JsonNumber x) => Some (Some x)
  | Some JsonNull => Some None
  | _ => None
  end.

Definition Prop_of_Json (o : Json) : option Prop_ :=
  match string_field o "player_name", string_field o "prop_type",
        number_field o "line", number_field o "prizepicks_odds",
        number_field o "pinnacle_over", number_field o "pinnacle_under",
        number_field o "no_vig_over", number_field o "no_vig_under" with
  | Some n, Some t, Some l, Some pp, Some po, Some pu, Some no, Some nu =>
      Some {| player_name := n; prop_type := t; line := l; prizepicks_odds := pp;
              pinnacle_over := po; pinnacle_under := pu;
              no_vig_over := no; no_vig_under := nu |}
  | _, _, _, _, _, _, _, _ => None
  end.

Fixpoint Props_of_Json (elements : list Json) : option (list Prop_) :=
  match elements with
  | [] => Some []
  | e :: rest =>
      match Prop_of_Json e, Props_of_Json rest with
      | Some p, Some ps => Some (p :: ps)
      | _, _ => None
      end
  end.

(** An optional string member: missing, or a string. *)
Definition optional_string (o : Json) (name : string) : option (option string) :=
  match Json_get o name with
  | None => Some None
  | Some (JsonString s) => Some (Some s)
  | _ => None
  end.

(** The primitive value under a name. *)
Definition primitive (o : Json) (name : string) : option JsValue :=
  match Json_get o name with
  | None => Some JUndefined
  | Some JsonNull => Some JNull
  | Some (JsonNumber x) => Some (JNum x)
  | Some (JsonString s) => Some (JStr s)
  | Some _ => None
  end.

(** The response body of the model for a parsed body: [props] is an array
    of records or is missing, [last_updated] a primitive value, [status]
    and [disclaimer] strings or missing. *)
Definition PropsData_of_Json (o : Json) : option PropsData :=
  match match Json_get o "props" with
        | None => Some None
        | Some (JsonArray elements) => option_map Some (Props_of_Json elements)
        | Some _ => None
        end,
        optional_string o "disclaimer", primitive o "last_updated",
        optional_string o "status" with
  | Some ps, Some d, Some t, Some st =>
      Some {| props := ps; disclaimer := d; last_updated := t; status := st |}
  | _, _, _, _ => None
  end.

(** A parsed value is of a declared member type. *)
Definition primitive_of_type (t : TsType) (v : Json) : bool :=
  match t, v with
  | TString, JsonString _ => true
  | TNumber, JsonNumber _ => true
  | _, _ => false
  end.

(** A parsed object has exactly the members of [interface Prop], in any
    order, each once and of its declared type. *)
Definition is_Prop (o : Json) : bool :=
  match o with
  | JsonObject members =>
      (List.length members =? List.length Prop_interface)%nat
      && forallb (fun m => match member (m_name m) members with
                           | Some v => primitive_of_type (m_type m) v
                           | None => false
                           end) Prop_interface
  | _ => false
  end.

(** ** Example data *)

Definition example_prop (name : string) (l : option number) (over_odds under_odds : number)
  : Prop_ :=
  {| player_name := Some name;
     prop_type := Some "Hits"%string;
     line := l;
     prizepicks_odds := Some (inject_Z (-119));
     pinnacle_over := Some over_odds;
     pinnacle_under := Some under_odds;
     no_vig_over := Some (/ over_odds / (/ over_odds + / under_odds))%Q;
     no_vig_under := Some (/ under_odds / (/ over_odds + / under_odds))%Q |}.

Definition example_props : list Prop_ :=
  [ example_prop "Alice" None (18 # 10) (21 # 10);
    example_prop "Bob" (Some (15 # 10)) (19 # 10) (19 # 10);
    example_prop "Carol" (Some (5 # 10)) (25 # 10) (15 # 10) ].

Definition example_data : PropsData :=
  {| props := Some example_props;
     disclaimer := Some "For information only"%string;
     last_updated := JNum (inject_Z 1700000000);
     status := Some "ok"%string |}.

Definition example_state : State :=
  {| searchTerm := "";
     selectedPropType := "all";
     sortField := line_f;
     sortDirection := desc;
     lastUpdated := "" |}.

(** The row expected for Bob, who sorts first. *)
Definition example_row : Row :=
  {| key := 0;
     cell_player_name := JStr "Bob";
     cell_prop_type := JStr "Hits";
     cell_line := JNum (15 # 10);
     cell_prizepicks_odds := JNum (inject_Z (-119));
     cell_pinnacle_over := "1.90";
     cell_pinnacle_under := "1.90";
     cell_no_vig_over := "0.50";
     cell_no_vig_under := "0.50";
     cell_comparison :=
       ({| tooltip_title := "Over: Worse by 120.90";
           chip_icon := TrendingDownIcon;
           chip_label := "O -120.90";
           chip_color := error |},
        {| tooltip_title := "Under: Worse by 120.90";
           chip_icon := TrendingDownIcon;
           chip_label := "U -120.90";
           chip_color := error |}) |}.

(** The example list in descending order of the line, [null] last. *)
Definition example_list : list Prop_ :=
  [ example_prop "Bob" (Some (15 # 10)) (19 # 10) (19 # 10);
    example_prop "Carol" (Some (5 # 10)) (25 # 10) (15 # 10);
    example_prop "Alice" None (18 # 10) (21 # 10) ].

(** The example response once fetched, neither loading nor in error. *)
Definition example_query : Query :=
  {| query_data := Some example_data; isLoading := false; query_error := false |}.

Definition example_rows : list Row :=
  Eval vm_compute in
    match TableBody_rows example_host (Some example_data) example_state with
    | Ok rows => rows
    | Throw _ => []
    end.

(** A response in which the record of Bob has [null] Pinnacle over odds. *)
Definition example_data_null_odds : PropsData :=
  {| props :=
       Some [ example_prop "Alice" None (18 # 10) (21 # 10);
              {| player_name := Some "Bob"%string;
                 prop_type := Some "Hits"%string;
                 line := Some (15 # 10)%Q;
                 prizepicks_odds := Some (inject_Z (-119));
                 pinnacle_over := None;
                 pinnacle_under := Some (19 # 10)%Q;
                 no_vig_over := Some (1 # 2)%Q;
                 no_vig_under := Some (1 # 2)%Q |} ];
     disclaimer := None;
     last_updated := JNum (inject_Z 1700000000);
     status := Some "ok"%string |}.

(** A record whose Pinnacle over odds are [10^21]. *)
Definition example_prop_big : Prop_ :=
  example_prop "Dave" (Some (15 # 10)%Q) (inject_Z (10 ^ 21)) (2 # 1)%Q.

Definition example_data_big : PropsData :=
  {| props := Some [ example_prop_big ];
     disclaimer := None;
     last_updated := JNum (inject_Z 1700000000);
     status := Some "ok"%string |}.

End App.

(* ================================================================== *)
(** * The backend operations described by the design document *)
(* ================================================================== *)

Module OddsConverter.

(** Modelled from the spec: the two errors of the converter (sections 4.1
    and 7), whose code is not in the repository. *)
Inductive Error := InvalidOddsError | InvalidMarketError.

(** The arithmetic the converter is run on.  The design gives its results
    the type [float]; the same definitions are read over exact rationals
    and over binary64, so the operations are an interface. *)
Record Arith (F : Type) := {
  of_int : Z -> F;
  add : F -> F -> F;
  div : F -> F -> F;
  ltb : F -> F -> bool;
  leb : F -> F -> bool
}.
Arguments of_int {F} _ _.
Arguments add {F} _ _ _.
Arguments div {F} _ _ _.
Arguments ltb {F} _ _ _.
Arguments leb {F} _ _ _.

Section Converter.
Context {F : Type} (A : Arith F).

(** Modelled from the spec: [american_to_decimal] of section 4.1, whose
    code is not in the repository.  For odds >= 100, [1 + odds/100]; for
    odds <= -100, [1 + 100/|odds|]; [InvalidOddsError] in between. *)
Definition american_to_decimal (odds : Z) : Error + F :=
  if 100 <=? odds then
    inr (add A (of_int A 1) (div A (of_int A odds) (of_int A 100)))
  else if odds <=? -100 then
    inr (add A (of_int A 1) (div A (of_int A 100) (of_int A (Z.abs odds))))
  else inl InvalidOddsError.

(** Modelled from the spec: [decimal_to_implied_prob] of section 4.1, whose
    code is not in the repository.  [1 / decimal_odds], requiring
    [decimal_odds > 1]. *)
Definition decimal_to_implied_prob (decimal_odds : F) : Error + F :=
  if ltb A (of_int A 1) decimal_odds
  then inr (div A (of_int A 1) decimal_odds)
  else inl InvalidOddsError.

(** Modelled from the spec: [no_vig_probabilities] of section 4.1, whose
    code is not in the repository.  The raw implied probabilities
    [p_o = 1/over], [p_u = 1/under] are normalised by their sum;
    [InvalidMarketError] if either input is <= 1 or [p_o + p_u <= 0]. *)
Definition no_vig_probabilities (over_decimal under_decimal : F) : Error + (F * F) :=
  if leb A over_decimal (of_int A 1) || leb A under_decimal (of_int A 1)
  then inl InvalidMarketError
  else
    let p_o := div A (of_int A 1) over_decimal in
    let p_u := div A (of_int A 1) under_decimal in
    let total := add A p_o p_u in
    if leb A total (of_int A 0) then inl InvalidMarketError
    else inr (div A p_o total, div A p_u total).

End Converter.

(** Exact rational arithmetic. *)
Definition exact : Arith Q :=
  {| of_int := inject_Z;
     add := Qplus;
     div := Qdiv;
     ltb := JS.Qltb;
     leb := Qle_bool |}.

(** An integer as a binary64 (below [2^63] in magnitude). *)
Definition float_of_Z (z : Z) : PrimFloat.float :=
  match z with
  | Z0 => PrimFloat.of_uint63 (Uint63.of_Z 0)
  | Zpos _ => PrimFloat.of_uint63 (Uint63.of_Z z)
  | Zneg p => PrimFloat.opp (PrimFloat.of_uint63 (Uint63.of_Z (Zpos p)))
  end.

(** Binary64 arithmetic, round to nearest even. *)
Definition binary64 : Arith PrimFloat.float :=
  {| of_int := float_of_Z;
     add := PrimFloat.add;
     div := PrimFloat.div;
     ltb := PrimFloat.ltb;
     leb := PrimFloat.leb |}.

(** Binary64 arithmetic on the exact values of finite floats: each
    operation is the exact one followed by rounding.  It is the arithmetic
    of [binary64] as long as no result overflows and no divisor is zero. *)
Definition rounded : Arith Q :=
  {| of_int := fun z => IEEE754.rnd (inject_Z z);
     add := fun x y => IEEE754.rnd (x + y)%Q;
     div := fun x y => IEEE754.rnd (x / y)%Q;
     ltb := JS.Qltb;
     leb := Qle_bool |}.

(** The two arithmetics agree on a pair of odds: both fail, or both
    return floats of the same values. *)
Definition same_value (f : PrimFloat.float) (q : Q) : bool :=
  match IEEE754.float_value f with
  | Some v => Qeq_bool v q
  | None => false
  end.

Definition value_or_zero (f : PrimFloat.float) : Q :=
  match IEEE754.float_value f with
  | Some v => Qred v
  | None => 0%Q
  end.

Definition no_vig_agree (o u : PrimFloat.float) : bool :=
  match no_vig_probabilities binary64 o u,
        no_vig_probabilities rounded (value_or_zero o) (value_or_zero u) with
  | inr (p, q), inr (p', q') => same_value p p' && same_value q q'
  | inl _, inl _ => true
  | _, _ => false
  end.

End OddsConverter.

Module ComparisonService.

(** Modelled from the spec: the status of a snapshot (section 3); the
    service is not in the repository. *)
Inductive Status := status_ok | status_stale | status_error.

(** Modelled from the spec: a [ComparisonRecord] (section 3), with the
    field types of section 6: the line and the odds fields decimal
    numbers, the PrizePicks odds an American-odds integer. *)
Record ComparisonRecord := {
  player_name : string;
  prop_type : string;
  line : Q;
  prizepicks_odds : Z;
  pinnacle_over : Q;
  pinnacle_under : Q;
  no_vig_over : Q;
  no_vig_under : Q
}.

(** Modelled from the spec: a [Snapshot] (section 3), [last_updated] in
    epoch seconds. *)
Record Snapshot := {
  props : list ComparisonRecord;
  last_updated : Q;
  status : Status;
  disclaimer : option string
}.

Definition Status_string (s : Status) : string :=
  match s with
  | status_ok => "ok"
  | status_stale => "stale"
  | status_error => "error"
  end.

(** Modelled from the spec: the serialized form of one record (section 6). *)
Definition serialize_record (r : ComparisonRecord) : JS.Json :=
  JS.JsonObject
    [ ("player_name", JS.JsonString (player_name r));
      ("prop_type", JS.JsonString (prop_type r));
      ("line", JS.JsonNumber (line r));
      ("prizepicks_odds", JS.JsonNumber (inject_Z (prizepicks_odds r)));
      ("pinnacle_over", JS.JsonNumber (pinnacle_over r));
      ("pinnacle_under", JS.JsonNumber (pinnacle_under r));
      ("no_vig_over", JS.JsonNumber (no_vig_over r));
      ("no_vig_under", JS.JsonNumber (no_vig_under r)) ]%string.

(** Modelled from the spec: the serialized snapshot that [get_snapshot]
    hands to the serving shell (section 6):
    [{ props: [...], last_updated: <epoch seconds>, status: <string>,
       disclaimer: <string, optional> }]. *)
Definition serialize (s : Snapshot) : JS.Json :=
  JS.JsonObject
    ([ ("props", JS.JsonArray (map serialize_record (props s)));
       ("last_updated", JS.JsonNumber (last_updated s));
       ("status", JS.JsonString (Status_string (status s))) ]%string
     ++ match disclaimer s with
        | Some d => [ ("disclaimer", JS.JsonString d) ]%string
        | None => []
        end).


(** An example snapshot. *)
Definition example_snapshot : Snapshot :=
  {| props :=
       [ {| player_name := "Alice"; prop_type := "Hits"; line := 15 # 10;
            prizepicks_odds := -119;
            pinnacle_over := 18 # 10; pinnacle_under := 21 # 10;
            no_vig_over := 7 # 13; no_vig_under := 6 # 13 |} ];
     last_updated := inject_Z 1700000000;
     status := status_ok;
     disclaimer := Some "For information only"%string |}.

End ComparisonService.

Module PropMatcher.

(** Modelled from the spec: the side and the source of a [RawProp]
    (section 3); the matcher and its data are not in the repository. *)
Inductive Side := over | under | single.
Inductive Source := retail | reference.

(** Modelled from the spec: [RawProp] of section 3.  [odds] is kept as a
    number: an American price for a retail record, and the design's own
    examples give reference records decimal prices. *)
Record RawProp := {
  player_name : string;
  prop_type : string;
  line : Q;
  side : Side;
  odds : Q;
  source : Source
}.

(** Modelled from the spec: [MatchKey] of section 3, the normalised name,
    the normalised prop type and the line. *)
Definition MatchKey : Type := string * string * Q.

Definition Side_eqb (s t : Side) : bool :=
  match s, t with
  | over, over | under, under | single, single => true
  | _, _ => false
  end.

(** Modelled from the spec: equality of keys (section 3), exact numeric
    equality on the line and string equality on the normalised name and
    prop type. *)
Definition key_eqb (k1 k2 : MatchKey) : bool :=
  let '(n1, t1, l1) := k1 in
  let '(n2, t2, l2) := k2 in
  String.eqb n1 n2 && String.eqb t1 t2 && Qeq_bool l1 l2.

Section Matcher.
(** Modelled from the spec: the normal form of names and prop types (case
    folded, insensitive to white space, section 3); the design does not
    fix it further, so it is a parameter. *)
Variable normalize : string -> string.

(** Modelled from the spec: the key of a record (section 3). *)
Definition key_of (r : RawProp) : MatchKey :=
  (normalize (player_name r), normalize (prop_type r), line r).

(** Modelled from the spec: the grouping of section 4.4, the reference
    records of one key in input order. *)
Definition reference_group (reference_props : list RawProp) (k : MatchKey) : list RawProp :=
  filter (fun r => key_eqb (key_of r) k) reference_props.

(** Modelled from the spec: the group test of section 4.4.  A group is kept
    when it is exactly one over and one under entry; a missing side, a
    duplicate side or more than two entries drop it. *)
Definition complete_group (g : list RawProp) : option (RawProp * RawProp) :=
  match g with
  | [a; b] =>
      match side a, side b with
      | over, under => Some (a, b)
      | under, over => Some (b, a)
      | _, _ => None
      end
  | _ => None
  end.

(** Modelled from the spec: the retail index of section 4.4, one slot per
    key in first-seen order, the last record seen for a key wins. *)
Fixpoint index_put (k : MatchKey) (r : RawProp) (idx : list (MatchKey * RawProp))
  : list (MatchKey * RawProp) :=
  match idx with
  | [] => [(k, r)]
  | (k', r') :: idx' =>
      if key_eqb k' k then (k', r) :: idx' else (k', r') :: index_put k r idx'
  end.

(** Modelled from the spec: the index of all retail records, in input
    order (section 4.4). *)
Definition retail_index (retail_props : list RawProp) : list (MatchKey * RawProp) :=
  fold_left (fun idx r => index_put (key_of r) r idx) retail_props [].

(** Modelled from the spec: the triple of one retail key, if its reference
    group is kept (section 4.4). *)
Definition emit (reference_props : list RawProp) (entry : MatchKey * RawProp)
  : list (RawProp * RawProp * RawProp) :=
  match complete_group (reference_group reference_props (fst entry)) with
  | Some (o, u) => [(snd entry, o, u)]
  | None => []
  end.

(** Modelled from the spec: [match] of section 4.4, whose code is not in the
    repository.  Reference records are grouped by key, retail records are
    indexed by key, and one triple is emitted for every retail key that has
    a kept reference group. *)
Definition match_ (retail_props reference_props : list RawProp)
  : list (RawProp * RawProp * RawProp) :=
  flat_map (emit reference_props) (retail_index retail_props).

(** No two keys of the list are equal. *)
Fixpoint distinct_keys (ks : list MatchKey) : Prop :=
  match ks with
  | [] => True
  | k :: ks' => (forall k', In k' ks' -> key_eqb k k' = false) /\ distinct_keys ks'
  end.

(** The index holds one slot per key of the records seen so far. *)
Definition index_ok (seen : list RawProp) (idx : list (MatchKey * RawProp)) : Prop :=
  (forall e, In e idx -> In (snd e) seen /\ key_eqb (fst e) (key_of (snd e)) = true)
  /\ (forall r, In r seen -> exists k, In k (map fst idx) /\ key_eqb k (key_of r) = true)
  /\ distinct_keys (map fst idx).

(** The number of entries of a group on one side. *)
Definition count_side (s : Side) (g : list RawProp) : nat :=
  List.length (filter (fun r => Side_eqb (side r) s) g).

(** The group is exactly one over and one under entry. *)
Definition one_over_one_under (g : list RawProp) : bool :=
  ((count_side over g =? 1) && (count_side under g =? 1) && (List.length g =? 2))%nat.

(** The number of emitted triples whose retail record has key [k]. *)
Definition triples_of_key (k : MatchKey) (out : list (RawProp * RawProp * RawProp)) : nat :=
  List.length (filter (fun t => key_eqb (key_of (fst (fst t))) k) out).

End Matcher.

(** A normal form to run examples with: lower case, blanks removed. *)
Fixpoint remove_blanks (s : string) : string :=
  match s with
  | EmptyString => EmptyString
  | String c s' =>
      if Ascii.eqb c " "%char then remove_blanks s' else String c (remove_blanks s')
  end.

Definition casefold (s : string) : string := remove_blanks (JS.toLowerCase s).

(** The records of the design's own example (section 8). *)
Definition alice_retail : RawProp :=
  {| player_name := "Alice"; prop_type := "Hits"; line := 15 # 10;
     side := single; odds := inject_Z (-119); source := retail |}.

Definition alice_over : RawProp :=
  {| player_name := "Alice"; prop_type := "Hits"; line := 15 # 10;
     side := over; odds := 18 # 10; source := reference |}.

Definition alice_under : RawProp :=
  {| player_name := "Alice"; prop_type := "Hits"; line := 15 # 10;
     side := under; odds := 21 # 10; source := reference |}.

End PropMatcher.

(** Modelled from the spec: the canonical prop-type vocabulary of section
    4.2, which the two fetchers (not in the repository) normalise to. *)
Definition canonical_prop_types : list string :=
  [ "Strikeouts"; "Hits"; "Total Bases"; "RBI"; "Home Runs"; "Walks";
    "Stolen Bases"; "Pitching Strikeouts"; "Earned Runs"; "Innings Pitched" ]%string.

(* ================================================================== *)
(** * Properties of binary64 rounding *)
(* ================================================================== *)

Module Rounding.
Import IEEE754.
Local Open Scope Q_scope.

Lemma Qle_bool_false (x y : Q) : y < x -> Qle_bool x y = false.
Proof.
  intros H. destruct (Qle_bool x y) eqn:E; [|reflexivity].
  apply Qle_bool_iff in E. exfalso. apply (Qlt_not_le _ _ H E).
Qed.

Lemma pow2_pos (k : Z) : 0 < pow2 k.
Proof. apply Qpower_0_lt. reflexivity. Qed.

Lemma pow2_add (a b : Z) : pow2 (a + b) == pow2 a * pow2 b.
Proof. apply Qpower_plus. discriminate. Qed.

Lemma pow2_le (a b : Z) : (a <= b)%Z -> pow2 a <= pow2 b.
Proof. intros H. apply Qpower_le_compat_l; [exact H|discriminate]. Qed.

Lemma pow2_lt (a b : Z) : (a < b)%Z -> pow2 a < pow2 b.
Proof. intros H. apply Qpower_lt_compat_l; [exact H|reflexivity]. Qed.

Lemma pow2_lt_inv (a b : Z) : pow2 a < pow2 b -> (a < b)%Z.
Proof. intros H. apply (Qpower_lt_compat_l_inv 2); [exact H|reflexivity]. Qed.

Lemma pow2_Z (k : Z) : (0 <= k)%Z -> pow2 k == inject_Z (2 ^ k).
Proof. intros H. symmetry. apply (Zpower_Qpower 2 k H). Qed.

Lemma pow2_sub (a b : Z) : pow2 (a - b) == pow2 a / pow2 b.
Proof.
  unfold Z.sub. rewrite pow2_add. unfold pow2 at 2. rewrite Qpower_opp. reflexivity.
Qed.

Lemma flog2_spec (x : Q) : 0 < x -> pow2 (flog2 x) <= x /\ x < pow2 (flog2 x + 1).
Proof.
  intros Hx. destruct x as [n d].
  assert (Hn : (0 < n)%Z).
  { unfold Qlt in Hx. cbn in Hx. lia. }
  pose proof (Z.log2_spec n Hn) as [Hn1 Hn2].
  pose proof (Z.log2_spec (Zpos d) (Pos2Z.is_pos d)) as [Hd1 Hd2].
  pose proof (Z.log2_nonneg n) as Hln. pose proof (Z.log2_nonneg (Zpos d)) as Hld.
  set (ln := Z.log2 n) in *. set (ld := Z.log2 (Zpos d)) in *.
  assert (Hxd : n # d == inject_Z n / inject_Z (Zpos d)) by apply Qmake_Qdiv.
  assert (Hdpos : 0 < inject_Z (Zpos d)) by (unfold Qlt; cbn; lia).
  assert (Hup : n # d < pow2 (ln - ld + 1)).
  { rewrite Hxd. apply Qlt_shift_div_r; [exact Hdpos|].
    apply Qlt_le_trans with (pow2 (ln - ld + 1) * pow2 ld).
    - rewrite <- pow2_add. replace (ln - ld + 1 + ld)%Z with (ln + 1)%Z by lia.
      rewrite pow2_Z by lia. rewrite <- Zlt_Qlt. replace (ln + 1)%Z with (Z.succ ln) by lia.
      exact Hn2.
    - apply Qmult_le_l; [apply pow2_pos|]. rewrite pow2_Z by lia. rewrite <- Zle_Qle. exact Hd1. }
  assert (Hlow : pow2 (ln - ld - 1) <= n # d).
  { rewrite Hxd. apply Qle_shift_div_l; [exact Hdpos|].
    apply Qle_trans with (pow2 (ln - ld - 1) * pow2 (ld + 1)).
    - apply Qmult_le_l; [apply pow2_pos|]. rewrite pow2_Z by lia. rewrite <- Zle_Qle.
      replace (ld + 1)%Z with (Z.succ ld) by lia. lia.
    - rewrite <- pow2_add. replace (ln - ld - 1 + (ld + 1))%Z with ln by lia.
      rewrite pow2_Z by lia. rewrite <- Zle_Qle. exact Hn1. }
  unfold flog2. cbn [Qnum Qden]. fold ln ld.
  destruct (Qle_bool (pow2 (ln - ld)) (n # d)) eqn:E.
  - apply Qle_bool_iff in E. split; [exact E|exact Hup].
  - split; [exact Hlow|].
    replace (ln - ld - 1 + 1)%Z with (ln - ld)%Z by lia.
    apply Qnot_le_lt. intros H. apply Qle_bool_iff in H. congruence.
Qed.

Lemma flog2_unique (x : Q) (e : Z) : pow2 e <= x -> x < pow2 (e + 1) -> flog2 x = e.
Proof.
  intros H1 H2.
  assert (Hx : 0 < x) by (apply Qlt_le_trans with (pow2 e); [apply pow2_pos|exact H1]).
  destruct (flog2_spec x Hx) as [F1 F2].
  assert (A : (flog2 x < e + 1)%Z).
  { apply pow2_lt_inv. apply Qle_lt_trans with x; assumption. }
  assert (B : (e < flog2 x + 1)%Z).
  { apply pow2_lt_inv. apply Qle_lt_trans with x; assumption. }
  lia.
Qed.

Lemma flog2_mono (x y : Q) : 0 < x -> x <= y -> (flog2 x <= flog2 y)%Z.
Proof.
  intros Hx Hxy.
  assert (Hy : 0 < y) by (apply Qlt_le_trans with x; assumption).
  destruct (flog2_spec x Hx) as [X1 X2]. destruct (flog2_spec y Hy) as [Y1 Y2].
  assert (A : (flog2 x < flog2 y + 1)%Z).
  { apply pow2_lt_inv. apply Qle_lt_trans with x; [exact X1|].
    apply Qle_lt_trans with y; assumption. }
  lia.
Qed.

Ltac cmp_facts :=
  repeat match goal with
  | E : Qcompare _ _ = Eq |- _ => apply Qeq_alt in E
  | E : Qcompare _ _ = Lt |- _ => apply Qlt_alt in E
  | E : Qcompare _ _ = Gt |- _ => apply Qgt_alt in E
  end.

Lemma rne_bounds (z : Q) :
  inject_Z (rne z) - (1 # 2) <= z /\ z <= inject_Z (rne z) + (1 # 2)
  /\ (Qfloor z <= rne z <= Qfloor z + 1)%Z.
Proof.
  unfold rne. pose proof (Qfloor_le z) as Hf. pose proof (Qlt_floor z) as Hc.
  rewrite inject_Z_plus in Hc. change (inject_Z 1) with 1 in Hc.
  set (f := Qfloor z) in *.
  destruct (Qcompare (z - inject_Z f) (1 # 2)) eqn:E.
  - apply Qeq_alt in E. destruct (Z.even f).
    + split; [lra|]. split; [lra|lia].
    + rewrite inject_Z_plus. change (inject_Z 1) with 1. split; [lra|]. split; [lra|lia].
  - apply Qlt_alt in E. split; [lra|]. split; [lra|lia].
  - apply Qgt_alt in E. rewrite inject_Z_plus. change (inject_Z 1) with 1.
    split; [lra|]. split; [lra|lia].
Qed.

Lemma rne_Z (k : Z) : rne (inject_Z k) = k.
Proof.
  unfold rne. rewrite Qfloor_Z.
  assert (E : Qcompare (inject_Z k - inject_Z k) (1 # 2) = Lt).
  { apply Qlt_alt. assert (H : inject_Z k - inject_Z k == 0) by ring. rewrite H. reflexivity. }
  rewrite E. reflexivity.
Qed.

Lemma rne_comp (z1 z2 : Q) : z1 == z2 -> rne z1 = rne z2.
Proof.
  intros H. unfold rne. rewrite (Qfloor_comp _ _ H).
  assert (E : Qcompare (z1 - inject_Z (Qfloor z2)) (1 # 2) = Qcompare (z2 - inject_Z (Qfloor z2)) (1 # 2)).
  { apply Qcompare_comp; [rewrite H; reflexivity|reflexivity]. }
  rewrite E. reflexivity.
Qed.

Lemma rne_mono (z1 z2 : Q) : z1 <= z2 -> (rne z1 <= rne z2)%Z.
Proof.
  intros H. pose proof (Qfloor_resp_le _ _ H) as Hf.
  destruct (Z.eq_dec (Qfloor z1) (Qfloor z2)) as [Heq|Hne].
  - unfold rne. rewrite Heq. set (f := Qfloor z2).
    destruct (Qcompare (z1 - inject_Z f) (1 # 2)) eqn:E1; destruct (Qcompare (z2 - inject_Z f) (1 # 2)) eqn:E2;
      try (destruct (Z.even f)); try lia; cmp_facts; exfalso; lra.
  - pose proof (rne_bounds z1) as (_ & _ & [_ A]).
    pose proof (rne_bounds z2) as (_ & _ & [B _]). lia.
Qed.

Lemma flog2_comp (x y : Q) : 0 < x -> x == y -> flog2 x = flog2 y.
Proof.
  intros Hx E. destruct (flog2_spec x Hx) as [A B]. symmetry.
  apply flog2_unique; rewrite <- E; assumption.
Qed.

Lemma sexp_comp (x y : Q) : 0 < x -> x == y -> sexp x = sexp y.
Proof. intros Hx E. unfold sexp. rewrite (flog2_comp x y Hx E). reflexivity. Qed.

Lemma rnd_pos_comp (x y : Q) : 0 < x -> x == y -> rnd_pos x == rnd_pos y.
Proof.
  intros Hx E. unfold rnd_pos. rewrite (sexp_comp x y Hx E).
  rewrite (rne_comp (x / pow2 (sexp y)) (y / pow2 (sexp y))); [reflexivity|].
  rewrite E. reflexivity.
Qed.

Lemma sexp_mono (x y : Q) : 0 < x -> x <= y -> (sexp x <= sexp y)%Z.
Proof. intros Hx H. unfold sexp. pose proof (flog2_mono x y Hx H). lia. Qed.

Lemma pow2_neq0 (k : Z) : ~ pow2 k == 0.
Proof. pose proof (pow2_pos k). lra. Qed.

Lemma div_pow2_le (x y : Q) (k : Z) : x <= y -> x / pow2 k <= y / pow2 k.
Proof.
  intros H. unfold Qdiv. apply Qmult_le_compat_r; [exact H|].
  apply Qlt_le_weak, Qinv_lt_0_compat, pow2_pos.
Qed.

(** a multiple of a power of two at or above the last place is not crossed *)
Lemma grid_div (m s k : Z) :
  (k <= s)%Z -> inject_Z m * pow2 s / pow2 k == inject_Z (m * 2 ^ (s - k)).
Proof.
  intros H. rewrite inject_Z_mult, <- pow2_Z by lia. rewrite pow2_sub.
  field. apply pow2_neq0.
Qed.

Lemma rnd_pos_ge_grid (x : Q) (m s : Z) :
  0 < x -> (sexp x <= s)%Z -> inject_Z m * pow2 s <= x -> inject_Z m * pow2 s <= rnd_pos x.
Proof.
  intros Hx Hs H. unfold rnd_pos.
  pose proof (div_pow2_le _ _ (sexp x) H) as D. rewrite (grid_div m s (sexp x) Hs) in D.
  apply rne_mono in D. rewrite rne_Z in D.
  apply Qle_trans with (inject_Z (m * 2 ^ (s - sexp x)) * pow2 (sexp x)).
  - rewrite <- (grid_div m s (sexp x) Hs). apply Qle_lteq. right. field. apply pow2_neq0.
  - apply Qmult_le_compat_r; [|apply Qlt_le_weak, pow2_pos]. rewrite <- Zle_Qle. exact D.
Qed.

Lemma rnd_pos_le_grid (x : Q) (m s : Z) :
  0 < x -> (sexp x <= s)%Z -> x <= inject_Z m * pow2 s -> rnd_pos x <= inject_Z m * pow2 s.
Proof.
  intros Hx Hs H. unfold rnd_pos.
  pose proof (div_pow2_le _ _ (sexp x) H) as D. rewrite (grid_div m s (sexp x) Hs) in D.
  apply rne_mono in D. rewrite rne_Z in D.
  apply Qle_trans with (inject_Z (m * 2 ^ (s - sexp x)) * pow2 (sexp x)).
  - apply Qmult_le_compat_r; [|apply Qlt_le_weak, pow2_pos]. rewrite <- Zle_Qle. exact D.
  - rewrite <- (grid_div m s (sexp x) Hs). apply Qle_lteq. right. field. apply pow2_neq0.
Qed.

Lemma rnd_pos_nonneg (x : Q) : 0 < x -> 0 <= rnd_pos x.
Proof.
  intros Hx. pose proof (rnd_pos_ge_grid x 0 (sexp x) Hx (Z.le_refl _)) as H.
  assert (E : inject_Z 0 * pow2 (sexp x) == 0) by ring.
  rewrite E in H. apply H. lra.
Qed.

Lemma rnd_pos_fix (x : Q) (m s : Z) :
  0 < x -> (sexp x <= s)%Z -> x == inject_Z m * pow2 s -> rnd_pos x == x.
Proof.
  intros Hx Hs E. apply Qle_antisym.
  - rewrite E at 2. apply rnd_pos_le_grid; [exact Hx|exact Hs|rewrite E; apply Qle_refl].
  - rewrite E at 1. apply rnd_pos_ge_grid; [exact Hx|exact Hs|rewrite E; apply Qle_refl].
Qed.

Lemma flog2_pow2 (k : Z) : flog2 (pow2 k) = k.
Proof. apply flog2_unique; [apply Qle_refl|apply pow2_lt; lia]. Qed.

Lemma rnd_pos_pow2 (k : Z) : (-1074 <= k)%Z -> rnd_pos (pow2 k) == pow2 k.
Proof.
  intros H. apply (rnd_pos_fix _ 1 k); [apply pow2_pos| |ring].
  unfold sexp. rewrite flog2_pow2. lia.
Qed.

Lemma rnd_pos_mono (x y : Q) : 0 < x -> x <= y -> rnd_pos x <= rnd_pos y.
Proof.
  intros Hx H.
  assert (Hy : 0 < y) by (apply Qlt_le_trans with x; assumption).
  pose proof (sexp_mono x y Hx H) as Hs.
  destruct (Z.eq_dec (sexp x) (sexp y)) as [E|N].
  - unfold rnd_pos. rewrite E. apply Qmult_le_compat_r; [|apply Qlt_le_weak, pow2_pos].
    rewrite <- Zle_Qle. apply rne_mono, div_pow2_le, H.
  - destruct (flog2_spec y Hy) as [Y1 _]. destruct (flog2_spec x Hx) as [_ X2].
    assert (S1 : sexp y = (flog2 y - 52)%Z) by (unfold sexp in *; lia).
    assert (F : (flog2 x + 1 <= flog2 y)%Z) by (unfold sexp in *; lia).
    assert (B : pow2 (flog2 y) == inject_Z 1 * pow2 (flog2 y)) by ring.
    apply Qle_trans with (inject_Z 1 * pow2 (flog2 y)).
    + apply rnd_pos_le_grid; [exact Hx|unfold sexp in *; lia|].
      rewrite <- B. apply Qlt_le_weak. apply Qlt_le_trans with (pow2 (flog2 x + 1)); [exact X2|].
      apply pow2_le, F.
    + apply rnd_pos_ge_grid; [exact Hy|lia|]. rewrite <- B. exact Y1.
Qed.

Lemma rnd_pos_idem (x : Q) : 0 < x -> 0 < rnd_pos x -> rnd_pos (rnd_pos x) == rnd_pos x.
Proof.
  intros Hx Hy. destruct (flog2_spec x Hx) as [X1 X2].
  set (y := rnd_pos x) in *.
  destruct (Z_le_gt_dec (sexp y) (sexp x)) as [L|G].
  - apply (rnd_pos_fix y (rne (x / pow2 (sexp x))) (sexp x) Hy L). reflexivity.
  - assert (S1 : sexp y = (flog2 y - 52)%Z) by (unfold sexp in *; lia).
    assert (F : (flog2 x + 1 <= flog2 y)%Z) by (unfold sexp in *; lia).
    assert (B : pow2 (flog2 x + 1) == inject_Z 1 * pow2 (flog2 x + 1)) by ring.
    assert (K : (sexp x <= flog2 x + 1)%Z).
    { destruct (Z_le_gt_dec (sexp x) (flog2 x + 1)) as [K|K]; [exact K|exfalso].
      assert (B' : pow2 (sexp x) == inject_Z 1 * pow2 (sexp x)) by ring.
      assert (U : y <= pow2 (sexp x)).
      { rewrite B'. apply rnd_pos_le_grid; [exact Hx|lia|]. rewrite <- B'.
        apply Qlt_le_weak, Qlt_trans with (pow2 (flog2 x + 1)); [exact X2|].
        apply pow2_lt. lia. }
      pose proof (flog2_mono _ _ Hy U) as M. rewrite flog2_pow2 in M.
      unfold sexp in *. lia. }
    assert (U : y <= pow2 (flog2 x + 1)).
    { rewrite B. apply rnd_pos_le_grid; [exact Hx|exact K|].
      rewrite <- B. apply Qlt_le_weak, X2. }
    destruct (flog2_spec y Hy) as [Y1 _].
    assert (E : y == pow2 (flog2 x + 1)).
    { apply Qle_antisym; [exact U|]. apply Qle_trans with (pow2 (flog2 y)); [|exact Y1].
      apply pow2_le, F. }
    apply (rnd_pos_fix y 1 (flog2 x + 1) Hy); [|rewrite E; ring].
    rewrite (sexp_comp _ _ Hy E). unfold sexp. rewrite flog2_pow2. unfold sexp in *. lia.
Qed.

Lemma pow2_sexp_bound (x : Q) : 0 < x -> pow2 (sexp x) <= x * pow2 (-52) + pow2 (-1074).
Proof.
  intros Hx. destruct (flog2_spec x Hx) as [X1 _].
  pose proof (pow2_pos (-52)) as P1. pose proof (pow2_pos (-1074)) as P2.
  assert (E2 : pow2 (flog2 x - 52) == pow2 (flog2 x) * pow2 (-52)).
  { rewrite <- pow2_add. reflexivity. }
  unfold sexp. destruct (Z.max_spec (flog2 x - 52) (-1074)) as [[_ E]|[_ E]]; rewrite E.
  - clear X1 E2. set (a := pow2 (-52)) in *. set (b := pow2 (-1074)) in *. clearbody a b.
    assert (0 <= x * a) by (apply Qmult_le_0_compat; lra). lra.
  - rewrite E2. set (a := pow2 (-52)) in *. set (b := pow2 (-1074)) in *.
    set (c := pow2 (flog2 x)) in *. clearbody a b c.
    assert (c * a <= x * a) by (apply Qmult_le_compat_r; lra).
    lra.
Qed.

Lemma rnd_pos_error (x : Q) :
  0 < x ->
  x - (x * eps64 + eta64) <= rnd_pos x /\ rnd_pos x <= x + (x * eps64 + eta64).
Proof.
  intros Hx. pose proof (pow2_sexp_bound x Hx) as Hb.
  assert (E1 : pow2 (-52) == 2 * eps64).
  { unfold eps64. change (-52)%Z with (1 + -53)%Z. rewrite pow2_add. reflexivity. }
  assert (E2 : pow2 (-1074) == 2 * eta64).
  { unfold eta64. change (-1074)%Z with (1 + -1075)%Z. rewrite pow2_add. reflexivity. }
  rewrite E1, E2 in Hb. clear E1 E2.
  unfold rnd_pos. pose proof (pow2_pos (sexp x)) as Pp. set (p := pow2 (sexp x)) in *.
  destruct (rne_bounds (x / p)) as (A & B & _). set (r := inject_Z (rne (x / p))) in *.
  assert (Ez : x / p * p == x) by (field; lra).
  set (e := eps64) in *. set (h := eta64) in *. clearbody p r e h.
  assert (A' : (r - (1 # 2)) * p <= x / p * p) by (apply Qmult_le_compat_r; lra).
  assert (B' : x / p * p <= (r + (1 # 2)) * p) by (apply Qmult_le_compat_r; lra).
  rewrite Ez in A', B'.
  assert (R1 : (r - (1 # 2)) * p == r * p - p * (1 # 2)) by ring.
  assert (R2 : (r + (1 # 2)) * p == r * p + p * (1 # 2)) by ring.
  rewrite R1 in A'. rewrite R2 in B'. split; lra.
Qed.

Lemma rnd_of_pos (x : Q) : 0 < x -> rnd x = rnd_pos x.
Proof. intros H. unfold rnd. apply Qgt_alt in H. rewrite H. reflexivity. Qed.

Lemma rnd_zero (x : Q) : x == 0 -> rnd x = 0.
Proof. intros H. unfold rnd. apply Qeq_alt in H. rewrite H. reflexivity. Qed.

Lemma rnd_mono_pos (x y : Q) : 0 < x -> x <= y -> rnd x <= rnd y.
Proof.
  intros Hx H. rewrite (rnd_of_pos x Hx), (rnd_of_pos y) by lra.
  apply rnd_pos_mono; assumption.
Qed.

Lemma rnd_comp_pos (x y : Q) : 0 < x -> x == y -> rnd x == rnd y.
Proof.
  intros Hx H. rewrite (rnd_of_pos x Hx), (rnd_of_pos y) by lra.
  apply rnd_pos_comp; assumption.
Qed.

Lemma rnd_pow2 (k : Z) : (-1074 <= k)%Z -> rnd (pow2 k) == pow2 k.
Proof. intros H. rewrite rnd_of_pos by apply pow2_pos. apply rnd_pos_pow2, H. Qed.

Lemma rnd_idem_pos (x : Q) : 0 < x -> 0 < rnd x -> rnd (rnd x) == rnd x.
Proof.
  intros Hx Hy. rewrite (rnd_of_pos (rnd x) Hy). rewrite (rnd_of_pos x Hx) in *.
  apply rnd_pos_idem; assumption.
Qed.

Lemma rnd_error_pos (x : Q) :
  0 < x -> x - (x * eps64 + eta64) <= rnd x /\ rnd x <= x + (x * eps64 + eta64).
Proof. intros Hx. rewrite (rnd_of_pos x Hx). apply rnd_pos_error, Hx. Qed.

Lemma rnd_1 : rnd 1 == 1.
Proof. rewrite <- (rnd_pow2 0) at 2 by lia. apply rnd_comp_pos; reflexivity. Qed.

Lemma rnd_2 : rnd 2 == 2.
Proof. rewrite <- (rnd_pow2 1) at 2 by lia. apply rnd_comp_pos; reflexivity. Qed.

(** rounding a value between two representable powers of two *)
Lemma rnd_between (x : Q) (k : Z) :
  (-1074 <= k)%Z -> pow2 k <= x -> x <= 1 -> pow2 k <= rnd x /\ rnd x <= 1.
Proof.
  intros Hk L U. pose proof (pow2_pos k) as P. split.
  - rewrite <- (rnd_pow2 k Hk). apply rnd_mono_pos; assumption.
  - rewrite <- rnd_1. apply rnd_mono_pos; lra.
Qed.

Lemma is_binary64_spec (x : Q) :
  is_binary64 x = true <-> rnd x == x /\ Qabs x < pow2 1024.
Proof.
  unfold is_binary64. rewrite andb_true_iff, Qeq_bool_iff, negb_true_iff. split.
  - intros [H1 H2]. split; [exact H1|]. apply Qnot_le_lt. intros H.
    apply Qle_bool_iff in H. congruence.
  - intros [H1 H2]. split; [exact H1|]. apply Qle_bool_false, H2.
Qed.

Lemma is_binary64_rnd (x : Q) : 0 < x -> 0 < rnd x -> rnd x <= 1 -> is_binary64 (rnd x) = true.
Proof.
  intros Hx Hy H1. apply is_binary64_spec. split; [apply rnd_idem_pos; assumption|].
  rewrite Qabs_pos by lra. apply Qle_lt_trans with 1; [exact H1|reflexivity].
Qed.

(** Every rounded value is a whole multiple of the smallest positive
    binary64. *)
Lemma rnd_pos_grid (x : Q) : exists m : Z, rnd_pos x == inject_Z m * pow2 (-1074).
Proof.
  unfold rnd_pos. set (r := rne (x / pow2 (sexp x))).
  assert (Hs : (-1074 <= sexp x)%Z) by (unfold sexp; lia).
  exists (r * 2 ^ (sexp x - -1074))%Z.
  rewrite inject_Z_mult, <- pow2_Z by lia. rewrite pow2_sub. field. apply pow2_neq0.
Qed.

Lemma rnd_grid (x : Q) : exists m : Z, rnd x == inject_Z m * pow2 (-1074).
Proof.
  unfold rnd. destruct (Qcompare x 0).
  - exists 0%Z. ring.
  - destruct (rnd_pos_grid (- x)) as [m Hm]. exists (- m)%Z.
    rewrite Hm, inject_Z_opp. ring.
  - apply rnd_pos_grid.
Qed.

Lemma rnd_of_neg (x : Q) : x < 0 -> rnd x = - rnd_pos (- x).
Proof.
  intros H. unfold rnd.
  assert (E : Qcompare x 0 = Lt) by (apply Qlt_alt; exact H).
  rewrite E. reflexivity.
Qed.

(** Gradual underflow: the difference of two binary64 values does not
    round to zero unless it is zero, and rounding keeps its sign. *)
Lemma rnd_keeps_the_sign_of_a_difference (x y : Q) :
  is_binary64 x = true -> is_binary64 y = true ->
  JS.Qltb 0 (rnd (x - y)) = JS.Qltb 0 (x - y).
Proof.
  intros Bx By. apply is_binary64_spec in Bx, By.
  destruct Bx as [Ex _], By as [Ey _].
  destruct (rnd_grid x) as [mx Hx]. destruct (rnd_grid y) as [my Hy].
  rewrite Ex in Hx. rewrite Ey in Hy.
  pose proof (pow2_pos (-1074)) as P.
  assert (D : x - y == inject_Z (mx - my) * pow2 (-1074)).
  { rewrite Hx, Hy. unfold Z.sub. rewrite inject_Z_plus, inject_Z_opp. ring. }
  unfold JS.Qltb.
  destruct (Z_lt_le_dec 0 (mx - my)) as [Pos|NonPos].
  - assert (H1 : 1 <= inject_Z (mx - my)) by (rewrite <- (Zle_Qle 1); lia).
    assert (G : pow2 (-1074) <= x - y).
    { rewrite D. setoid_replace (pow2 (-1074)) with (1 * pow2 (-1074)) at 1 by ring.
      apply Qmult_le_compat_r; lra. }
    assert (R : pow2 (-1074) <= rnd (x - y)).
    { apply Qle_trans with (rnd (pow2 (-1074))).
      - apply Qle_lteq. right. symmetry. apply rnd_pow2. lia.
      - apply rnd_mono_pos; [exact P|exact G]. }
    rewrite !Qle_bool_false by lra. reflexivity.
  - assert (H1 : inject_Z (mx - my) <= 0) by (rewrite <- (Zle_Qle _ 0); lia).
    assert (G : x - y <= 0).
    { rewrite D. setoid_replace 0 with (0 * pow2 (-1074)) by ring.
      apply Qmult_le_compat_r; lra. }
    assert (R : rnd (x - y) <= 0).
    { destruct (Qlt_le_dec (x - y) 0) as [N|Z0].
      - rewrite (rnd_of_neg _ N).
        assert (0 <= rnd_pos (- (x - y))) by (apply rnd_pos_nonneg; lra). lra.
      - rewrite (rnd_zero (x - y)) by lra. apply Qle_refl. }
    apply Qle_bool_iff in G, R. rewrite G, R. reflexivity.
Qed.

End Rounding.

(* ================================================================== *)
(** * Properties of the frontend *)
(* ================================================================== *)

Module Frontend.
Import JS App.

(** ** Declared shapes *)

Lemma SortField_eqb_eq (f g : SortField) : SortField_eqb f g = true <-> f = g.
Proof.
  split.
  - destruct f, g; intros H; try reflexivity; discriminate H.
  - intros ->. destruct g; reflexivity.
Qed.

Lemma SortField_eqb_refl (f : SortField) : SortField_eqb f f = true.
Proof. apply SortField_eqb_eq. reflexivity. Qed.

Lemma SortField_eqb_neq (f g : SortField) : f <> g -> SortField_eqb f g = false.
Proof.
  intros Hne. destruct (SortField_eqb f g) eqn:E; [|reflexivity].
  apply SortField_eqb_eq in E. contradiction.
Qed.

(** Every field of a record at run time is [null] or a value of the type
    its interface member declares. *)
Lemma Prop_get_typed (p : Prop_) (i : nat) (f : SortField) (m : Member) :
  nth_error SortField_all i = Some f ->
  nth_error Prop_interface i = Some m ->
  is_null (Prop_get p f) = true \/ has_type (m_type m) (Prop_get p f) = true.
Proof.
  intros Hf Hm.
  do 8 (destruct i as [|i];
        [ injection Hf as <-; injection Hm as <-; cbn;
          match goal with |- context [of_string ?v] => destruct v
                     | |- context [of_number ?v] => destruct v end;
          cbn; auto | ]).
  destruct i; discriminate Hf.
Qed.

(** The declared shapes: [interface Prop] has the eight members
    player_name, prop_type, line, prizepicks_odds, pinnacle_over,
    pinnacle_under, no_vig_over, no_vig_under, all required, line and the
    five odds fields declared [number] and the two others [string];
    [interface PropsData] has the props array, a required last_updated, an
    optional status and an optional disclaimer. *)
Lemma declared_shapes :
  map m_name Prop_interface =
    [ "player_name"; "prop_type"; "line"; "prizepicks_odds";
      "pinnacle_over"; "pinnacle_under"; "no_vig_over"; "no_vig_under" ]%string
  /\ map SortField_literal SortField_all = map m_name Prop_interface
  /\ (forall m, In m Prop_interface ->
        m_optional m = false
        /\ (m_type m = TNumber <->
              In (m_name m) [ "line"; "prizepicks_odds"; "pinnacle_over";
                              "pinnacle_under"; "no_vig_over"; "no_vig_under" ]%string)
        /\ (m_type m = TString <-> In (m_name m) [ "player_name"; "prop_type" ]%string))
  /\ (forall (p : Prop_) i f m,
        nth_error SortField_all i = Some f ->
        nth_error Prop_interface i = Some m ->
        is_null (Prop_get p f) = true \/ has_type (m_type m) (Prop_get p f) = true)
  /\ map (fun m => (m_name m, m_optional m)) PropsData_interface =
       [ ("props", false); ("disclaimer", true);
         ("last_updated", false); ("status", true) ]%string
  /\ (forall m, In m PropsData_interface ->
        m_name m = "props"%string <-> m_type m = TArrayOfProp).
Proof.
  split; [reflexivity|].
  split; [reflexivity|].
  split.
  { intros m Hm. cbn in Hm.
    repeat (destruct Hm as [<-|Hm]; [cbn; split; [reflexivity|]; split; split; intros H;
                                     try discriminate H; try reflexivity;
                                     cbn in *; intuition discriminate|]).
    contradiction. }
  split; [exact Prop_get_typed|].
  split; [reflexivity|].
  intros m Hm. cbn in Hm.
  repeat (destruct Hm as [<-|Hm]; [cbn; split; intros H; try reflexivity; discriminate H|]).
  contradiction.
Qed.

(** ** The served response *)





(** The example snapshot, serialized and read by the frontend. *)
Lemma served_response_example :
  PropsData_of_Json (ComparisonService.serialize ComparisonService.example_snapshot)
  = Some {| props :=
              Some [ {| player_name := Some "Alice"%string;
                        prop_type := Some "Hits"%string;
                        line := Some (15 # 10)%Q;
                        prizepicks_odds := Some (inject_Z (-119));
                        pinnacle_over := Some (18 # 10)%Q;
                        pinnacle_under := Some (21 # 10)%Q;
                        no_vig_over := Some (7 # 13)%Q;
                        no_vig_under := Some (6 # 13)%Q |} ];
            disclaimer := Some "For information only"%string;
            last_updated := JNum (inject_Z 1700000000);
            status := Some "ok"%string |}
  /\ Prop_of_Json (JsonObject [ ("player_name", JsonString "Alice") ]%string) = None
  /\ is_Prop (JsonObject [ ("player_name", JsonString "Alice") ]%string) = false.
Proof. repeat split. Qed.

(** C3. The prop-type filter of the frontend offers exactly the canonical
    vocabulary, in its order, after the pseudo-option 'all': ten distinct
    categories, none of which is 'all', each shown under its own name. *)
Theorem propType_menu_is_canonical :
  map fst propType_MenuItems = "all"%string :: canonical_prop_types
  /\ canonical_prop_types =
       [ "Strikeouts"; "Hits"; "Total Bases"; "RBI"; "Home Runs"; "Walks";
         "Stolen Bases"; "Pitching Strikeouts"; "Earned Runs"; "Innings Pitched" ]%string
  /\ List.length canonical_prop_types = 10%nat
  /\ NoDup canonical_prop_types
  /\ ~ In "all"%string canonical_prop_types
  /\ (forall v label, In (v, label) propType_MenuItems ->
        v = "all"%string \/ (In v canonical_prop_types /\ label = v)).
Proof.
  split; [reflexivity|].
  split; [reflexivity|].
  split; [reflexivity|].
  split.
  { unfold canonical_prop_types.
    repeat (constructor; [cbn; intuition discriminate|]). constructor. }
  split.
  { cbn. intuition discriminate. }
  intros v label H. cbn in H.
  destruct H as [H|H]; [injection H as <- <-; left; reflexivity|].
  right.
  repeat (destruct H as [H|H]; [injection H as <- <-; split; [cbn; tauto|reflexivity]|]).
  contradiction.
Qed.

(** ** Sorting state *)

(** C10. [handleSort field] on the active field keeps the field and flips
    the direction, so a second call restores the state; on another field
    it selects that field in ascending direction.  Nothing else of the
    state changes. *)
Theorem handleSort_toggles_or_selects (field : SortField) (st : State) :
  (field = sortField st ->
     sortField (handleSort field st) = sortField st
     /\ sortDirection (handleSort field st) =
          match sortDirection st with asc => desc | desc => asc end
     /\ handleSort field (handleSort field st) = st)
  /\ (field <> sortField st ->
     sortField (handleSort field st) = field
     /\ sortDirection (handleSort field st) = asc)
  /\ searchTerm (handleSort field st) = searchTerm st
  /\ selectedPropType (handleSort field st) = selectedPropType st
  /\ lastUpdated (handleSort field st) = lastUpdated st.
Proof.
  unfold handleSort.
  split; [|split].
  - intros ->. rewrite SortField_eqb_refl. cbn.
    rewrite SortField_eqb_refl. cbn.
    destruct st as [s p f d u]; destruct d; cbn; auto.
  - intros Hne. rewrite (SortField_eqb_neq _ _ Hne). cbn. auto.
  - destruct (SortField_eqb field (sortField st)); cbn; auto.
Qed.

(** From the initial state (no_vig_over, descending): a click on the
    active column turns it ascending, a click on another column selects
    it ascending. *)
Lemma handleSort_from_initial_state :
  sortDirection (handleSort no_vig_over_f initial_state) = asc
  /\ sortField (handleSort no_vig_over_f initial_state) = no_vig_over_f
  /\ sortField (handleSort line_f initial_state) = line_f
  /\ sortDirection (handleSort line_f (handleSort line_f initial_state)) = desc.
Proof. repeat split. Qed.

(** ** The sort *)

Section SortFacts.
Context {A : Type} (cmp : A -> A -> Z).

Lemma insert_rev_perm (x : A) (acc : list A) :
  Permutation (insert_rev cmp x acc) (x :: acc).
Proof.
  induction acc as [|y r IH]; cbn.
  - apply Permutation_refl.
  - destruct (cmp x y <? 0).
    + eapply Permutation_trans; [apply perm_skip, IH|apply perm_swap].
    + apply Permutation_refl.
Qed.

Lemma fold_insert_perm (l acc : list A) :
  Permutation (fold_left (fun acc x => insert_rev cmp x acc) l acc) (rev l ++ acc).
Proof.
  revert acc. induction l as [|x l IH]; intros acc; cbn.
  - apply Permutation_refl.
  - eapply Permutation_trans; [apply IH|].
    rewrite <- app_assoc. apply Permutation_app_head. cbn.
    apply insert_rev_perm.
Qed.

(** The sort rearranges the array and neither drops nor adds an element. *)
Lemma Array_sort_perm (l : list A) : Permutation (Array_sort cmp l) l.
Proof.
  unfold Array_sort.
  eapply Permutation_trans; [apply Permutation_sym, Permutation_rev|].
  eapply Permutation_trans; [apply fold_insert_perm|].
  rewrite app_nil_r. apply Permutation_sym, Permutation_rev.
Qed.

Section Consistent.
(** A comparator that answers consistently: [x] below [y] excludes [y]
    below [x], and not being below is transitive. *)
Hypothesis cmp_asym : forall x y, cmp x y < 0 -> 0 <= cmp y x.
Hypothesis cmp_trans : forall x y z, 0 <= cmp x y -> 0 <= cmp y z -> 0 <= cmp x z.

Lemma insert_rev_sorted (x : A) (acc : list A) :
  StronglySorted (fun later earlier => 0 <= cmp later earlier) acc ->
  StronglySorted (fun later earlier => 0 <= cmp later earlier) (insert_rev cmp x acc).
Proof.
  induction acc as [|y r IH]; intros Hs; cbn.
  - constructor; constructor.
  - apply StronglySorted_inv in Hs. destruct Hs as [Hr Hy].
    destruct (cmp x y <? 0) eqn:C.
    + apply Z.ltb_lt in C. constructor; [apply IH, Hr|].
      eapply Permutation_Forall; [apply Permutation_sym, insert_rev_perm|].
      constructor; [apply cmp_asym, C|exact Hy].
    + apply Z.ltb_ge in C. constructor; [constructor; assumption|].
      constructor; [exact C|].
      rewrite Forall_forall in Hy |- *. intros z Hz.
      apply (cmp_trans x y z C (Hy z Hz)).
Qed.

Lemma StronglySorted_snoc (R : A -> A -> Prop) (l : list A) (x : A) :
  StronglySorted R l -> Forall (fun y => R y x) l -> StronglySorted R (l ++ [x]).
Proof.
  induction l as [|y l IH]; intros Hs Hf; cbn.
  - constructor; constructor.
  - apply StronglySorted_inv in Hs. destruct Hs as [Hl Hy].
    apply Forall_cons_iff in Hf. destruct Hf as [Hyx Hf].
    constructor; [apply IH; assumption|].
    apply Forall_app. split; [exact Hy|constructor; [exact Hyx|constructor]].
Qed.

Lemma StronglySorted_rev (R : A -> A -> Prop) (l : list A) :
  StronglySorted R l -> StronglySorted (fun a b => R b a) (rev l).
Proof.
  induction l as [|y l IH]; intros Hs; cbn.
  - constructor.
  - apply StronglySorted_inv in Hs. destruct Hs as [Hl Hy].
    apply StronglySorted_snoc; [apply IH, Hl|].
    apply Forall_rev. exact Hy.
Qed.

(** With such a comparator the result is in order: no element is below an
    element that stands before it. *)
Lemma Array_sort_sorted (l : list A) :
  StronglySorted (fun earlier later => 0 <= cmp later earlier) (Array_sort cmp l).
Proof.
  unfold Array_sort. apply StronglySorted_rev.
  assert (H : forall acc,
             StronglySorted (fun later earlier => 0 <= cmp later earlier) acc ->
             StronglySorted (fun later earlier => 0 <= cmp later earlier)
               (fold_left (fun acc x => insert_rev cmp x acc) l acc)).
  { induction l as [|x l IH]; intros acc Hacc; cbn; [exact Hacc|].
    apply IH, insert_rev_sorted, Hacc. }
  apply H. constructor.
Qed.
End Consistent.

(** A class of elements ([top]) that never compare below anything, and
    that every other element compares below. *)
Variable top : A -> bool.
Hypothesis top_stays : forall x y, top x = true -> 0 <= cmp x y.
Hypothesis other_passes : forall x y, top x = false -> top y = true -> cmp x y < 0.

(** The sorted prefix, last element first: top elements, then the others. *)
Definition tops_first (acc : list A) : Prop :=
  exists t n, acc = t ++ n
              /\ Forall (fun x => top x = true) t
              /\ Forall (fun x => top x = false) n.

Lemma insert_rev_tops_first (x : A) (acc : list A) :
  tops_first acc -> tops_first (insert_rev cmp x acc).
Proof.
  intros (t & n & -> & Ht & Hn).
  destruct (top x) eqn:Hx.
  - exists (x :: t), n. split; [|split; [constructor; assumption|assumption]].
    change ((x :: t) ++ n) with (x :: (t ++ n)).
    destruct (t ++ n) as [|y r]; [reflexivity|].
    cbn. pose proof (top_stays x y Hx) as H.
    destruct (cmp x y <? 0) eqn:C; [apply Z.ltb_lt in C; lia|].
    reflexivity.
  - induction Ht as [|y t Hy Ht IH].
    + exists [], (insert_rev cmp x n). split; [reflexivity|]. split; [constructor|].
      eapply Permutation_Forall; [apply Permutation_sym, insert_rev_perm|].
      constructor; assumption.
    + destruct IH as (t' & n' & E & Ht' & Hn').
      exists (y :: t'), n'. split; [|split; [constructor; assumption|assumption]].
      cbn. pose proof (other_passes x y Hx Hy) as H.
      destruct (cmp x y <? 0) eqn:C; [|apply Z.ltb_ge in C; lia].
      rewrite E. reflexivity.
Qed.

Lemma fold_insert_tops_first (l acc : list A) :
  tops_first acc ->
  tops_first (fold_left (fun acc x => insert_rev cmp x acc) l acc).
Proof.
  revert acc. induction l as [|x l IH]; intros acc H; cbn.
  - exact H.
  - apply IH, insert_rev_tops_first, H.
Qed.

(** In the sorted array the top elements form a suffix. *)
Lemma Array_sort_tops_last (l : list A) :
  exists n t, Array_sort cmp l = n ++ t
              /\ Forall (fun x => top x = false) n
              /\ Forall (fun x => top x = true) t.
Proof.
  destruct (fold_insert_tops_first l []) as (t & n & E & Ht & Hn).
  { exists [], []. repeat split; constructor. }
  exists (rev n), (rev t). unfold Array_sort. rewrite E, rev_app_distr.
  split; [reflexivity|]. split; apply Forall_rev; assumption.
Qed.

Lemma Array_sort_top_after (l : list A) (i j : nat) (a b : A) :
  nth_error (Array_sort cmp l) i = Some a ->
  nth_error (Array_sort cmp l) j = Some b ->
  top a = true -> top b = false ->
  (j < i)%nat.
Proof.
  destruct (Array_sort_tops_last l) as (n & t & -> & Hn & Ht).
  intros Ha Hb Ta Tb.
  assert (Hi : (List.length n <= i)%nat).
  { destruct (Nat.lt_ge_cases i (List.length n)) as [Hlt|]; [|assumption].
    rewrite nth_error_app1 in Ha by assumption.
    apply nth_error_In in Ha. rewrite Forall_forall in Hn.
    rewrite (Hn a Ha) in Ta. discriminate Ta. }
  assert (Hj : (j < List.length n)%nat).
  { destruct (Nat.lt_ge_cases j (List.length n)) as [|Hge]; [assumption|].
    rewrite nth_error_app2 in Hb by assumption.
    apply nth_error_In in Hb. rewrite Forall_forall in Ht.
    rewrite (Ht b Hb) in Tb. discriminate Tb. }
  lia.
Qed.

End SortFacts.

(** ** The comparator and the order of [null] values *)

Lemma comparator_null_left (h : Host) (st : State) (a b : Prop_) :
  is_null (Prop_get a (sortField st)) = true -> comparator h st a b = 1.
Proof. unfold comparator. intros ->. reflexivity. Qed.

Lemma comparator_null_right (h : Host) (st : State) (a b : Prop_) :
  is_null (Prop_get a (sortField st)) = false ->
  is_null (Prop_get b (sortField st)) = true ->
  comparator h st a b = -1.
Proof. unfold comparator. intros -> ->. reflexivity. Qed.

Lemma is_null_iff (v : JsValue) : is_null v = true <-> v = JNull.
Proof. destruct v; cbn; split; intros H; try reflexivity; discriminate H. Qed.

Lemma is_null_false_iff (v : JsValue) : is_null v = false <-> v <> JNull.
Proof.
  destruct v; cbn; split; intros H; try reflexivity; try discriminate H;
    try (intros E; discriminate E).
  contradiction H. reflexivity.
Qed.

Lemma filteredAndSortedData_sorted (h : Host) (data : option PropsData) (st : State)
      (out : list Prop_) :
  filteredAndSortedData h data st = Ok (Some out) ->
  exists d ps kept,
    data = Some d /\ props d = Some ps
    /\ filterM (filter_callback st) ps = Ok kept
    /\ out = Array_sort (comparator h st) kept.
Proof.
  unfold filteredAndSortedData.
  destruct data as [d|]; [|discriminate].
  destruct (props d) as [ps|] eqn:P; [|discriminate].
  destruct (filterM (filter_callback st) ps) as [kept|e] eqn:E; cbn; [|discriminate].
  intros H. injection H as <-.
  exists d, ps, kept. repeat split; trivial.
Qed.

(** C8. In the sorted, filtered list an entry whose value at the active
    sort field is [null] stands after every entry whose value there is not
    [null], in ascending as in descending direction: against such an entry
    the comparator answers 1, and -1 the other way round, before the
    direction is looked at. *)
Theorem null_values_sort_last (h : Host) (data : option PropsData) (st : State)
        (out : list Prop_) (i j : nat) (a b : Prop_) :
  filteredAndSortedData h data st = Ok (Some out) ->
  nth_error out i = Some a ->
  nth_error out j = Some b ->
  Prop_get a (sortField st) = JNull ->
  Prop_get b (sortField st) <> JNull ->
  (j < i)%nat /\ comparator h st a b = 1 /\ comparator h st b a = -1.
Proof.
  intros Hout Ha Hb Na Nb.
  apply is_null_iff in Na. apply is_null_false_iff in Nb.
  split; [|split].
  - apply filteredAndSortedData_sorted in Hout.
    destruct Hout as (d & ps & kept & _ & _ & _ & ->).
    apply (Array_sort_top_after (comparator h st)
             (fun p => is_null (Prop_get p (sortField st)))) with (l := kept) (a := a) (b := b);
      try assumption.
    + intros x y Hx. rewrite (comparator_null_left h st x y Hx). lia.
    + intros x y Hx Hy. rewrite (comparator_null_right h st x y Hx Hy). lia.
  - apply comparator_null_left, Na.
  - apply comparator_null_right; assumption.
Qed.

Lemma null_values_sort_last_witness :
  filteredAndSortedData example_host (Some example_data) example_state
    = Ok (Some [ example_prop "Bob" (Some (15 # 10)) (19 # 10) (19 # 10);
                 example_prop "Carol" (Some (5 # 10)) (25 # 10) (15 # 10);
                 example_prop "Alice" None (18 # 10) (21 # 10) ])
  /\ (1 < 2)%nat
  /\ comparator example_host example_state
       (example_prop "Alice" None (18 # 10) (21 # 10))
       (example_prop "Carol" (Some (5 # 10)) (25 # 10) (15 # 10)) = 1
  /\ comparator example_host example_state
       (example_prop "Carol" (Some (5 # 10)) (25 # 10) (15 # 10))
       (example_prop "Alice" None (18 # 10) (21 # 10)) = -1.
Proof.
  split; [reflexivity|].
  apply (null_values_sort_last example_host (Some example_data) example_state
           [ example_prop "Bob" (Some (15 # 10)) (19 # 10) (19 # 10);
             example_prop "Carol" (Some (5 # 10)) (25 # 10) (15 # 10);
             example_prop "Alice" None (18 # 10) (21 # 10) ] 2 1).
  - reflexivity.
  - reflexivity.
  - reflexivity.
  - reflexivity.
  - discriminate.
Defined.

(** Whatever sort the engine runs, if it places [x] before [y] whenever the
    comparator answers below zero on [(x, y)], a [null] entry stands after
    every other entry. *)
Lemma sort_contract_nulls_last (h : Host) (st : State) (out : list Prop_)
      (i j : nat) (a b : Prop_) :
  (forall i j x y, nth_error out i = Some x -> nth_error out j = Some y ->
                   comparator h st x y < 0 -> (i < j)%nat) ->
  nth_error out i = Some a -> nth_error out j = Some b ->
  Prop_get a (sortField st) = JNull -> Prop_get b (sortField st) <> JNull ->
  (j < i)%nat.
Proof.
  intros Hcontract Ha Hb Na Nb.
  apply (Hcontract j i b a Hb Ha).
  rewrite comparator_null_right; [lia| |].
  - apply is_null_false_iff, Nb.
  - apply is_null_iff, Na.
Qed.

(** ** What the rows depend on *)

Lemma filterM_ext {A} (f g : A -> Outcome bool) (l : list A) :
  (forall x, f x = g x) -> filterM f l = filterM g l.
Proof.
  intros H. induction l as [|x l IH]; cbn.
  - reflexivity.
  - rewrite H, IH. reflexivity.
Qed.

Lemma insert_rev_ext {A} (c1 c2 : A -> A -> Z) (x : A) (acc : list A) :
  (forall a b, c1 a b = c2 a b) -> insert_rev c1 x acc = insert_rev c2 x acc.
Proof.
  intros H. induction acc as [|y r IH]; cbn.
  - reflexivity.
  - rewrite H, IH. reflexivity.
Qed.

Lemma Array_sort_ext {A} (c1 c2 : A -> A -> Z) (l : list A) :
  (forall a b, c1 a b = c2 a b) -> Array_sort c1 l = Array_sort c2 l.
Proof.
  intros H. unfold Array_sort. f_equal.
  generalize (@nil A). induction l as [|x l IH]; intros acc; cbn.
  - reflexivity.
  - rewrite (insert_rev_ext c1 c2 x acc H). apply IH.
Qed.

Lemma filter_callback_state (st1 st2 : State) (prop : Prop_) :
  searchTerm st1 = searchTerm st2 ->
  selectedPropType st1 = selectedPropType st2 ->
  filter_callback st1 prop = filter_callback st2 prop.
Proof. unfold filter_callback. intros -> ->. reflexivity. Qed.

Lemma comparator_state (h : Host) (st1 st2 : State) (a b : Prop_) :
  sortField st1 = sortField st2 ->
  sortDirection st1 = sortDirection st2 ->
  comparator h st1 a b = comparator h st2 a b.
Proof. unfold comparator. intros -> ->. reflexivity. Qed.

(** C9. The rows of the table are determined by the props array and by
    searchTerm, selectedPropType, sortField and sortDirection: two
    responses with the same props array, whatever their status,
    disclaimer (and last_updated), rendered in states that agree on these
    four components, give the same rows (or throw alike). *)
Theorem rows_depend_on_props_and_state_only (h : Host) (d1 d2 : PropsData)
        (st1 st2 : State) :
  props d1 = props d2 ->
  searchTerm st1 = searchTerm st2 ->
  selectedPropType st1 = selectedPropType st2 ->
  sortField st1 = sortField st2 ->
  sortDirection st1 = sortDirection st2 ->
  TableBody_rows h (Some d1) st1 = TableBody_rows h (Some d2) st2.
Proof.
  intros Hp Hs Ht Hf Hd.
  unfold TableBody_rows, filteredAndSortedData.
  rewrite Hp. destruct (props d2) as [ps|]; [|reflexivity].
  rewrite (filterM_ext (filter_callback st1) (filter_callback st2) ps)
    by (intros x; apply filter_callback_state; assumption).
  destruct (filterM (filter_callback st2) ps) as [kept|e]; [|reflexivity].
  cbn.
  rewrite (Array_sort_ext (comparator h st1) (comparator h st2) kept)
    by (intros a b; apply comparator_state; assumption).
  reflexivity.
Qed.

Lemma rows_depend_on_props_and_state_only_witness :
  TableBody_rows example_host (Some example_data) example_state
  = TableBody_rows example_host
      (Some {| props := props example_data;
               disclaimer := None;
               last_updated := last_updated example_data;
               status := Some "stale"%string |})
      {| searchTerm := searchTerm example_state;
         selectedPropType := selectedPropType example_state;
         sortField := sortField example_state;
         sortDirection := sortDirection example_state;
         lastUpdated := "10:15:00 AM" |}.
Proof.
  apply (rows_depend_on_props_and_state_only example_host); reflexivity.
Defined.

(** ** Decimal digits and [toFixed] *)

Lemma digits_value_from_app (acc : Z) (s t : string) :
  digits_value_from acc (s ++ t) = digits_value_from (digits_value_from acc s) t.
Proof.
  revert acc. induction s as [|c s IH]; intros acc; cbn.
  - reflexivity.
  - apply IH.
Qed.

Lemma all_digits_app (s t : string) :
  all_digits (s ++ t) = all_digits s && all_digits t.
Proof.
  induction s as [|c s IH]; cbn.
  - reflexivity.
  - rewrite IH, andb_assoc. reflexivity.
Qed.

Lemma digit_char_code (d : Z) :
  0 <= d <= 9 -> nat_of_ascii (digit_char d) = (48 + Z.to_nat d)%nat.
Proof.
  intros H. unfold digit_char. apply nat_ascii_embedding. lia.
Qed.

Lemma digit_char_is_digit (d : Z) : 0 <= d <= 9 -> is_digit (digit_char d) = true.
Proof.
  intros H. unfold is_digit. rewrite (digit_char_code d H).
  apply andb_true_intro. split; apply Nat.leb_le; lia.
Qed.

Lemma digits_fuel_spec (fuel : nat) (n : Z) :
  0 <= n < 2 ^ Z.of_nat fuel ->
  all_digits (digits_fuel fuel n) = true
  /\ digits_value_from 0 (digits_fuel fuel n) = n.
Proof.
  revert n. induction fuel as [|fuel IH]; intros n Hn.
  - cbn in *. split; [reflexivity|lia].
  - cbn [digits_fuel]. destruct (n <=? 0) eqn:E.
    + apply Z.leb_le in E. cbn. split; [reflexivity|lia].
    + apply Z.leb_gt in E.
      assert (Hq : 0 <= n / 10 < 2 ^ Z.of_nat fuel).
      { rewrite Nat2Z.inj_succ, Z.pow_succ_r in Hn by lia.
        split; [apply Z.div_pos; lia|].
        apply Z.div_lt_upper_bound; lia. }
      destruct (IH _ Hq) as [Hd Hv].
      assert (Hm : 0 <= n mod 10 <= 9) by (pose proof (Z.mod_pos_bound n 10); lia).
      split.
      * rewrite all_digits_app, Hd. cbn [all_digits andb]. rewrite (digit_char_is_digit _ Hm). reflexivity.
      * rewrite digits_value_from_app, Hv. cbn [digits_value_from].
        rewrite (digit_char_code _ Hm).
        rewrite Nat2Z.inj_add, Z2Nat.id by lia.
        pose proof (Z.div_mod n 10). lia.
Qed.

Lemma decimal_digits_spec (n : Z) :
  0 <= n ->
  all_digits (decimal_digits n) = true /\ digits_value (decimal_digits n) = n.
Proof.
  intros Hn. unfold decimal_digits, digits_value.
  destruct (n <=? 0) eqn:E.
  - apply Z.leb_le in E. cbn. split; [reflexivity|lia].
  - apply Z.leb_gt in E. apply digits_fuel_spec.
    rewrite Nat2Z.inj_succ, Z2Nat.id by apply Z.log2_nonneg.
    split; [lia|]. apply Z.log2_spec. lia.
Qed.

Lemma zeros_spec (k : nat) :
  all_digits (zeros k) = true /\ digits_value_from 0 (zeros k) = 0
  /\ String.length (zeros k) = k.
Proof.
  induction k as [|k IH]; cbn.
  - auto.
  - destruct IH as (H1 & H2 & H3). rewrite H1, H3. cbn in *. auto.
Qed.

Lemma length_append (s t : string) :
  String.length (s ++ t) = (String.length s + String.length t)%nat.
Proof. induction s as [|c s IH]; cbn; [reflexivity|rewrite IH; reflexivity]. Qed.

Lemma substring_split (s : string) (i f : nat) :
  String.length s = (i + f)%nat ->
  (substring 0 i s ++ substring i f s)%string = s
  /\ String.length (substring 0 i s) = i
  /\ String.length (substring i f s) = f.
Proof.
  revert s. induction i as [|i IH]; intros s H.
  - cbn in H. assert (Hf : substring 0 f s = s /\ String.length (substring 0 f s) = f).
    { revert f H. induction s as [|c s IHs]; intros f H.
      - cbn in H. subst f. cbn. auto.
      - destruct f as [|f]; [discriminate H|]. cbn in H. injection H as H.
        cbn. destruct (IHs f H) as [E1 E2]. rewrite E1. auto. }
    destruct Hf as [E1 E2].
    assert (E0 : substring 0 0 s = EmptyString) by (destruct s; reflexivity).
    rewrite E0. cbn. auto.
  - destruct s as [|c s]; [discriminate H|].
    cbn in H. injection H as H. cbn.
    destruct (IH s H) as (E1 & E2 & E3). rewrite E1, E2. auto.
Qed.

Lemma Qabs_branch (x : Q) : (if Qltb x 0 then Qopp x else x) = Qabs x.
Proof. destruct x as [[|p|p] d]; reflexivity. Qed.

Lemma Qltb_lt (x y : Q) : Qltb x y = true <-> (x < y)%Q.
Proof.
  unfold Qltb. rewrite negb_true_iff. split.
  - intros H. apply Qnot_le_lt. intros L. apply Qle_bool_iff in L. congruence.
  - intros H. destruct (Qle_bool y x) eqn:E; [|reflexivity].
    apply Qle_bool_iff in E. exfalso. apply (Qlt_not_le _ _ H E).
Qed.

Lemma nearest_scaled_bounds (x : Q) :
  (0 <= x)%Q ->
  0 <= nearest_scaled 2 x
  /\ (inject_Z (nearest_scaled 2 x) <= x * 100 + (1 # 2))%Q
  /\ (x * 100 + (1 # 2) < inject_Z (nearest_scaled 2 x) + 1)%Q.
Proof.
  intros Hx. unfold nearest_scaled.
  change (inject_Z (10 ^ Z.of_nat 2)) with 100%Q.
  split; [|split].
  - change 0 with (Qfloor 0). apply Qfloor_resp_le. lra.
  - apply Qfloor_le.
  - pose proof (Qlt_floor (x * 100 + (1 # 2))) as H.
    rewrite inject_Z_plus in H. exact H.
Qed.

Lemma fixed_split (m : string) (n : Z) (i : nat) :
  String.length m = (S i + 2)%nat ->
  all_digits m = true ->
  digits_value m = n ->
  exists a b, (a ++ "." ++ b)%string
              = (substring 0 (S i) m ++ "." ++ substring (S i) 2 m)%string
    /\ a <> EmptyString
    /\ all_digits a = true /\ all_digits b = true
    /\ String.length b = 2%nat
    /\ digits_value (a ++ b) = n.
Proof.
  intros Hlen Hd Hv.
  destruct (substring_split m (S i) 2 Hlen) as (E & La & Lb).
  exists (substring 0 (S i) m), (substring (S i) 2 m).
  rewrite <- E, all_digits_app in Hd. apply andb_true_iff in Hd. destruct Hd as [Ha Hb].
  repeat split; try assumption.
  - intros Z0. rewrite Z0 in La. discriminate La.
  - rewrite E. exact Hv.
Qed.

Lemma toFixed2_two_decimals (h : Host) (x : number) :
  (Qabs x < inject_Z (10 ^ 21))%Q -> two_decimals x (toFixed h 2 x).
Proof.
  intros Hx. unfold toFixed. cbv zeta. rewrite Qabs_branch.
  assert (Hbig : Qle_bool (inject_Z (10 ^ 21)) (Qabs x) = false).
  { destruct (Qle_bool (inject_Z (10 ^ 21)) (Qabs x)) eqn:E; [|reflexivity].
    apply Qle_bool_iff in E. exfalso. apply (Qlt_not_le _ _ Hx E). }
  rewrite Hbig.
  destruct (nearest_scaled_bounds (Qabs x) (Qabs_nonneg x)) as (Hn0 & Hlo & Hhi).
  set (n := nearest_scaled 2 (Qabs x)) in *.
  destruct (decimal_digits_spec n Hn0) as [Hd Hv].
  set (m := decimal_digits n) in *.
  set (k := String.length m).
  assert (Hk : exists m' i,
             (if (k <=? 2)%nat then (zeros (2 + 1 - k) ++ m)%string else m) = m'
             /\ ((if (k <=? 2)%nat then (2 + 1)%nat else k) - 2)%nat = S i
             /\ String.length m' = (S i + 2)%nat
             /\ all_digits m' = true /\ digits_value m' = n).
  { destruct (k <=? 2)%nat eqn:Ek.
    - apply Nat.leb_le in Ek.
      destruct (zeros_spec (2 + 1 - k)) as (Z1 & Z2 & Z3).
      exists (zeros (2 + 1 - k) ++ m)%string, 0%nat.
      repeat split.
      + rewrite length_append, Z3. fold k. lia.
      + rewrite all_digits_app, Z1, Hd. reflexivity.
      + unfold digits_value. rewrite digits_value_from_app, Z2. exact Hv.
    - apply Nat.leb_gt in Ek.
      exists m, (k - 3)%nat. repeat split; try assumption; fold k; lia. }
  destruct Hk as (m' & i & -> & -> & Hlen & Hd' & Hv').
  destruct (fixed_split m' n i Hlen Hd' Hv') as (a & b & E & Ha & Da & Db & Lb & Vab).
  exists a, b. rewrite Vab. rewrite E.
  repeat split; assumption.
Qed.

(** [toFixed] on a few values, ties and negative values included. *)
Lemma toFixed_examples :
  toFixed example_host 2 (21 # 11) = "1.91"%string
  /\ toFixed example_host 2 (5 # 8) = "0.63"%string
  /\ toFixed example_host 2 (5 # 1000) = "0.01"%string
  /\ toFixed example_host 2 (-1209 # 10) = "-120.90"%string
  /\ toFixed example_host 2 (-1 # 1000) = "-0.00"%string
  /\ toFixed example_host 2 (0 # 1) = "0.00"%string
  /\ toFixed example_host 2 (inject_Z 1234) = "1234.00"%string.
Proof. repeat split; vm_compute; reflexivity. Qed.

(** ** The rendered cells *)

Lemma filterM_In {A} (f : A -> Outcome bool) (l kept : list A) (x : A) :
  filterM f l = Ok kept -> In x kept -> In x l.
Proof.
  revert kept. induction l as [|y l IH]; intros kept; cbn.
  - intros H. injection H as <-. intros [].
  - destruct (f y) as [keep|e]; cbn; [|discriminate].
    destruct (filterM f l) as [rest|e]; cbn; [|discriminate].
    specialize (IH rest eq_refl).
    intros H. injection H as <-.
    destruct keep; cbn; [intros [->|Hin]|intros Hin]; auto.
Qed.

Lemma render_rows_In (h : Host) (l : list Prop_) (index : nat) (rows : list Row) (r : Row) :
  render_rows h index l = Ok rows -> In r rows ->
  exists prop i, In prop l /\ render_row h i prop = Ok r.
Proof.
  revert index rows. induction l as [|p l IH]; intros index rows; cbn.
  - intros H. injection H as <-. intros [].
  - destruct (render_row h index p) as [r0|e] eqn:E0; cbn; [|discriminate].
    destruct (render_rows h (S index) l) as [rs|e] eqn:E1; cbn; [|discriminate].
    intros H. injection H as <-. intros [<-|Hin].
    + exists p, index. auto.
    + destruct (IH _ _ E1 Hin) as (prop & i & Hp & Hr). exists prop, i. auto.
Qed.

Lemma render_row_cells (h : Host) (index : nat) (prop : Prop_) (r : Row) :
  render_row h index prop = Ok r ->
  cell_player_name r = of_string (player_name prop)
  /\ shows_fixed2 h (pinnacle_over prop) (cell_pinnacle_over r)
  /\ shows_fixed2 h (pinnacle_under prop) (cell_pinnacle_under r)
  /\ shows_fixed2 h (no_vig_over prop) (cell_no_vig_over r)
  /\ shows_fixed2 h (no_vig_under prop) (cell_no_vig_under r).
Proof.
  unfold render_row, call_toFixed2.
  destruct (pinnacle_over prop) as [po|]; cbn; [|discriminate].
  destruct (pinnacle_under prop) as [pu|]; cbn; [|discriminate].
  destruct (no_vig_over prop) as [no|]; cbn; [|discriminate].
  destruct (no_vig_under prop) as [nu|]; cbn; [|discriminate].
  intros H. injection H as <-. cbn.
  split; [reflexivity|].
  repeat split;
    match goal with
    | |- shows_fixed2 _ (Some ?x) _ =>
        exists x; split; [reflexivity|split; [reflexivity|apply toFixed2_two_decimals]]
    end.
Qed.

(** From [10^21] on [toFixed] hands the magnitude to [Number::toString]. *)
Lemma toFixed_big (h : Host) (f : nat) (x : number) :
  (inject_Z (10 ^ 21) <= Qabs x)%Q ->
  toFixed h f x = ((if Qltb x 0 then "-" else "") ++ Number_toString h (Qabs x))%string.
Proof.
  intros Hx. unfold toFixed. cbv zeta. rewrite Qabs_branch.
  apply Qle_bool_iff in Hx. rewrite Hx. reflexivity.
Qed.

Lemma render_row_toFixed (h : Host) (index : nat) (prop : Prop_) (r : Row) :
  render_row h index prop = Ok r ->
  forall field cell,
    In (field, cell) [ (pinnacle_over prop, cell_pinnacle_over r);
                       (pinnacle_under prop, cell_pinnacle_under r);
                       (no_vig_over prop, cell_no_vig_over r);
                       (no_vig_under prop, cell_no_vig_under r) ] ->
    exists x, field = Some x /\ cell = toFixed h 2 x.
Proof.
  unfold render_row, call_toFixed2.
  destruct (pinnacle_over prop) as [po|]; cbn; [|discriminate].
  destruct (pinnacle_under prop) as [pu|]; cbn; [|discriminate].
  destruct (no_vig_over prop) as [no|]; cbn; [|discriminate].
  destruct (no_vig_under prop) as [nu|]; cbn; [|discriminate].
  intros H. injection H as <-. cbn.
  intros field cell [E|[E|[E|[E|[]]]]]; injection E as <- <-; eexists; split; reflexivity.
Qed.

(** C5, with the range of fixed notation made explicit.  Every rendered
    row comes from a record of the props array, and its pinnacle_over,
    pinnacle_under, no_vig_over and no_vig_under cells hold that record's
    field formatted by [toFixed(2)].  For a value of magnitude below
    [10^21] that string is the value rounded to exactly two decimal
    places; from [10^21] on it is the sign followed by the magnitude as
    [Number::toString] prints it. *)
Theorem odds_cells_show_two_decimals (h : Host) (data : option PropsData) (st : State)
        (rows : list Row) (r : Row) :
  TableBody_rows h data st = Ok rows ->
  In r rows ->
  exists d ps prop,
    data = Some d /\ props d = Some ps /\ In prop ps
    /\ cell_player_name r = of_string (player_name prop)
    /\ forall field cell,
         In (field, cell) [ (pinnacle_over prop, cell_pinnacle_over r);
                            (pinnacle_under prop, cell_pinnacle_under r);
                            (no_vig_over prop, cell_no_vig_over r);
                            (no_vig_under prop, cell_no_vig_under r) ] ->
         exists x,
           field = Some x
           /\ cell = toFixed h 2 x
           /\ ((Qabs x < inject_Z (10 ^ 21))%Q -> two_decimals x cell)
           /\ ((inject_Z (10 ^ 21) <= Qabs x)%Q ->
               cell = ((if Qltb x 0 then "-" else "")
                       ++ Number_toString h (Qabs x))%string).
Proof.
  unfold TableBody_rows.
  destruct (filteredAndSortedData h data st) as [[out|]|e] eqn:E; cbn [bind].
  - intros Hrows Hin.
    destruct (filteredAndSortedData_sorted h data st out E)
      as (d & ps & kept & -> & Hps & Hkept & ->).
    destruct (render_rows_In h _ 0 rows r Hrows Hin) as (prop & i & Hprop & Hr).
    exists d, ps, prop.
    split; [reflexivity|]. split; [assumption|]. split.
    + apply (filterM_In _ _ _ _ Hkept).
      apply (Permutation_in _ (Array_sort_perm (comparator h st) kept) Hprop).
    + split; [apply (render_row_cells h i prop r Hr)|].
      intros field cell Hcell.
      destruct (render_row_toFixed h i prop r Hr field cell Hcell) as (x & Hx & ->).
      exists x. split; [exact Hx|]. split; [reflexivity|]. split.
      * apply toFixed2_two_decimals.
      * apply toFixed_big.
  - intros H. injection H as <-. intros [].
  - discriminate.
Qed.

Lemma odds_cells_show_two_decimals_witness :
  TableBody_rows example_host (Some example_data) example_state = Ok example_rows
  /\ In example_row example_rows
  /\ exists d ps prop,
       Some example_data = Some d /\ props d = Some ps /\ In prop ps
       /\ JStr "Bob" = of_string (player_name prop)
       /\ forall field cell,
            In (field, cell) [ (pinnacle_over prop, "1.90"%string);
                               (pinnacle_under prop, "1.90"%string);
                               (no_vig_over prop, "0.50"%string);
                               (no_vig_under prop, "0.50"%string) ] ->
            exists x,
              field = Some x
              /\ cell = toFixed example_host 2 x
              /\ ((Qabs x < inject_Z (10 ^ 21))%Q -> two_decimals x cell)
              /\ ((inject_Z (10 ^ 21) <= Qabs x)%Q ->
                  cell = ((if Qltb x 0 then "-" else "")
                          ++ Number_toString example_host (Qabs x))%string).
Proof.
  assert (Hin : In example_row example_rows) by (left; vm_compute; reflexivity).
  split; [reflexivity|]. split; [exact Hin|].
  apply (odds_cells_show_two_decimals example_host (Some example_data) example_state
           example_rows example_row); [reflexivity|exact Hin].
Defined.

(** A string without a point does not show a number with two decimals. *)
Lemma exponent_notation_is_not_two_decimals (x : number) :
  Qltb x 0 = false -> ~ two_decimals x "1e+21".
Proof.
  intros Hpos (a & b & E & Ha & Da & _). rewrite Hpos in E. cbn in E.
  destruct a as [|c a]; [contradiction Ha; reflexivity|].
  cbn in E. injection E as <- E.
  destruct a as [|c a]; cbn in E; [discriminate E|].
  injection E as <- _. cbn in Da. discriminate Da.
Qed.

(** [toFixed(2)] around [10^21], and the row of a record whose Pinnacle over
    odds are [10^21]. *)
Lemma odds_of_1e21_row :
  toFixed exponent_host 2 (inject_Z (10 ^ 21)) = "1e+21"%string
  /\ toFixed exponent_host 2 (inject_Z (10 ^ 21 - 1)) = "999999999999999999999.00"%string
  /\ toFixed exponent_host 2 (inject_Z (- 12 * 10 ^ 20)) = "-1.2e+21"%string
  /\ exists r,
       TableBody_rows exponent_host (Some example_data_big) example_state = Ok [r]
       /\ cell_pinnacle_over r = "1e+21"%string
       /\ cell_pinnacle_under r = "2.00"%string.
Proof.
  split; [vm_compute; reflexivity|]. split; [vm_compute; reflexivity|].
  split; [vm_compute; reflexivity|].
  eexists. split; [vm_compute; reflexivity|]. split; reflexivity.
Qed.

(** The claim C5 as worded, that every such cell is the value rounded to
    two decimal places, fails for a value of [10^21]: [toFixed(2)] then
    gives [1e+21]. *)
Lemma odds_of_1e21_show_in_exponent_notation :
  ~ (forall (h : Host) (data : option PropsData) (st : State) (rows : list Row) (r : Row),
        TableBody_rows h data st = Ok rows ->
        In r rows ->
        exists d ps prop,
          data = Some d /\ props d = Some ps /\ In prop ps
          /\ cell_player_name r = of_string (player_name prop)
          /\ exists x, pinnacle_over prop = Some x
                       /\ two_decimals x (cell_pinnacle_over r)).
Proof.
  intros H.
  destruct odds_of_1e21_row as (_ & _ & _ & r & Hrows & Hcell & _).
  destruct (H exponent_host (Some example_data_big) example_state [r] r Hrows
              (or_introl eq_refl))
    as (d & ps & prop & Hd & Hps & Hprop & _ & x & Hx & Htwo).
  injection Hd as <-. injection Hps as <-.
  destruct Hprop as [<-|[]]. injection Hx as <-.
  rewrite Hcell in Htwo.
  refine (exponent_notation_is_not_two_decimals _ _ Htwo). vm_compute. reflexivity.
Qed.

(** ** The time of the last update *)









End Frontend.

(* ================================================================== *)
(** * Further properties of the frontend *)
(* ================================================================== *)

Module Coverage.
Import JS App Frontend.

(** ** Filtering *)

Lemma filter_callback_named (st : State) (p : Prop_) :
  player_name p <> None -> filter_callback st p = Ok (passes st p).
Proof.
  unfold passes, filter_callback. destruct (player_name p); [reflexivity|].
  intros H. contradiction H. reflexivity.
Qed.

Lemma filterM_named (st : State) (ps : list Prop_) :
  (forall p, In p ps -> player_name p <> None) ->
  filterM (filter_callback st) ps = Ok (filter (passes st) ps).
Proof.
  induction ps as [|p ps IH]; intros H; cbn [filterM filter].
  - reflexivity.
  - rewrite (filter_callback_named st p) by (apply H; left; reflexivity).
    rewrite IH by (intros q Hq; apply H; right; exact Hq).
    cbn. destruct (passes st p); reflexivity.
Qed.

Lemma filterM_unnamed (st : State) (ps : list Prop_) :
  (exists p, In p ps /\ player_name p = None) ->
  filterM (filter_callback st) ps = Throw TypeError.
Proof.
  induction ps as [|p ps IH]; intros (q & Hq & Hn); [contradiction|].
  cbn [filterM]. unfold filter_callback at 1.
  destruct (player_name p) as [name|] eqn:E; [|reflexivity].
  destruct Hq as [->|Hq]; [congruence|].
  cbn. rewrite IH by (exists q; auto). reflexivity.
Qed.

Lemma names_decidable (ps : list Prop_) :
  (forall p, In p ps -> player_name p <> None)
  \/ (exists p, In p ps /\ player_name p = None).
Proof.
  induction ps as [|p ps [IH|(q & Hq & Hn)]].
  - left. intros p [].
  - destruct (player_name p) eqn:E.
    + left. intros q [<-|Hq]; [congruence|apply IH, Hq].
    + right. exists p. split; [left; reflexivity|exact E].
  - right. exists q. split; [right; exact Hq|exact Hn].
Qed.

Lemma filteredAndSortedData_named (h : Host) (d : PropsData) (st : State)
      (ps : list Prop_) :
  props d = Some ps ->
  (forall p, In p ps -> player_name p <> None) ->
  filteredAndSortedData h (Some d) st
  = Ok (Some (Array_sort (comparator h st) (filter (passes st) ps))).
Proof.
  intros Hps Hnames. unfold filteredAndSortedData. rewrite Hps.
  rewrite (filterM_named st ps Hnames). reflexivity.
Qed.

Lemma example_props_named (p : Prop_) : In p example_props -> player_name p <> None.
Proof. intros [<-|[<-|[<-|[]]]]; discriminate. Qed.

(** X1. The filtered and sorted list holds exactly the records of the
    response that pass the filter, each as often as the response has it. *)
Theorem filtered_list_is_the_passing_records (h : Host) (d : PropsData) (st : State)
        (ps : list Prop_) :
  props d = Some ps ->
  (forall p, In p ps -> player_name p <> None) ->
  exists out,
    filteredAndSortedData h (Some d) st = Ok (Some out)
    /\ Permutation out (filter (passes st) ps)
    /\ (forall p, In p out <-> In p ps /\ passes st p = true)
    /\ (List.length out <= List.length ps)%nat.
Proof.
  intros Hps Hnames.
  exists (Array_sort (comparator h st) (filter (passes st) ps)).
  pose proof (Array_sort_perm (comparator h st) (filter (passes st) ps)) as Hperm.
  split; [apply filteredAndSortedData_named; assumption|]. split; [exact Hperm|]. split.
  - intros p. rewrite <- filter_In. split; intros Hin.
    + apply (Permutation_in _ Hperm Hin).
    + apply (Permutation_in _ (Permutation_sym Hperm) Hin).
  - rewrite (Permutation_length Hperm). apply filter_length_le.
Qed.

Lemma filtered_list_is_the_passing_records_witness :
  props example_data = Some example_props
  /\ (forall p, In p example_props -> player_name p <> None)
  /\ exists out,
       filteredAndSortedData example_host (Some example_data)
         (setSearchTerm "O" example_state) = Ok (Some out)
       /\ Permutation out (filter (passes (setSearchTerm "O" example_state)) example_props)
       /\ (forall p, In p out
                     <-> In p example_props
                         /\ passes (setSearchTerm "O" example_state) p = true)
       /\ (List.length out <= List.length example_props)%nat.
Proof.
  split; [reflexivity|]. split; [exact example_props_named|].
  apply (filtered_list_is_the_passing_records example_host example_data
           (setSearchTerm "O" example_state) example_props eq_refl example_props_named).
Defined.

(** X2. Filtering throws exactly when a record of the response has a [null]
    player name; without data or without a props array nothing is thrown
    and the result is [undefined]. *)
Theorem filter_throws_on_null_name (h : Host) (data : option PropsData) (st : State) :
  (filteredAndSortedData h data st = Throw TypeError
   <-> exists d ps p, data = Some d /\ props d = Some ps
                      /\ In p ps /\ player_name p = None)
  /\ (filteredAndSortedData h data st = Ok None
      <-> data = None \/ exists d, data = Some d /\ props d = None).
Proof.
  unfold filteredAndSortedData.
  destruct data as [d|].
  - destruct (props d) as [ps|] eqn:Hps.
    + destruct (names_decidable ps) as [Hnames|Hnull].
      * rewrite (filterM_named st ps Hnames). cbn [bind]. split; split.
        -- discriminate.
        -- intros (d' & ps' & p & Hd & Hps' & Hin & Hn).
           injection Hd as <-. rewrite Hps in Hps'. injection Hps' as <-.
           exfalso. apply (Hnames p Hin Hn).
        -- discriminate.
        -- intros [H|(d' & Hd & Hn)]; [discriminate|].
           injection Hd as <-. congruence.
      * rewrite (filterM_unnamed st ps Hnull). cbn [bind]. split; split.
        -- intros _. destruct Hnull as (p & Hin & Hn). exists d, ps, p. auto.
        -- reflexivity.
        -- discriminate.
        -- intros [H|(d' & Hd & Hn)]; [discriminate|].
           injection Hd as <-. congruence.
    + split; split.
      * discriminate.
      * intros (d' & ps' & p & Hd & Hps' & _). injection Hd as <-. congruence.
      * intros _. right. exists d. auto.
      * reflexivity.
  - split; split.
    + discriminate.
    + intros (d' & ps' & p & Hd & _). discriminate.
    + intros _. left. reflexivity.
    + reflexivity.
Qed.

(** ** The search *)

Lemma prefix_app (sub s : string) :
  String.prefix sub s = true <-> exists post, s = (sub ++ post)%string.
Proof.
  revert s. induction sub as [|c sub IH]; intros s.
  - split; [intros _; exists s; reflexivity|]. intros _. destruct s; reflexivity.
  - destruct s as [|c' s]; cbn.
    + split; [discriminate|]. intros (post & H). discriminate H.
    + destruct (ascii_dec c c') as [->|Hne].
      * rewrite IH. split; intros (post & H); exists post.
        -- rewrite H. reflexivity.
        -- injection H as H. exact H.
      * split; [discriminate|]. intros (post & H). injection H as H _. congruence.
Qed.

(** [includes] is the substring test. *)
Lemma includes_spec (s sub : string) :
  includes s sub = true <-> exists pre post, s = (pre ++ sub ++ post)%string.
Proof.
  induction s as [|c s IH]; cbn [includes]; rewrite orb_true_iff, prefix_app.
  - split.
    + intros [(post & H)|H]; [|discriminate]. exists EmptyString, post. exact H.
    + intros (pre & post & H). left. destruct pre; [exists post; exact H|discriminate].
  - rewrite IH. split.
    + intros [(post & H)|(pre & post & H)].
      * exists EmptyString, post. exact H.
      * exists (String c pre), post. cbn. rewrite H. reflexivity.
    + intros ([|c' pre] & post & H).
      * left. exists post. exact H.
      * right. injection H as _ H. exists pre, post. exact H.
Qed.

Lemma includes_empty (s : string) : includes s EmptyString = true.
Proof. apply includes_spec. exists EmptyString, s. reflexivity. Qed.

Lemma lower_unit_idempotent (c : ascii) : lower_unit (lower_unit c) = lower_unit c.
Proof.
  destruct c as [[|] [|] [|] [|] [|] [|] [|] [|]]; vm_compute; reflexivity.
Qed.

Lemma toLowerCase_idempotent (s : string) : toLowerCase (toLowerCase s) = toLowerCase s.
Proof.
  induction s as [|c s IH]; cbn; [reflexivity|].
  rewrite lower_unit_idempotent, IH. reflexivity.
Qed.

Lemma passes_spec (st : State) (p : Prop_) :
  passes st p = true
  <-> exists name,
        player_name p = Some name
        /\ (exists pre post,
              toLowerCase name = (pre ++ toLowerCase (searchTerm st) ++ post)%string)
        /\ (selectedPropType st = "all"%string
            \/ prop_type p = Some (selectedPropType st)).
Proof.
  unfold passes, filter_callback.
  destruct (player_name p) as [name|].
  - rewrite andb_true_iff, orb_true_iff, includes_spec, String.eqb_eq. split.
    + intros [Hinc Htype]. exists name. split; [reflexivity|]. split; [exact Hinc|].
      destruct Htype as [Hall|Ht]; [left; exact Hall|right].
      destruct (prop_type p) as [t|]; [|discriminate Ht].
      apply String.eqb_eq in Ht. rewrite Ht. reflexivity.
    + intros (name' & Hname & Hinc & Htype). injection Hname as <-.
      split; [exact Hinc|].
      destruct Htype as [Hall|Ht]; [left; exact Hall|right].
      rewrite Ht. apply String.eqb_refl.
  - split; [discriminate|]. intros (name & Hname & _). discriminate Hname.
Qed.

(** X3. A record of the response is listed exactly when it has a name
    whose lower-cased form contains the lower-cased search term as a
    substring, and the selected prop type is 'all' or is the record's
    prop type. *)
Theorem listed_records (h : Host) (d : PropsData) (st : State)
        (ps out : list Prop_) (p : Prop_) :
  props d = Some ps ->
  filteredAndSortedData h (Some d) st = Ok (Some out) ->
  (In p out
   <-> In p ps
       /\ exists name,
            player_name p = Some name
            /\ (exists pre post,
                  toLowerCase name = (pre ++ toLowerCase (searchTerm st) ++ post)%string)
            /\ (selectedPropType st = "all"%string
                \/ prop_type p = Some (selectedPropType st))).
Proof.
  intros Hps Hout.
  destruct (filteredAndSortedData_sorted h (Some d) st out Hout)
    as (d' & ps' & kept & Hd & Hps' & Hkept & ->).
  injection Hd as <-. rewrite Hps in Hps'. injection Hps' as <-.
  assert (Hnames : forall q, In q ps -> player_name q <> None).
  { intros q Hin Hn.
    rewrite (filterM_unnamed st ps) in Hkept by (exists q; auto). discriminate Hkept. }
  rewrite (filterM_named st ps Hnames) in Hkept. injection Hkept as <-.
  rewrite <- passes_spec, <- filter_In.
  pose proof (Array_sort_perm (comparator h st) (filter (passes st) ps)) as Hperm.
  split; intros Hin.
  - apply (Permutation_in _ Hperm Hin).
  - apply (Permutation_in _ (Permutation_sym Hperm) Hin).
Qed.

Lemma listed_records_witness :
  props example_data = Some example_props
  /\ filteredAndSortedData example_host (Some example_data)
       (setSearchTerm "O" example_state)
     = Ok (Some [ example_prop "Bob" (Some (15 # 10)) (19 # 10) (19 # 10);
                  example_prop "Carol" (Some (5 # 10)) (25 # 10) (15 # 10) ])
  /\ (In (example_prop "Alice" None (18 # 10) (21 # 10))
         [ example_prop "Bob" (Some (15 # 10)) (19 # 10) (19 # 10);
           example_prop "Carol" (Some (5 # 10)) (25 # 10) (15 # 10) ]
      <-> In (example_prop "Alice" None (18 # 10) (21 # 10)) example_props
          /\ exists name,
               Some "Alice"%string = Some name
               /\ (exists pre post, toLowerCase name = (pre ++ "o" ++ post)%string)
               /\ ("all"%string = "all"%string \/ Some "Hits"%string = Some "all"%string)).
Proof.
  split; [reflexivity|]. split; [reflexivity|].
  apply (listed_records example_host example_data (setSearchTerm "O" example_state)
           example_props); reflexivity.
Defined.

(** X4. The search does not depend on the case of the term: two terms with
    the same lower-cased form give the same list, so typing a term or its
    lower-cased form is the same. *)
Theorem search_ignores_case (h : Host) (data : option PropsData) (st : State)
        (term : string) :
  toLowerCase term = toLowerCase (searchTerm st) ->
  filteredAndSortedData h data (setSearchTerm term st) = filteredAndSortedData h data st
  /\ filteredAndSortedData h data (setSearchTerm (toLowerCase (searchTerm st)) st)
     = filteredAndSortedData h data st.
Proof.
  assert (Hgen : forall t, toLowerCase t = toLowerCase (searchTerm st) ->
            filteredAndSortedData h data (setSearchTerm t st)
            = filteredAndSortedData h data st).
  { intros t Ht. unfold filteredAndSortedData.
    destruct data as [d|]; [|reflexivity].
    destruct (props d) as [ps|]; [|reflexivity].
    rewrite (filterM_ext (filter_callback (setSearchTerm t st)) (filter_callback st) ps).
    - destruct (filterM (filter_callback st) ps) as [kept|e]; [|reflexivity].
      reflexivity.
    - intros p. unfold filter_callback. cbn [searchTerm selectedPropType setSearchTerm].
      rewrite Ht. reflexivity. }
  intros Hterm. split; [apply Hgen, Hterm|].
  apply Hgen, toLowerCase_idempotent.
Qed.

Lemma search_ignores_case_witness :
  toLowerCase "o" = toLowerCase (searchTerm (setSearchTerm "O" example_state))
  /\ filteredAndSortedData example_host (Some example_data)
       (setSearchTerm "o" (setSearchTerm "O" example_state))
     = filteredAndSortedData example_host (Some example_data)
         (setSearchTerm "O" example_state)
  /\ filteredAndSortedData example_host (Some example_data)
       (setSearchTerm (toLowerCase "O") (setSearchTerm "O" example_state))
     = filteredAndSortedData example_host (Some example_data)
         (setSearchTerm "O" example_state).
Proof.
  split; [reflexivity|].
  apply (search_ignores_case example_host (Some example_data)
           (setSearchTerm "O" example_state) "o"). reflexivity.
Defined.

(** X5. When no record of the response has a [null] player name, with the
    empty search term and the prop type 'all' (the initial state) every
    record of the response is listed. *)
Theorem unfiltered_list_is_complete (h : Host) (d : PropsData) (st : State)
        (ps : list Prop_) :
  props d = Some ps ->
  (forall p, In p ps -> player_name p <> None) ->
  searchTerm st = EmptyString ->
  selectedPropType st = "all"%string ->
  exists out,
    filteredAndSortedData h (Some d) st = Ok (Some out) /\ Permutation out ps.
Proof.
  intros Hps Hnames Hterm Hall.
  exists (Array_sort (comparator h st) (filter (passes st) ps)).
  split; [apply filteredAndSortedData_named; assumption|].
  pose proof (Array_sort_perm (comparator h st) (filter (passes st) ps)) as Hperm.
  assert (Hfilter : filter (passes st) ps = ps).
  { clear Hperm Hps. induction ps as [|p ps IH]; [reflexivity|].
    cbn [filter].
    assert (Hp : passes st p = true).
    { apply passes_spec. destruct (player_name p) as [name|] eqn:E.
      - exists name. split; [reflexivity|]. split; [|left; exact Hall].
        rewrite Hterm. exists EmptyString, (toLowerCase name). reflexivity.
      - exfalso. apply (Hnames p (or_introl eq_refl) E). }
    rewrite Hp, IH; [reflexivity|].
    intros q Hq. apply Hnames. right. exact Hq. }
  rewrite Hfilter in Hperm |- *. exact Hperm.
Qed.

Lemma unfiltered_list_is_complete_witness :
  props example_data = Some example_props
  /\ (forall p, In p example_props -> player_name p <> None)
  /\ searchTerm initial_state = EmptyString
  /\ selectedPropType initial_state = "all"%string
  /\ exists out,
       filteredAndSortedData example_host (Some example_data) initial_state = Ok (Some out)
       /\ Permutation out example_props.
Proof.
  split; [reflexivity|]. split; [exact example_props_named|].
  split; [reflexivity|]. split; [reflexivity|].
  apply (unfiltered_list_is_complete example_host example_data initial_state example_props
           eq_refl example_props_named eq_refl eq_refl).
Defined.

(** ** The order of the sorted list *)

Lemma ascii_compare_refl (c : ascii) : Ascii.compare c c = Eq.
Proof. unfold Ascii.compare. apply N.compare_refl. Qed.

Lemma ascii_compare_lt_trans (a b c : ascii) :
  Ascii.compare a b = Lt -> Ascii.compare b c = Lt -> Ascii.compare a c = Lt.
Proof.
  unfold Ascii.compare. rewrite !N.compare_lt_iff. apply N.lt_trans.
Qed.

Lemma string_compare_lt_trans (s1 s2 s3 : string) :
  String.compare s1 s2 = Lt -> String.compare s2 s3 = Lt -> String.compare s1 s3 = Lt.
Proof.
  revert s2 s3. induction s1 as [|c1 s1 IH]; intros [|c2 s2] [|c3 s3]; cbn;
    try discriminate; try reflexivity.
  destruct (Ascii.compare c1 c2) eqn:E12; try discriminate;
    destruct (Ascii.compare c2 c3) eqn:E23; try discriminate; intros H12 H23.
  - apply Ascii.compare_eq_iff in E12. apply Ascii.compare_eq_iff in E23. subst.
    rewrite ascii_compare_refl. apply (IH _ _ H12 H23).
  - apply Ascii.compare_eq_iff in E12. subst. rewrite E23. reflexivity.
  - apply Ascii.compare_eq_iff in E23. subst. rewrite E12. reflexivity.
  - rewrite (ascii_compare_lt_trans _ _ _ E12 E23). reflexivity.
Qed.

Lemma string_ltb_asym (s t : string) : String.ltb s t = true -> String.ltb t s = false.
Proof.
  unfold String.ltb. rewrite (String.compare_antisym t s).
  destruct (String.compare s t); cbn; intros H; try discriminate H; reflexivity.
Qed.

Lemma string_ltb_negtrans (x y z : string) :
  String.ltb x y = false -> String.ltb y z = false -> String.ltb x z = false.
Proof.
  unfold String.ltb.
  destruct (String.compare x y) eqn:Exy; try discriminate; intros _;
    destruct (String.compare y z) eqn:Eyz; try discriminate; intros _.
  - apply String.compare_eq_iff in Exy. subst. rewrite Eyz. reflexivity.
  - apply String.compare_eq_iff in Exy. subst. rewrite Eyz. reflexivity.
  - apply String.compare_eq_iff in Eyz. subst. rewrite Exy. reflexivity.
  - assert (Hyx : String.compare y x = Lt)
      by (rewrite String.compare_antisym, Exy; reflexivity).
    assert (Hzy : String.compare z y = Lt)
      by (rewrite String.compare_antisym, Eyz; reflexivity).
    rewrite String.compare_antisym, (string_compare_lt_trans _ _ _ Hzy Hyx).
    reflexivity.
Qed.

Lemma Qltb_false (x y : Q) : Qltb x y = false <-> (y <= x)%Q.
Proof.
  unfold Qltb. rewrite negb_false_iff. apply Qle_bool_iff.
Qed.

Lemma Prop_get_comparable (a b : Prop_) (f : SortField) :
  is_null (Prop_get a f) = false -> is_null (Prop_get b f) = false ->
  comparable_values (Prop_get a f) (Prop_get b f).
Proof.
  destruct f; cbn;
    match goal with
    | |- context [of_string ?u] => destruct u
    | |- context [of_number ?u] => destruct u
    end; cbn; try discriminate;
    match goal with
    | |- context [of_string ?u] => destruct u
    | |- context [of_number ?u] => destruct u
    end; cbn; try discriminate; auto.
Qed.

Lemma IsLessThan_asym (h : Host) (x y : JsValue) :
  comparable_values x y -> IsLessThan h x y = true -> IsLessThan h y x = false.
Proof.
  destruct x, y; cbn; try contradiction; intros _.
  - rewrite Qltb_lt, Qltb_false. apply Qlt_le_weak.
  - apply string_ltb_asym.
Qed.

Lemma IsLessThan_negtrans (h : Host) (x y z : JsValue) :
  comparable_values x y -> comparable_values y z ->
  IsLessThan h x y = false -> IsLessThan h y z = false -> IsLessThan h x z = false.
Proof.
  destruct x, y; cbn; try contradiction; intros _; destruct z; cbn; try contradiction;
    intros _.
  - rewrite !Qltb_false. intros H1 H2. apply (Qle_trans _ _ _ H2 H1).
  - apply string_ltb_negtrans.
Qed.

Lemma comparable_sym (x y : JsValue) : comparable_values x y -> comparable_values y x.
Proof. destruct x, y; cbn; auto. Qed.

(** The answer of the comparator on two records without [null] at the
    sort field. *)
Lemma comparator_values (h : Host) (st : State) (a b : Prop_) :
  is_null (Prop_get a (sortField st)) = false ->
  is_null (Prop_get b (sortField st)) = false ->
  (0 <= comparator h st a b
   <-> match sortDirection st with
       | asc => IsLessThan h (Prop_get a (sortField st)) (Prop_get b (sortField st)) = false
       | desc => IsLessThan h (Prop_get b (sortField st)) (Prop_get a (sortField st)) = false
       end).
Proof.
  intros Na Nb. pose proof (Prop_get_comparable a b (sortField st) Na Nb) as Hc.
  unfold comparator. rewrite Na, Nb.
  pose proof (IsLessThan_asym h _ _ Hc) as H1.
  pose proof (IsLessThan_asym h _ _ (comparable_sym _ _ Hc)) as H2.
  destruct (IsLessThan h (Prop_get a (sortField st)) (Prop_get b (sortField st)));
    destruct (IsLessThan h (Prop_get b (sortField st)) (Prop_get a (sortField st)));
    destruct (sortDirection st); cbn; split; intros H; try lia; try reflexivity;
      try discriminate H;
      try (specialize (H1 eq_refl); discriminate H1);
      try (specialize (H2 eq_refl); discriminate H2).
Qed.

Lemma comparator_nonneg_nonnull (h : Host) (st : State) (a b : Prop_) :
  is_null (Prop_get a (sortField st)) = false ->
  0 <= comparator h st a b ->
  is_null (Prop_get b (sortField st)) = false.
Proof.
  intros Na H. destruct (is_null (Prop_get b (sortField st))) eqn:Nb; [|reflexivity].
  rewrite (comparator_null_right h st a b Na Nb) in H. lia.
Qed.

Lemma comparator_asym (h : Host) (st : State) (x y : Prop_) :
  comparator h st x y < 0 -> 0 <= comparator h st y x.
Proof.
  intros H.
  destruct (is_null (Prop_get x (sortField st))) eqn:Nx.
  { rewrite (comparator_null_left h st x y Nx) in H. lia. }
  destruct (is_null (Prop_get y (sortField st))) eqn:Ny.
  { rewrite (comparator_null_left h st y x Ny). lia. }
  apply (comparator_values h st y x Ny Nx).
  pose proof (proj2 (comparator_values h st x y Nx Ny)) as Hxy.
  pose proof (Prop_get_comparable x y (sortField st) Nx Ny) as Hc.
  destruct (sortDirection st).
  - destruct (IsLessThan h (Prop_get x (sortField st)) (Prop_get y (sortField st))) eqn:E.
    + apply (IsLessThan_asym h _ _ Hc E).
    + specialize (Hxy eq_refl). lia.
  - destruct (IsLessThan h (Prop_get y (sortField st)) (Prop_get x (sortField st))) eqn:E.
    + apply (IsLessThan_asym h _ _ (comparable_sym _ _ Hc) E).
    + specialize (Hxy eq_refl). lia.
Qed.

Lemma comparator_negtrans (h : Host) (st : State) (x y z : Prop_) :
  0 <= comparator h st x y -> 0 <= comparator h st y z -> 0 <= comparator h st x z.
Proof.
  intros Hxy Hyz.
  destruct (is_null (Prop_get x (sortField st))) eqn:Nx.
  { rewrite (comparator_null_left h st x z Nx). lia. }
  pose proof (comparator_nonneg_nonnull h st x y Nx Hxy) as Ny.
  pose proof (comparator_nonneg_nonnull h st y z Ny Hyz) as Nz.
  apply (comparator_values h st x y Nx Ny) in Hxy.
  apply (comparator_values h st y z Ny Nz) in Hyz.
  apply (comparator_values h st x z Nx Nz).
  pose proof (Prop_get_comparable x y (sortField st) Nx Ny) as Cxy.
  pose proof (Prop_get_comparable y z (sortField st) Ny Nz) as Cyz.
  destruct (sortDirection st).
  - apply (IsLessThan_negtrans h _ _ _ Cxy Cyz Hxy Hyz).
  - apply (IsLessThan_negtrans h _ _ _ (comparable_sym _ _ Cyz) (comparable_sym _ _ Cxy)
             Hyz Hxy).
Qed.

Lemma StronglySorted_nth {A} (R : A -> A -> Prop) (l : list A) (i j : nat) (a b : A) :
  StronglySorted R l -> (i < j)%nat ->
  nth_error l i = Some a -> nth_error l j = Some b -> R a b.
Proof.
  intros Hs. revert i j. induction Hs as [|x l Hs IH Hx]; intros i j Hij Ha Hb.
  - destruct i; discriminate Ha.
  - destruct j as [|j]; [lia|]. cbn in Hb. destruct i as [|i]; cbn in Ha.
    + injection Ha as <-. rewrite Forall_forall in Hx.
      apply Hx. apply (nth_error_In _ _ Hb).
    + apply (IH i j); [lia|assumption|assumption].
Qed.

(** X6. The list is in order on the records whose value at the sort field
    is not [null]: ascending, no later value is below an earlier one;
    descending, no earlier value is below a later one.  For numbers this
    is [<=], for strings the order of their code units. *)
Theorem sorted_by_the_active_field (h : Host) (data : option PropsData) (st : State)
        (out : list Prop_) (i j : nat) (a b : Prop_) :
  filteredAndSortedData h data st = Ok (Some out) ->
  (i < j)%nat ->
  nth_error out i = Some a ->
  nth_error out j = Some b ->
  Prop_get a (sortField st) <> JNull ->
  Prop_get b (sortField st) <> JNull ->
  (forall x y : number,
      Prop_get a (sortField st) = JNum x -> Prop_get b (sortField st) = JNum y ->
      match sortDirection st with
      | asc => (x <= y)%Q
      | desc => (y <= x)%Q
      end)
  /\ (forall s t : string,
        Prop_get a (sortField st) = JStr s -> Prop_get b (sortField st) = JStr t ->
        match sortDirection st with
        | asc => String.leb s t = true
        | desc => String.leb t s = true
        end).
Proof.
  intros Hout Hij Ha Hb Na Nb.
  apply is_null_false_iff in Na. apply is_null_false_iff in Nb.
  destruct (filteredAndSortedData_sorted h data st out Hout)
    as (d & ps & kept & _ & _ & _ & ->).
  pose proof (Array_sort_sorted (comparator h st) (comparator_asym h st)
                (comparator_negtrans h st) kept) as Hs.
  pose proof (StronglySorted_nth _ _ i j a b Hs Hij Ha Hb) as Hba. cbn beta in Hba.
  apply (comparator_values h st b a Nb Na) in Hba.
  assert (Hleb : forall s t, String.ltb t s = false -> String.leb s t = true).
  { intros s t. unfold String.ltb, String.leb. rewrite (String.compare_antisym s t).
    destruct (String.compare t s); cbn; intros H; try discriminate H; reflexivity. }
  split.
  - intros x y Hx Hy. rewrite Hx, Hy in Hba. cbn in Hba.
    destruct (sortDirection st); apply Qltb_false in Hba; exact Hba.
  - intros s t Hs' Ht. rewrite Hs', Ht in Hba. cbn in Hba.
    destruct (sortDirection st); apply Hleb, Hba.
Qed.

Lemma sorted_by_the_active_field_witness :
  filteredAndSortedData example_host (Some example_data) example_state
  = Ok (Some example_list)
  /\ (0 < 1)%nat
  /\ (forall x y : number,
        JNum (15 # 10) = JNum x -> JNum (5 # 10) = JNum y -> (y <= x)%Q)
  /\ (forall s t : string,
        JNum (15 # 10) = JStr s -> JNum (5 # 10) = JStr t -> String.leb t s = true).
Proof.
  split; [reflexivity|]. split; [lia|].
  apply (sorted_by_the_active_field example_host (Some example_data) example_state
           example_list 0 1
           (example_prop "Bob" (Some (15 # 10)) (19 # 10) (19 # 10))
           (example_prop "Carol" (Some (5 # 10)) (25 # 10) (15 # 10)));
    try reflexivity; try lia; discriminate.
Defined.

(** ** Ties keep the order of the response *)

Section Stable.
Context {A : Type} (cmp : A -> A -> Z).

Lemma precedes_split (a b : A) (l : list A) :
  precedes a b l <-> exists l1 l2 l3, l = l1 ++ a :: l2 ++ b :: l3.
Proof.
  split.
  - induction 1 as [l Hin|x l _ (l1 & l2 & l3 & ->)].
    + apply in_split in Hin. destruct Hin as (l2 & l3 & ->).
      exists [], l2, l3. reflexivity.
    + exists (x :: l1), l2, l3. reflexivity.
  - intros (l1 & l2 & l3 & ->). induction l1 as [|x l1 IH]; cbn.
    + apply precedes_here. apply in_or_app. right. left. reflexivity.
    + apply precedes_later, IH.
Qed.

Lemma precedes_rev (a b : A) (l : list A) : precedes a b l -> precedes b a (rev l).
Proof.
  rewrite !precedes_split. intros (l1 & l2 & l3 & ->).
  exists (rev l3), (rev l2), (rev l1).
  rewrite !rev_app_distr. cbn. rewrite !rev_app_distr. cbn.
  rewrite <- !app_assoc. reflexivity.
Qed.

Lemma precedes_In (a b : A) (l : list A) : precedes a b l -> In a l /\ In b l.
Proof.
  induction 1 as [l Hin|x l _ [Ha Hb]]; cbn; auto.
Qed.

(** An insertion does not change the order of the elements in place. *)
Lemma insert_rev_keeps (x a b : A) (acc : list A) :
  precedes a b acc -> precedes a b (insert_rev cmp x acc).
Proof.
  induction 1 as [l Hin|y l Hp IH]; cbn.
  - destruct (cmp x a <? 0).
    + apply precedes_here.
      apply (Permutation_in _ (Permutation_sym (insert_rev_perm cmp x l))). right. exact Hin.
    + apply precedes_later, precedes_here, Hin.
  - destruct (cmp x y <? 0).
    + apply precedes_later, IH.
    + apply precedes_later, precedes_later, Hp.
Qed.

(** An inserted element stays behind the elements it is not below. *)
Lemma insert_rev_behind (a b : A) (acc : list A) :
  0 <= cmp b a -> In a acc -> precedes b a (insert_rev cmp b acc).
Proof.
  intros Hba. induction acc as [|y r IH]; intros Hin; [contradiction|]. cbn.
  destruct (cmp b y <? 0) eqn:C.
  - apply precedes_later, IH. destruct Hin as [->|Hin]; [|exact Hin].
    apply Z.ltb_lt in C. lia.
  - apply precedes_here. exact Hin.
Qed.

Lemma fold_insert_stable (a b : A) (l acc : list A) :
  0 <= cmp b a ->
  precedes b a acc \/ (In a acc /\ In b l) \/ precedes a b l ->
  precedes b a (fold_left (fun acc x => insert_rev cmp x acc) l acc).
Proof.
  intros Hba. revert acc. induction l as [|x l IH]; intros acc H; cbn.
  - destruct H as [H|[[_ []]|H]]; [exact H|inversion H].
  - apply IH. destruct H as [H|[[Ha Hb]|H]].
    + left. apply insert_rev_keeps, H.
    + assert (Ha' : In a (insert_rev cmp x acc))
        by (apply (Permutation_in _ (Permutation_sym (insert_rev_perm cmp x acc)));
            right; exact Ha).
      destruct Hb as [->|Hb].
      * left. apply insert_rev_behind; assumption.
      * right. left. auto.
    + inversion H as [l' Hin|y l' Hp]; subst.
      * right. left. split; [|exact Hin].
        eapply Permutation_in; [apply Permutation_sym, insert_rev_perm|].
        left. reflexivity.
      * right. right. exact Hp.
Qed.

(** The sort is stable: an element that is not below an element before it
    stays behind it. *)
Lemma Array_sort_stable (a b : A) (l : list A) :
  0 <= cmp b a -> precedes a b l -> precedes a b (Array_sort cmp l).
Proof.
  intros Hba Hp. unfold Array_sort. apply precedes_rev.
  apply fold_insert_stable; auto.
Qed.

Lemma filter_precedes (f : A -> bool) (a b : A) (l : list A) :
  f a = true -> f b = true -> precedes a b l -> precedes a b (filter f l).
Proof.
  intros Fa Fb. induction 1 as [l Hin|x l _ IH]; cbn.
  - rewrite Fa. apply precedes_here. apply filter_In. auto.
  - destruct (f x); [apply precedes_later|]; exact IH.
Qed.

End Stable.

(** X7. When no listed record has [null] at the sort field (the comparator
    is then consistent, and the sort is stable), two listed records keep
    the order they have in the response unless the comparator puts the
    later one below the earlier one; so records with equal values at the
    sort field stay in the order of the response, in either direction. *)
Theorem ties_keep_response_order (h : Host) (d : PropsData) (st : State)
        (l1 l2 l3 out : list Prop_) (a b : Prop_) :
  props d = Some (l1 ++ a :: l2 ++ b :: l3) ->
  filteredAndSortedData h (Some d) st = Ok (Some out) ->
  (forall p, In p out -> Prop_get p (sortField st) <> JNull) ->
  passes st a = true -> passes st b = true ->
  0 <= comparator h st b a ->
  (exists o1 o2 o3, out = o1 ++ a :: o2 ++ b :: o3)
  /\ (forall x y z, In x out -> In y out -> In z out ->
                    (comparator h st x y < 0 -> 0 <= comparator h st y x)
                    /\ (0 <= comparator h st x y -> 0 <= comparator h st y z ->
                        0 <= comparator h st x z)
                    /\ (comparator h st x y = 0 <-> comparator h st y x = 0)).
Proof.
  intros Hps Hout Hnonnull Pa Pb Hba. split.
  - destruct (filteredAndSortedData_sorted h (Some d) st out Hout)
      as (d' & ps' & kept & Hd & Hps' & Hkept & ->).
    injection Hd as <-. rewrite Hps in Hps'. injection Hps' as <-.
    set (ps := l1 ++ a :: l2 ++ b :: l3) in *.
    assert (Hnames : forall p, In p ps -> player_name p <> None).
    { intros p Hin Hn.
      rewrite (filterM_unnamed st ps) in Hkept by (exists p; auto). discriminate Hkept. }
    rewrite (filterM_named st ps Hnames) in Hkept. injection Hkept as <-.
    apply precedes_split. apply Array_sort_stable; [exact Hba|].
    apply filter_precedes; [assumption|assumption|].
    apply precedes_split. exists l1, l2, l3. reflexivity.
  - intros x y z Hx Hy Hz.
    split; [apply comparator_asym|]. split; [apply comparator_negtrans|].
    apply Hnonnull in Hx, Hy. apply is_null_false_iff in Hx, Hy.
    pose proof (Prop_get_comparable x y (sortField st) Hx Hy) as Hc.
    pose proof (IsLessThan_asym h _ _ Hc) as A1.
    pose proof (IsLessThan_asym h _ _ (comparable_sym _ _ Hc)) as A2.
    unfold comparator. rewrite Hx, Hy.
    destruct (IsLessThan h (Prop_get x (sortField st)) (Prop_get y (sortField st)));
      destruct (IsLessThan h (Prop_get y (sortField st)) (Prop_get x (sortField st)));
      destruct (sortDirection st); cbn; split; intros H; try reflexivity;
        try discriminate H;
        try (specialize (A1 eq_refl); discriminate A1).
Qed.

Lemma example_props_typed (p : Prop_) :
  In p example_props -> Prop_get p prop_type_f <> JNull.
Proof. intros [<-|[<-|[<-|[]]]]; discriminate. Qed.

Lemma ties_keep_response_order_witness :
  props example_data
  = Some ([] ++ example_prop "Alice" None (18 # 10) (21 # 10)
             :: [ example_prop "Bob" (Some (15 # 10)) (19 # 10) (19 # 10) ]
             ++ example_prop "Carol" (Some (5 # 10)) (25 # 10) (15 # 10) :: [])
  /\ filteredAndSortedData example_host (Some example_data)
       (handleSort prop_type_f example_state)
     = Ok (Some example_props)
  /\ (forall p, In p example_props -> Prop_get p prop_type_f <> JNull)
  /\ 0 <= comparator example_host (handleSort prop_type_f example_state)
            (example_prop "Carol" (Some (5 # 10)) (25 # 10) (15 # 10))
            (example_prop "Alice" None (18 # 10) (21 # 10))
  /\ exists o1 o2 o3,
       example_props
       = o1 ++ example_prop "Alice" None (18 # 10) (21 # 10)
            :: o2 ++ example_prop "Carol" (Some (5 # 10)) (25 # 10) (15 # 10) :: o3.
Proof.
  split; [reflexivity|]. split; [reflexivity|]. split; [exact example_props_typed|].
  assert (Hcmp : 0 <= comparator example_host (handleSort prop_type_f example_state)
                        (example_prop "Carol" (Some (5 # 10)) (25 # 10) (15 # 10))
                        (example_prop "Alice" None (18 # 10) (21 # 10)))
    by (vm_compute; discriminate).
  split; [exact Hcmp|].
  apply (ties_keep_response_order example_host example_data
           (handleSort prop_type_f example_state)
           [] [ example_prop "Bob" (Some (15 # 10)) (19 # 10) (19 # 10) ] []
           example_props);
    first [reflexivity|exact Hcmp|exact example_props_typed].
Defined.

Lemma handleSort_frame (field : SortField) (st : State) :
  searchTerm (handleSort field st) = searchTerm st
  /\ selectedPropType (handleSort field st) = selectedPropType st.
Proof.
  unfold handleSort. destruct (SortField_eqb field (sortField st)); cbn; auto.
Qed.

(** X8. A click on a column head reorders the list and neither adds nor
    removes a record. *)
Theorem handleSort_keeps_the_records (h : Host) (data : option PropsData) (st : State)
        (field : SortField) (out : list Prop_) :
  filteredAndSortedData h data st = Ok (Some out) ->
  exists out',
    filteredAndSortedData h data (handleSort field st) = Ok (Some out')
    /\ Permutation out out'.
Proof.
  intros Hout.
  destruct (filteredAndSortedData_sorted h data st out Hout)
    as (d & ps & kept & -> & Hps & Hkept & ->).
  exists (Array_sort (comparator h (handleSort field st)) kept). split.
  - unfold filteredAndSortedData. rewrite Hps.
    rewrite (filterM_ext (filter_callback (handleSort field st)) (filter_callback st) ps).
    + rewrite Hkept. reflexivity.
    + intros p. apply filter_callback_state; apply handleSort_frame.
  - eapply Permutation_trans; [apply Array_sort_perm|].
    apply Permutation_sym, Array_sort_perm.
Qed.

Lemma handleSort_keeps_the_records_witness :
  filteredAndSortedData example_host (Some example_data) example_state
  = Ok (Some example_list)
  /\ exists out',
       filteredAndSortedData example_host (Some example_data)
         (handleSort player_name_f example_state) = Ok (Some out')
       /\ Permutation example_list out'.
Proof.
  split; [reflexivity|].
  apply (handleSort_keeps_the_records example_host (Some example_data) example_state
           player_name_f example_list). reflexivity.
Defined.

(** ** The rows *)

Lemma render_row_present (h : Host) (index : nat) (p : Prop_) :
  odds_present p = true -> exists r, render_row h index p = Ok r /\ key r = index.
Proof.
  unfold odds_present, render_row, call_toFixed2.
  destruct (pinnacle_over p), (pinnacle_under p), (no_vig_over p), (no_vig_under p);
    try discriminate.
  intros _. eexists. split; reflexivity.
Qed.

Lemma render_row_absent (h : Host) (index : nat) (p : Prop_) :
  odds_present p = false -> render_row h index p = Throw TypeError.
Proof.
  unfold odds_present, render_row, call_toFixed2.
  destruct (pinnacle_over p), (pinnacle_under p), (no_vig_over p), (no_vig_under p);
    try discriminate; reflexivity.
Qed.

Lemma render_rows_present (h : Host) (l : list Prop_) (index : nat) :
  (forall p, In p l -> odds_present p = true) ->
  exists rows, render_rows h index l = Ok rows.
Proof.
  revert index. induction l as [|p l IH]; intros index H; cbn.
  - exists []. reflexivity.
  - destruct (render_row_present h index p (H p (or_introl eq_refl))) as (r & -> & _).
    destruct (IH (S index) (fun q Hq => H q (or_intror Hq))) as (rows & ->).
    cbn. eexists. reflexivity.
Qed.

Lemma render_rows_absent (h : Host) (l : list Prop_) (index : nat) :
  (exists p, In p l /\ odds_present p = false) ->
  render_rows h index l = Throw TypeError.
Proof.
  revert index. induction l as [|p l IH]; intros index (q & Hq & Hn); [contradiction|].
  cbn. destruct (odds_present p) eqn:E.
  - destruct (render_row_present h index p E) as (r & -> & _). cbn.
    destruct Hq as [->|Hq]; [congruence|].
    rewrite IH by (exists q; auto). reflexivity.
  - rewrite (render_row_absent h index p E). reflexivity.
Qed.

Lemma odds_decidable (l : list Prop_) :
  (forall p, In p l -> odds_present p = true)
  \/ (exists p, In p l /\ odds_present p = false).
Proof.
  induction l as [|p l [IH|(q & Hq & Hn)]].
  - left. intros p [].
  - destruct (odds_present p) eqn:E.
    + left. intros q [<-|Hq]; [exact E|apply IH, Hq].
    + right. exists p. split; [left; reflexivity|exact E].
  - right. exists q. split; [right; exact Hq|exact Hn].
Qed.

Lemma render_rows_nth (h : Host) (l : list Prop_) (index : nat) (rows : list Row) :
  render_rows h index l = Ok rows ->
  List.length rows = List.length l
  /\ forall i r, nth_error rows i = Some r ->
                 exists p, nth_error l i = Some p
                           /\ render_row h (index + i) p = Ok r.
Proof.
  revert index rows. induction l as [|p l IH]; intros index rows; cbn.
  - intros H. injection H as <-. split; [reflexivity|]. intros [|i] r H; discriminate H.
  - destruct (render_row h index p) as [r0|e] eqn:E0; cbn; [|discriminate].
    destruct (render_rows h (S index) l) as [rs|e] eqn:E1; cbn; [|discriminate].
    intros H. injection H as <-. destruct (IH _ _ E1) as [Hlen Hnth].
    split; [cbn; rewrite Hlen; reflexivity|].
    intros [|i] r Hr; cbn in Hr.
    + injection Hr as <-. exists p. rewrite Nat.add_0_r. auto.
    + destruct (Hnth i r Hr) as (q & Hq & Hrow). exists q. split; [exact Hq|].
      rewrite Nat.add_succ_r. exact Hrow.
Qed.

Lemma render_row_fields (h : Host) (index : nat) (p : Prop_) (r : Row) :
  render_row h index p = Ok r ->
  key r = index
  /\ cell_player_name r = of_string (player_name p)
  /\ cell_prop_type r = of_string (prop_type p)
  /\ cell_line r = of_number (line p)
  /\ cell_prizepicks_odds r = of_number (prizepicks_odds p)
  /\ cell_comparison r
     = OddsComparison h (prizepicks_odds p) (pinnacle_over p) (pinnacle_under p).
Proof.
  unfold render_row, call_toFixed2.
  destruct (pinnacle_over p), (pinnacle_under p), (no_vig_over p), (no_vig_under p);
    cbn; try discriminate.
  intros H. injection H as <-. cbn. repeat split.
Qed.

(** X9. The table has one row per listed record, in the order of the list:
    the row at position [i] has key [i] and shows the name, prop type,
    line and PrizePicks odds of the record at position [i], with the
    comparison chips of that record. *)
Theorem rows_follow_the_list (h : Host) (data : option PropsData) (st : State)
        (out : list Prop_) (rows : list Row) :
  filteredAndSortedData h data st = Ok (Some out) ->
  TableBody_rows h data st = Ok rows ->
  List.length rows = List.length out
  /\ forall i r,
       nth_error rows i = Some r ->
       key r = i
       /\ exists p,
            nth_error out i = Some p
            /\ cell_player_name r = of_string (player_name p)
            /\ cell_prop_type r = of_string (prop_type p)
            /\ cell_line r = of_number (line p)
            /\ cell_prizepicks_odds r = of_number (prizepicks_odds p)
            /\ cell_comparison r
               = OddsComparison h (prizepicks_odds p) (pinnacle_over p) (pinnacle_under p).
Proof.
  intros Hout. unfold TableBody_rows. rewrite Hout. cbn [bind]. intros Hrows.
  destruct (render_rows_nth h out 0 rows Hrows) as [Hlen Hnth].
  split; [exact Hlen|]. intros i r Hr.
  destruct (Hnth i r Hr) as (p & Hp & Hrow). cbn in Hrow.
  destruct (render_row_fields h i p r Hrow) as (Hk & Hfields).
  split; [exact Hk|]. exists p. split; [exact Hp|exact Hfields].
Qed.

Lemma rows_follow_the_list_witness :
  filteredAndSortedData example_host (Some example_data) example_state
  = Ok (Some example_list)
  /\ TableBody_rows example_host (Some example_data) example_state = Ok example_rows
  /\ List.length example_rows = List.length example_list
  /\ forall i r,
       nth_error example_rows i = Some r ->
       key r = i
       /\ exists p,
            nth_error example_list i = Some p
            /\ cell_player_name r = of_string (player_name p)
            /\ cell_prop_type r = of_string (prop_type p)
            /\ cell_line r = of_number (line p)
            /\ cell_prizepicks_odds r = of_number (prizepicks_odds p)
            /\ cell_comparison r
               = OddsComparison example_host (prizepicks_odds p) (pinnacle_over p)
                   (pinnacle_under p).
Proof.
  split; [reflexivity|]. split; [reflexivity|].
  apply (rows_follow_the_list example_host (Some example_data) example_state
           example_list example_rows); reflexivity.
Defined.

(** X10. Rendering the rows throws exactly when some record of the response
    has a [null] player name (the filter throws on it) or a record that
    passes the filter has [null] in one of the four fields formatted by
    [toFixed]; a named record that is filtered out does no harm. *)
Theorem rows_throw_on_null_odds (h : Host) (d : PropsData) (st : State)
        (ps : list Prop_) :
  props d = Some ps ->
  (TableBody_rows h (Some d) st = Throw TypeError
   <-> (exists p, In p ps /\ player_name p = None)
       \/ (exists p, In p ps /\ passes st p = true /\ odds_present p = false))
  /\ ((forall p, In p ps -> player_name p <> None) ->
      (forall p, In p ps -> passes st p = true -> odds_present p = true) ->
      exists rows, TableBody_rows h (Some d) st = Ok rows).
Proof.
  intros Hps. unfold TableBody_rows.
  destruct (names_decidable ps) as [Hnames|Hnull].
  - rewrite (filteredAndSortedData_named h d st ps Hps Hnames). cbn [bind].
    set (out := Array_sort (comparator h st) (filter (passes st) ps)).
    assert (Hin : forall p, In p out <-> In p ps /\ passes st p = true).
    { intros p. rewrite <- filter_In.
      pose proof (Array_sort_perm (comparator h st) (filter (passes st) ps)) as Hperm.
      split; intros H; [apply (Permutation_in _ Hperm H)|].
      apply (Permutation_in _ (Permutation_sym Hperm) H). }
    split; [split|].
    + intros Hthrow. right. destruct (odds_decidable out) as [Hall|(p & Hp & Hn)].
      * destruct (render_rows_present h out 0 Hall) as (rows & Hrows).
        rewrite Hrows in Hthrow. discriminate Hthrow.
      * apply Hin in Hp. exists p. tauto.
    + intros [(p & Hp & Hn)|(p & Hp & Hpass & Hn)].
      * exfalso. apply (Hnames p Hp Hn).
      * apply render_rows_absent. exists p. split; [apply Hin; auto|exact Hn].
    + intros _ Hall. apply render_rows_present.
      intros p Hp. apply Hin in Hp. apply Hall; tauto.
  - assert (Hthrow : filteredAndSortedData h (Some d) st = Throw TypeError).
    { unfold filteredAndSortedData. rewrite Hps.
      rewrite (filterM_unnamed st ps Hnull). reflexivity. }
    rewrite Hthrow. cbn [bind]. split; [split|].
    + intros _. left. exact Hnull.
    + reflexivity.
    + intros Hnames. exfalso. destruct Hnull as (p & Hp & Hn). apply (Hnames p Hp Hn).
Qed.

Lemma rows_throw_on_null_odds_witness :
  (exists ps, props example_data_null_odds = Some ps
              /\ exists p, In p ps /\ passes example_state p = true
                           /\ odds_present p = false)
  /\ TableBody_rows example_host (Some example_data_null_odds) example_state
     = Throw TypeError
  /\ TableBody_rows example_host (Some example_data_null_odds)
       (setSearchTerm "alice" example_state)
     = Ok [ {| key := 0;
               cell_player_name := JStr "Alice";
               cell_prop_type := JStr "Hits";
               cell_line := JNull;
               cell_prizepicks_odds := JNum (inject_Z (-119));
               cell_pinnacle_over := "1.80";
               cell_pinnacle_under := "2.10";
               cell_no_vig_over := "0.54";
               cell_no_vig_under := "0.46";
               cell_comparison :=
                 OddsComparison example_host (Some (inject_Z (-119)))
                   (Some (18 # 10)%Q) (Some (21 # 10)%Q) |} ].
Proof.
  destruct (props example_data_null_odds) as [ps|] eqn:Hps; [|discriminate Hps].
  pose proof (rows_throw_on_null_odds example_host example_data_null_odds example_state
                ps Hps) as [Hiff _].
  injection Hps as <-.
  assert (Hbob : exists p, In p [ example_prop "Alice" None (18 # 10) (21 # 10);
                                   {| player_name := Some "Bob"%string;
                                      prop_type := Some "Hits"%string;
                                      line := Some (15 # 10)%Q;
                                      prizepicks_odds := Some (inject_Z (-119));
                                      pinnacle_over := None;
                                      pinnacle_under := Some (19 # 10)%Q;
                                      no_vig_over := Some (1 # 2)%Q;
                                      no_vig_under := Some (1 # 2)%Q |} ]
                          /\ passes example_state p = true /\ odds_present p = false).
  { eexists. split; [right; left; reflexivity|]. split; reflexivity. }
  split; [eexists; split; [reflexivity|exact Hbob]|].
  split; [apply Hiff; right; exact Hbob|].
  vm_compute. reflexivity.
Defined.

(** ** The comparison chips *)

Lemma Qltb_abs_nonneg (x : Q) : Qltb (Qabs x) 0 = false.
Proof. apply Qltb_false. apply Qabs_nonneg. Qed.

Lemma Qabs_abs (x : Q) : Qabs (Qabs x) = Qabs x.
Proof. destruct x as [[|p|p] d]; reflexivity. Qed.

(** [toFixed] writes the sign and then formats the magnitude. *)
Lemma toFixed_sign (h : Host) (f : nat) (x : number) :
  toFixed h f x
  = ((if Qltb x 0 then "-" else "") ++ toFixed h f (Qabs x))%string.
Proof.
  unfold toFixed at 2. cbv zeta. rewrite Qabs_branch, Qabs_abs, Qltb_abs_nonneg.
  unfold toFixed. cbv zeta. rewrite Qabs_branch. reflexivity.
Qed.

Lemma Qltb_pos_not_neg (x : Q) : Qltb 0 x = true -> Qltb x 0 = false.
Proof. rewrite Qltb_lt, Qltb_false. apply Qlt_le_weak. Qed.

(** X11. In each comparison chip the colour, the icon, the label and the
    tooltip agree: a positive difference gives a green chip with the
    rising icon, the label [+m] and the tooltip [Better by m]; any other
    difference gives a red chip with the falling icon, the label [-m] (or
    [m] at zero) and the tooltip [Worse by m], where [m] is the magnitude
    of the difference formatted by [toFixed(2)]. *)
Theorem chips_are_consistent (h : Host) (prizepicks pinnacleOver pinnacleUnder : option number) :
  chip_reads h "Over" "O" (fsub h (operand prizepicks) (operand pinnacleOver))
             (fst (OddsComparison h prizepicks pinnacleOver pinnacleUnder))
  /\ chip_reads h "Under" "U" (fsub h (operand prizepicks) (operand pinnacleUnder))
                (snd (OddsComparison h prizepicks pinnacleOver pinnacleUnder)).
Proof.
  unfold chip_reads, OddsComparison. cbn [fst snd]. unfold make_chip, Math_abs.
  split.
  - set (diff := fsub h (operand prizepicks) (operand pinnacleOver)).
    cbn [chip_color chip_icon chip_label tooltip_title].
    rewrite (toFixed_sign h 2 diff).
    destruct (Qltb 0 diff) eqn:E.
    + rewrite (Qltb_pos_not_neg diff E). repeat split.
    + repeat split.
  - set (diff := fsub h (operand prizepicks) (operand pinnacleUnder)).
    cbn [chip_color chip_icon chip_label tooltip_title].
    rewrite (toFixed_sign h 2 diff).
    destruct (Qltb 0 diff) eqn:E.
    + rewrite (Qltb_pos_not_neg diff E). repeat split.
    + repeat split.
Qed.

(** X12. On a host whose rounding keeps the sign of the two differences
    that are computed, a chip is green exactly when the PrizePicks number
    is above the Pinnacle number it is compared with, a [null] counting
    as 0; so with negative PrizePicks odds and Pinnacle odds that are not
    negative both chips are red. *)
Theorem chip_is_green_iff_above (h : Host) (prizepicks pinnacleOver pinnacleUnder : option number) :
  Qltb 0 (round64 h (operand prizepicks - operand pinnacleOver))
  = Qltb 0 (operand prizepicks - operand pinnacleOver) ->
  Qltb 0 (round64 h (operand prizepicks - operand pinnacleUnder))
  = Qltb 0 (operand prizepicks - operand pinnacleUnder) ->
  (chip_color (fst (OddsComparison h prizepicks pinnacleOver pinnacleUnder)) = success
   <-> (operand pinnacleOver < operand prizepicks)%Q)
  /\ (chip_color (snd (OddsComparison h prizepicks pinnacleOver pinnacleUnder)) = success
      <-> (operand pinnacleUnder < operand prizepicks)%Q)
  /\ ((operand prizepicks < 0)%Q ->
      (0 <= operand pinnacleOver)%Q -> (0 <= operand pinnacleUnder)%Q ->
      chip_color (fst (OddsComparison h prizepicks pinnacleOver pinnacleUnder)) = error
      /\ chip_color (snd (OddsComparison h prizepicks pinnacleOver pinnacleUnder)) = error).
Proof.
  intros Hover Hunder.
  assert (Hchip : forall x y : Q,
             Qltb 0 (round64 h (x - y)) = Qltb 0 (x - y) ->
             (if Qltb 0 (fsub h x y) then success else error) = success <-> (y < x)%Q).
  { intros x y Hround. unfold fsub. rewrite Hround.
    destruct (Qltb 0 (x - y)) eqn:E.
    - apply Qltb_lt in E. split; [intros _; lra|reflexivity].
    - apply Qltb_false in E. split; [discriminate|]. intros H. lra. }
  unfold OddsComparison, make_chip. cbn [fst snd chip_color].
  split; [apply Hchip, Hover|]. split; [apply Hchip, Hunder|].
  intros Hneg Ho Hu. split.
  - destruct (Qltb 0 (fsub h (operand prizepicks) (operand pinnacleOver))) eqn:E;
      [|reflexivity].
    assert (H : (operand pinnacleOver < operand prizepicks)%Q)
      by (apply (Hchip _ _ Hover); rewrite E; reflexivity).
    lra.
  - destruct (Qltb 0 (fsub h (operand prizepicks) (operand pinnacleUnder))) eqn:E;
      [|reflexivity].
    assert (H : (operand pinnacleUnder < operand prizepicks)%Q)
      by (apply (Hchip _ _ Hunder); rewrite E; reflexivity).
    lra.
Qed.

(** The rounding of binary64 keeps the sign of the difference of two
    binary64 values, however close they are. *)
Lemma binary64_host_keeps_the_signs (x y : number) :
  IEEE754.is_binary64 x = true -> IEEE754.is_binary64 y = true ->
  Qltb 0 (round64 binary64_host (x - y)) = Qltb 0 (x - y).
Proof. apply Rounding.rnd_keeps_the_sign_of_a_difference. Qed.

(** The witness: the American odds -119 against the binary64 values nearest
    to 1.9 and 2.5, and a difference of one unit in the last place. *)
Lemma chip_is_green_iff_above_witness :
  (chip_color (fst (OddsComparison binary64_host (Some (inject_Z (-119)))
                      (Some (IEEE754.rnd (19 # 10))) (Some (IEEE754.rnd (25 # 10)))))
   = success
   <-> (IEEE754.rnd (19 # 10) < inject_Z (-119))%Q)
  /\ (chip_color (snd (OddsComparison binary64_host
                         (Some (1 + IEEE754.pow2 (-52))%Q) None (Some 1%Q)))
      = success
      <-> (1 < 1 + IEEE754.pow2 (-52))%Q).
Proof.
  split.
  - apply (chip_is_green_iff_above binary64_host (Some (inject_Z (-119)))
             (Some (IEEE754.rnd (19 # 10))) (Some (IEEE754.rnd (25 # 10))));
      apply binary64_host_keeps_the_signs; vm_compute; reflexivity.
  - apply (chip_is_green_iff_above binary64_host (Some (1 + IEEE754.pow2 (-52))%Q)
             None (Some 1%Q));
      apply binary64_host_keeps_the_signs; vm_compute; reflexivity.
Defined.

(** ** [uniquePropTypes] *)

Lemma SameValueZero_of_string (a b : option string) :
  SameValueZero (of_string a) (of_string b) = true <-> of_string a = of_string b.
Proof.
  destruct a as [s|], b as [t|]; cbn; split; intros H; try discriminate H;
    try reflexivity.
  - apply String.eqb_eq in H. rewrite H. reflexivity.
  - injection H as ->. apply String.eqb_refl.
Qed.

Lemma existsb_SameValueZero (v : JsValue) (members : list JsValue) :
  string_or_null v -> Forall string_or_null members ->
  (existsb (SameValueZero v) members = true <-> In v members).
Proof.
  intros (a & ->) Hm. rewrite existsb_exists. split.
  - intros (w & Hw & He). rewrite Forall_forall in Hm.
    destruct (Hm w Hw) as (b & ->). apply SameValueZero_of_string in He.
    rewrite He. exact Hw.
  - intros Hin. exists (of_string a). split; [exact Hin|].
    apply SameValueZero_of_string. reflexivity.
Qed.

Lemma Set_members (values members : list JsValue) :
  Forall string_or_null values -> Forall string_or_null members -> NoDup members ->
  let result :=
    fold_left
      (fun members v => if existsb (SameValueZero v) members then members else members ++ [v])
      values members in
  NoDup result /\ (forall v, In v result <-> In v members \/ In v values).
Proof.
  cbv zeta. revert members. induction values as [|v values IH]; intros members Hv Hm Hnd; cbn.
  - split; [exact Hnd|]. intros w. tauto.
  - apply Forall_cons_iff in Hv. destruct Hv as [Hv0 Hv].
    pose proof (existsb_SameValueZero v members Hv0 Hm) as Hex.
    destruct (existsb (SameValueZero v) members) eqn:E.
    + destruct (IH members Hv Hm Hnd) as [H1 H2]. split; [exact H1|].
      intros w. rewrite H2. assert (Hin : In v members) by (apply Hex; reflexivity).
      split; [tauto|]. intros [H|[<-|H]]; auto.
    + assert (Hnotin : ~ In v members).
      { intros Hin. apply Hex in Hin. discriminate Hin. }
      destruct (IH (members ++ [v])) as [H1 H2].
      * exact Hv.
      * apply Forall_app. split; [exact Hm|]. constructor; [exact Hv0|constructor].
      * apply NoDup_app; [exact Hnd|repeat constructor; intros []|].
        intros w Hw [<-|[]]. contradiction.
      * split; [exact H1|]. intros w. rewrite H2, in_app_iff. cbn. tauto.
Qed.

(** X13. [uniquePropTypes] lists each prop type of the response once: it
    has no repetition, and a value is in it exactly when it is the prop
    type of a record of the response; without data it is empty. *)
Theorem uniquePropTypes_are_the_distinct_types (data : option PropsData) :
  NoDup (uniquePropTypes data)
  /\ (forall v, In v (uniquePropTypes data)
                <-> exists d ps p, data = Some d /\ props d = Some ps
                                   /\ In p ps /\ v = of_string (prop_type p))
  /\ (data = None -> uniquePropTypes data = []).
Proof.
  unfold uniquePropTypes, Array_from_Set.
  set (values := match data with
                 | Some d => match props d with
                             | Some ps => map (fun prop => of_string (prop_type prop)) ps
                             | None => []
                             end
                 | None => []
                 end).
  assert (Hvalues : Forall string_or_null values).
  { unfold values. destruct data as [d|]; [|constructor].
    destruct (props d) as [ps|]; [|constructor].
    apply Forall_forall. intros v Hv. apply in_map_iff in Hv.
    destruct Hv as (p & <- & _). exists (prop_type p). reflexivity. }
  destruct (Set_members values [] Hvalues (Forall_nil _) (NoDup_nil _)) as [Hnd Hin].
  split; [exact Hnd|]. split.
  - intros v. rewrite Hin. unfold values. split.
    + intros [[]|Hv]. destruct data as [d|]; [|contradiction].
      destruct (props d) as [ps|] eqn:Hps; [|contradiction].
      apply in_map_iff in Hv. destruct Hv as (p & <- & Hp).
      exists d, ps, p. auto.
    + intros (d & ps & p & -> & Hps & Hp & ->). right. rewrite Hps.
      apply (in_map (fun prop => of_string (prop_type prop)) ps p Hp).
  - intros ->. reflexivity.
Qed.

(** ** The table head *)

Lemma TableHead_icons (st : State) :
  filter has_icon (TableHead_cells st)
  = [ {| header_text := match sortField st with
                        | player_name_f => "Player "
                        | prop_type_f => "Prop Type "
                        | line_f => "Line "
                        | prizepicks_odds_f => "PrizePicks "
                        | pinnacle_over_f => "Pinnacle Over "
                        | pinnacle_under_f => "Pinnacle Under "
                        | no_vig_over_f => "No-Vig Over "
                        | no_vig_under_f => "No-Vig Under "
                        end;
         header_align := match sortField st with
                         | player_name_f | prop_type_f => align_default
                         | _ => align_right
                         end;
         header_onClick := Some (sortField st);
         header_icon := Some (match sortDirection st with
                              | asc => ArrowUpwardIcon
                              | desc => ArrowDownwardIcon
                              end) |} ].
Proof.
  unfold TableHead_cells, sortable_header. destruct (sortField st); reflexivity.
Qed.

(** X14. Exactly one head cell carries an arrow: the cell of the active sort
    field, pointing up when ascending and down when descending.  After a
    click on a sortable head cell the arrow is on that cell; it points up
    unless the cell was already active and ascending.  A click on the
    Comparison cell changes nothing. *)
Theorem one_arrow_on_the_active_column (st : State) :
  (exists cell,
      filter has_icon (TableHead_cells st) = [cell]
      /\ header_onClick cell = Some (sortField st)
      /\ header_icon cell
         = Some (match sortDirection st with
                 | asc => ArrowUpwardIcon
                 | desc => ArrowDownwardIcon
                 end))
  /\ (forall clicked field,
        In clicked (TableHead_cells st) ->
        header_onClick clicked = Some field ->
        exists cell,
          filter has_icon (TableHead_cells (click_header clicked st)) = [cell]
          /\ header_onClick cell = Some field
          /\ header_text cell = header_text clicked
          /\ header_icon cell
             = Some (if SortField_eqb field (sortField st)
                     then match sortDirection st with
                          | asc => ArrowDownwardIcon
                          | desc => ArrowUpwardIcon
                          end
                     else ArrowUpwardIcon))
  /\ (forall clicked,
        In clicked (TableHead_cells st) ->
        header_onClick clicked = None ->
        header_text clicked = "Comparison"%string /\ click_header clicked st = st).
Proof.
  split; [|split].
  - eexists. split; [apply TableHead_icons|]. split; reflexivity.
  - intros clicked field Hin Hclick.
    eexists. split; [apply TableHead_icons|].
    unfold click_header. rewrite Hclick.
    assert (Hactive : sortField (handleSort field st) = field
                      /\ sortDirection (handleSort field st)
                         = if SortField_eqb field (sortField st)
                           then match sortDirection st with asc => desc | desc => asc end
                           else asc).
    { unfold handleSort. destruct (SortField_eqb field (sortField st)) eqn:E; cbn.
      - apply SortField_eqb_eq in E. auto.
      - auto. }
    destruct Hactive as [Hf Hd]. cbn [header_onClick header_text header_icon].
    rewrite Hf, Hd. split; [reflexivity|]. split.
    + unfold TableHead_cells, sortable_header in Hin. cbn in Hin.
      repeat (destruct Hin as [<-|Hin];
              [cbn in Hclick; try discriminate Hclick; injection Hclick as <-; reflexivity|]).
      contradiction.
    + destruct (SortField_eqb field (sortField st)); [|reflexivity].
      destruct (sortDirection st); reflexivity.
  - intros clicked Hin Hclick. unfold click_header. rewrite Hclick.
    split; [|reflexivity].
    unfold TableHead_cells, sortable_header in Hin. cbn in Hin.
    repeat (destruct Hin as [<-|Hin]; [cbn in Hclick; try discriminate Hclick; reflexivity|]).
    contradiction.
Qed.

(** ** The component *)

(** X15. What [PropsTable] does with a response.  A record with a [null]
    name makes it throw in every case, also while loading or after an
    error, since the list is filtered before the early returns.  With
    names throughout it shows the skeleton while loading and otherwise
    the alert after an error, whatever the records hold; only when it
    shows the table does a listed record with a [null] odds field make it
    throw, and else the table has the rows of the list. *)
Theorem PropsTable_outcomes (h : Host) (q : Query) (st : State) (d : PropsData)
        (ps : list Prop_) :
  query_data q = Some d ->
  props d = Some ps ->
  ((exists p, In p ps /\ player_name p = None) -> PropsTable h q st = Throw TypeError)
  /\ ((forall p, In p ps -> player_name p <> None) ->
      (isLoading q = true -> PropsTable h q st = Ok LoadingSkeleton_view)
      /\ (isLoading q = false -> query_error q = true ->
          PropsTable h q st = Ok ErrorAlert_view)
      /\ (isLoading q = false -> query_error q = false ->
          (PropsTable h q st = Throw TypeError
           <-> exists p, In p ps /\ passes st p = true /\ odds_present p = false)
          /\ (forall rows,
                TableBody_rows h (Some d) st = Ok rows ->
                PropsTable h q st
                = Ok (Table_view (last_updated_text st) (TableHead_cells st) rows)))).
Proof.
  intros Hd Hps. unfold PropsTable. rewrite Hd. split.
  - intros Hnull. unfold filteredAndSortedData. rewrite Hps.
    rewrite (filterM_unnamed st ps Hnull). reflexivity.
  - intros Hnames. rewrite (filteredAndSortedData_named h d st ps Hps Hnames). cbn [bind].
    split; [intros ->; reflexivity|]. split; [intros -> ->; reflexivity|].
    intros -> ->.
    set (out := Array_sort (comparator h st) (filter (passes st) ps)).
    assert (Hin : forall p, In p out <-> In p ps /\ passes st p = true).
    { intros p. rewrite <- filter_In.
      pose proof (Array_sort_perm (comparator h st) (filter (passes st) ps)) as Hperm.
      split; intros H; [apply (Permutation_in _ Hperm H)|].
      apply (Permutation_in _ (Permutation_sym Hperm) H). }
    split.
    + destruct (odds_decidable out) as [Hall|(p & Hp & Hn)].
      * destruct (render_rows_present h out 0 Hall) as (rows & Hrows).
        rewrite Hrows. cbn [bind]. split; [discriminate|].
        intros (p & Hp & Hpass & Hn).
        assert (Hp' : In p out) by (apply Hin; auto).
        rewrite (Hall p Hp') in Hn. discriminate Hn.
      * rewrite (render_rows_absent h out 0) by (exists p; auto). cbn [bind].
        split; [|reflexivity]. intros _. apply Hin in Hp. exists p. tauto.
    + intros rows. unfold TableBody_rows.
      rewrite (filteredAndSortedData_named h d st ps Hps Hnames). cbn [bind].
      fold out. intros ->. reflexivity.
Qed.

Lemma PropsTable_outcomes_witness :
  query_data example_query = Some example_data
  /\ props example_data = Some example_props
  /\ PropsTable example_host example_query example_state
     = Ok (Table_view (last_updated_text example_state) (TableHead_cells example_state)
             example_rows).
Proof.
  split; [reflexivity|]. split; [reflexivity|].
  destruct (PropsTable_outcomes example_host example_query example_state example_data
              example_props eq_refl eq_refl) as [_ Hnamed].
  destruct (Hnamed example_props_named) as (_ & _ & Htable).
  destruct (Htable eq_refl eq_refl) as [_ Hrows].
  apply Hrows. reflexivity.
Defined.

(** Without data (the first load, or a failed first fetch) the
    component never throws: it shows the skeleton while loading, else the
    alert after an error, else the table head with no rows. *)
Lemma PropsTable_without_data (h : Host) (q : Query) (st : State) :
  query_data q = None ->
  PropsTable h q st
  = Ok (if isLoading q then LoadingSkeleton_view
        else if query_error q then ErrorAlert_view
        else Table_view (last_updated_text st) (TableHead_cells st) []).
Proof.
  intros Hd. unfold PropsTable. rewrite Hd. cbn.
  destruct (isLoading q); [reflexivity|]. destruct (query_error q); reflexivity.
Qed.

(** A fetch touches nothing but the displayed time: the search term,
    the selected prop type and the sort are kept, so the rows of a
    response are the same before and after; and a response whose
    last_updated is falsy leaves the text of the last update as it was. *)
Lemma fetch_keeps_the_view_settings (h : Host) (fetched : PropsData) (st : State) :
  searchTerm (queryFn h fetched st) = searchTerm st
  /\ selectedPropType (queryFn h fetched st) = selectedPropType st
  /\ sortField (queryFn h fetched st) = sortField st
  /\ sortDirection (queryFn h fetched st) = sortDirection st
  /\ (forall data, TableBody_rows h data (queryFn h fetched st) = TableBody_rows h data st)
  /\ TableHead_cells (queryFn h fetched st) = TableHead_cells st
  /\ (ToBoolean (last_updated fetched) = false ->
      last_updated_text (queryFn h fetched st) = last_updated_text st).
Proof.
  unfold queryFn.
  destruct (queryFn_setLastUpdated h fetched) as [shown|] eqn:E.
  - repeat split.
    unfold queryFn_setLastUpdated in E. intros Hfalsy. rewrite Hfalsy in E. discriminate E.
  - repeat split.
Qed.

End Coverage.

(* ================================================================== *)
(** * Properties of the matcher *)
(* ================================================================== *)

Module Matching.
Import PropMatcher.

Lemma key_eqb_refl (k : MatchKey) : key_eqb k k = true.
Proof.
  destruct k as [[n t] l]. cbn.
  rewrite !String.eqb_refl. cbn. apply Qeq_bool_iff. reflexivity.
Qed.

Lemma key_eqb_sym (k1 k2 : MatchKey) : key_eqb k1 k2 = key_eqb k2 k1.
Proof.
  destruct k1 as [[n1 t1] l1], k2 as [[n2 t2] l2]. cbn.
  rewrite (String.eqb_sym n1 n2), (String.eqb_sym t1 t2).
  f_equal. apply eq_true_iff_eq. rewrite !Qeq_bool_iff.
  split; intros H; symmetry; exact H.
Qed.

Lemma key_eqb_trans (k1 k2 k3 : MatchKey) :
  key_eqb k1 k2 = true -> key_eqb k2 k3 = true -> key_eqb k1 k3 = true.
Proof.
  destruct k1 as [[n1 t1] l1], k2 as [[n2 t2] l2], k3 as [[n3 t3] l3]. cbn.
  rewrite !andb_true_iff, !String.eqb_eq, !Qeq_bool_iff.
  intros [[-> ->] H12] [[-> ->] H23].
  repeat split. rewrite H12. exact H23.
Qed.

(** Equivalent keys select the same records. *)
Lemma key_eqb_compat (k1 k2 k : MatchKey) :
  key_eqb k1 k2 = true -> key_eqb k k1 = key_eqb k k2.
Proof.
  intros H. destruct (key_eqb k k2) eqn:E.
  - apply (key_eqb_trans k k2 k1 E). rewrite key_eqb_sym. exact H.
  - destruct (key_eqb k k1) eqn:E1; [|reflexivity].
    rewrite <- E. symmetry. apply (key_eqb_trans k k1 k2 E1 H).
Qed.

Section MatcherFacts.
Variable normalize : string -> string.
Local Abbreviation key_of := (key_of normalize).
Local Abbreviation reference_group := (reference_group normalize).
Local Abbreviation retail_index := (retail_index normalize).
Local Abbreviation match_ := (match_ normalize).
Local Abbreviation emit := (emit normalize).
Local Abbreviation triples_of_key := (triples_of_key normalize).

Lemma reference_group_compat (reference_props : list RawProp) (k1 k2 : MatchKey) :
  key_eqb k1 k2 = true ->
  reference_group reference_props k1 = reference_group reference_props k2.
Proof.
  intros H. unfold PropMatcher.reference_group.
  apply filter_ext. intros r. apply key_eqb_compat, H.
Qed.

(** What a kept group is. *)
Lemma complete_group_spec (g : list RawProp) :
  match complete_group g with
  | Some (o, u) =>
      one_over_one_under g = true /\ side o = over /\ side u = under
      /\ (g = [o; u] \/ g = [u; o])
  | None => one_over_one_under g = false
  end.
Proof.
  unfold one_over_one_under, count_side.
  destruct g as [|a [|b [|c g]]]; try reflexivity.
  - cbn. destruct (side a); reflexivity.
  - cbn. destruct (side a) eqn:Ea, (side b) eqn:Eb; cbn; auto 10.
  - cbn [complete_group]. cbn [List.length]. rewrite andb_false_r. reflexivity.
Qed.


(** ** The retail index *)


Lemma index_put_entries (k : MatchKey) (r : RawProp) (idx : list (MatchKey * RawProp)) :
  forall e, In e (index_put k r idx) ->
            In e idx \/ (snd e = r /\ key_eqb (fst e) k = true).
Proof.
  induction idx as [|[k' r'] idx IH]; cbn; intros e He.
  - destruct He as [<-|[]]. right. cbn. split; [reflexivity|apply key_eqb_refl].
  - destruct (key_eqb k' k) eqn:E.
    + destruct He as [<-|He]; [right; cbn; auto|left; right; exact He].
    + destruct He as [<-|He]; [left; left; reflexivity|].
      destruct (IH e He) as [H|H]; [left; right; exact H|right; exact H].
Qed.

Lemma index_put_has (k : MatchKey) (r : RawProp) (idx : list (MatchKey * RawProp)) :
  exists e, In e (index_put k r idx) /\ snd e = r /\ key_eqb (fst e) k = true.
Proof.
  induction idx as [|[k' r'] idx IH]; cbn.
  - exists (k, r). cbn. split; [left; reflexivity|]. split; [reflexivity|apply key_eqb_refl].
  - destruct (key_eqb k' k) eqn:E.
    + exists (k', r). cbn. auto.
    + destruct IH as (e & He & H). exists e. split; [right; exact He|exact H].
Qed.

Lemma index_put_keeps_keys (k : MatchKey) (r : RawProp) (idx : list (MatchKey * RawProp)) :
  forall e, In e idx -> In (fst e) (map fst (index_put k r idx)).
Proof.
  induction idx as [|[k' r'] idx IH]; cbn; intros e He; [contradiction|].
  destruct (key_eqb k' k); cbn.
  - destruct He as [<-|He]; [left; reflexivity|right; apply in_map, He].
  - destruct He as [<-|He]; [left; reflexivity|right; apply IH, He].
Qed.

Lemma index_put_distinct (k : MatchKey) (r : RawProp) (idx : list (MatchKey * RawProp)) :
  distinct_keys (map fst idx) -> distinct_keys (map fst (index_put k r idx)).
Proof.
  induction idx as [|[k' r'] idx IH]; cbn.
  - intros _. split; [intros k0 []|exact I].
  - intros [Hk' Hd]. destruct (key_eqb k' k) eqn:E; cbn.
    + split; assumption.
    + split; [|apply IH, Hd].
      intros k0 Hk0. apply in_map_iff in Hk0. destruct Hk0 as (e & <- & He).
      destruct (index_put_entries k r idx e He) as [Hin|[_ Hek]].
      * apply Hk'. apply in_map, Hin.
      * destruct (key_eqb k' (fst e)) eqn:E'; [|reflexivity].
        rewrite <- E. symmetry. apply (key_eqb_trans _ _ _ E' Hek).
Qed.

Local Abbreviation index_ok := (index_ok normalize).

Lemma index_put_ok (seen : list RawProp) (r : RawProp) (idx : list (MatchKey * RawProp)) :
  index_ok seen idx -> index_ok (seen ++ [r]) (index_put (key_of r) r idx).
Proof.
  intros (H1 & H2 & H3). split; [|split].
  - intros e He. destruct (index_put_entries _ _ _ e He) as [Hin|[Hs Hk]].
    + destruct (H1 e Hin) as [Ha Hb]. split; [apply in_or_app; left; exact Ha|exact Hb].
    + rewrite Hs. split; [apply in_or_app; right; left; reflexivity|exact Hk].
  - intros r' Hr'. apply in_app_or in Hr'. destruct Hr' as [Hr'|[<-|[]]].
    + destruct (H2 r' Hr') as (k & Hk & Hkr). apply in_map_iff in Hk.
      destruct Hk as (e & <- & He).
      exists (fst e). split; [apply index_put_keeps_keys, He|exact Hkr].
    + destruct (index_put_has (key_of r) r idx) as (e & He & _ & Hk).
      exists (fst e). split; [apply in_map, He|exact Hk].
  - apply index_put_distinct, H3.
Qed.

Lemma fold_index_ok (l seen : list RawProp) (idx : list (MatchKey * RawProp)) :
  index_ok seen idx ->
  index_ok (seen ++ l) (fold_left (fun idx r => index_put (key_of r) r idx) l idx).
Proof.
  revert seen idx. induction l as [|r l IH]; intros seen idx H; cbn.
  - rewrite app_nil_r. exact H.
  - replace (seen ++ r :: l) with ((seen ++ [r]) ++ l) by (rewrite <- app_assoc; reflexivity).
    apply IH, index_put_ok, H.
Qed.

Lemma retail_index_ok (retail_props : list RawProp) :
  index_ok retail_props (retail_index retail_props).
Proof.
  apply (fold_index_ok retail_props [] []).
  split; [intros e []|]. split; [intros r []|exact I].
Qed.

(** ** Counting the emitted triples *)

Lemma triples_of_key_app (k : MatchKey) (out1 out2 : list (RawProp * RawProp * RawProp)) :
  triples_of_key k (out1 ++ out2) = (triples_of_key k out1 + triples_of_key k out2)%nat.
Proof. unfold PropMatcher.triples_of_key. rewrite filter_app, length_app. reflexivity. Qed.

Lemma key_eqb_compat_l (k1 k2 k : MatchKey) :
  key_eqb k1 k2 = true -> key_eqb k1 k = key_eqb k2 k.
Proof.
  intros H. rewrite (key_eqb_sym k1 k), (key_eqb_sym k2 k). apply key_eqb_compat, H.
Qed.

Lemma triples_of_entry (reference_props : list RawProp) (k : MatchKey)
      (e : MatchKey * RawProp) :
  key_eqb (fst e) (key_of (snd e)) = true ->
  triples_of_key k (emit reference_props e)
  = if key_eqb (fst e) k && one_over_one_under (reference_group reference_props (fst e))
    then 1%nat else 0%nat.
Proof.
  intros He. unfold PropMatcher.emit, PropMatcher.triples_of_key.
  pose proof (complete_group_spec (reference_group reference_props (fst e))) as Hg.
  destruct (complete_group (reference_group reference_props (fst e))) as [[o u]|].
  - destruct Hg as (-> & _). cbn [filter fst snd].
    rewrite <- (key_eqb_compat_l _ _ k He), andb_true_r.
    destruct (key_eqb (fst e) k); reflexivity.
  - rewrite Hg, andb_false_r. reflexivity.
Qed.

Lemma triples_of_other_keys (reference_props : list RawProp) (k : MatchKey)
      (idx : list (MatchKey * RawProp)) :
  (forall e, In e idx -> key_eqb (fst e) (key_of (snd e)) = true) ->
  (forall e, In e idx -> key_eqb (fst e) k = false) ->
  triples_of_key k (flat_map (emit reference_props) idx) = 0%nat.
Proof.
  induction idx as [|e idx IH]; intros Hk Hne; cbn [flat_map].
  - reflexivity.
  - rewrite triples_of_key_app, (triples_of_entry _ _ _ (Hk e (or_introl eq_refl))).
    rewrite (Hne e (or_introl eq_refl)). cbn [andb plus].
    apply IH; intros e' He'; [apply Hk|apply Hne]; right; exact He'.
Qed.

Lemma triples_of_indexed_key (reference_props : list RawProp) (k : MatchKey)
      (idx : list (MatchKey * RawProp)) :
  (forall e, In e idx -> key_eqb (fst e) (key_of (snd e)) = true) ->
  distinct_keys (map fst idx) ->
  (exists k0, In k0 (map fst idx) /\ key_eqb k0 k = true) ->
  triples_of_key k (flat_map (emit reference_props) idx)
  = if one_over_one_under (reference_group reference_props k) then 1%nat else 0%nat.
Proof.
  induction idx as [|e idx IH]; intros Hk Hd (k0 & Hin & Hk0);
    cbn [flat_map map distinct_keys In] in *.
  - contradiction.
  - destruct Hd as [Hfresh Hd].
    rewrite triples_of_key_app, (triples_of_entry _ _ _ (Hk e (or_introl eq_refl))).
    destruct (key_eqb (fst e) k) eqn:E.
    + rewrite (reference_group_compat reference_props _ _ E). cbn [andb].
      rewrite triples_of_other_keys.
      * destruct (one_over_one_under _); reflexivity.
      * intros e' He'. apply Hk. right. exact He'.
      * intros e' He'. destruct (key_eqb (fst e') k) eqn:E'; [|reflexivity].
        rewrite <- (Hfresh (fst e') (in_map fst _ _ He')). symmetry.
        apply (key_eqb_trans _ _ _ E). rewrite key_eqb_sym. exact E'.
    + cbn [andb plus]. destruct Hin as [<-|Hin]; [congruence|].
      apply IH.
      * intros e' He'. apply Hk. right. exact He'.
      * exact Hd.
      * exists k0. auto.
Qed.

Lemma emitted_triple (reference_props : list RawProp) (e : MatchKey * RawProp)
      (r o u : RawProp) :
  In (r, o, u) (emit reference_props e) ->
  r = snd e
  /\ In o reference_props /\ In u reference_props
  /\ side o = over /\ side u = under
  /\ key_eqb (key_of o) (fst e) = true /\ key_eqb (key_of u) (fst e) = true
  /\ one_over_one_under (reference_group reference_props (fst e)) = true.
Proof.
  unfold PropMatcher.emit.
  pose proof (complete_group_spec (reference_group reference_props (fst e))) as Hg.
  destruct (complete_group (reference_group reference_props (fst e))) as [[o' u']|];
    [|intros []].
  intros [H|[]]. injection H as <- <- <-.
  destruct Hg as (Hc & Ho & Hu & Hshape).
  assert (Hin : In o' (reference_group reference_props (fst e))
                /\ In u' (reference_group reference_props (fst e))).
  { destruct Hshape as [->| ->]; cbn; auto. }
  destruct Hin as [Hino Hinu].
  apply filter_In in Hino. apply filter_In in Hinu.
  destruct Hino as [Hino Hko], Hinu as [Hinu Hku].
  repeat split; assumption.
Qed.

Lemma alice_example :
  match_ [alice_retail] [alice_over; alice_under]
    = [(alice_retail, alice_over, alice_under)]
  /\ match_ [alice_retail] [alice_over] = [].
Proof.
  assert (Ho : key_of alice_over = key_of alice_retail) by reflexivity.
  assert (Hu : key_of alice_under = key_of alice_retail) by reflexivity.
  unfold PropMatcher.match_, PropMatcher.retail_index, PropMatcher.emit,
    PropMatcher.reference_group.
  cbn [fold_left index_put flat_map fst snd filter app].
  rewrite Ho, Hu, key_eqb_refl. split; reflexivity.
Qed.

(** C7. [match] is an inner join on the key.  For every retail record, the
    number of emitted triples with its key is one when the reference
    records of that key are exactly one over and one under entry, and
    zero otherwise, in particular when a side is missing; the function is
    total, so a dropped record is no error.  Every emitted triple joins a
    retail record with the over and the under record of its key.  On the
    design's example the result is the single triple, and it is empty
    once the under side is removed. *)
Theorem match_is_inner_join (retail_props reference_props : list RawProp) :
  (forall r, In r retail_props ->
     triples_of_key (key_of r) (match_ retail_props reference_props)
     = if one_over_one_under (reference_group reference_props (key_of r))
       then 1%nat else 0%nat)
  /\ (forall r, In r retail_props ->
       count_side over (reference_group reference_props (key_of r)) = 0%nat
       \/ count_side under (reference_group reference_props (key_of r)) = 0%nat ->
       triples_of_key (key_of r) (match_ retail_props reference_props) = 0%nat)
  /\ (forall r o u, In (r, o, u) (match_ retail_props reference_props) ->
       In r retail_props /\ In o reference_props /\ In u reference_props
       /\ side o = over /\ side u = under
       /\ key_eqb (key_of o) (key_of r) = true
       /\ key_eqb (key_of u) (key_of r) = true
       /\ one_over_one_under (reference_group reference_props (key_of r)) = true)
  /\ match_ [alice_retail] [alice_over; alice_under]
       = [(alice_retail, alice_over, alice_under)]
  /\ match_ [alice_retail] [alice_over] = [].
Proof.
  destruct (retail_index_ok retail_props) as (Hentries & Hcover & Hdistinct).
  assert (Hcount : forall r, In r retail_props ->
             triples_of_key (key_of r) (match_ retail_props reference_props)
             = if one_over_one_under (reference_group reference_props (key_of r))
               then 1%nat else 0%nat).
  { intros r Hr. unfold PropMatcher.match_.
    apply triples_of_indexed_key.
    - intros e He. apply (Hentries e He).
    - exact Hdistinct.
    - apply Hcover, Hr. }
  split; [exact Hcount|]. split; [|split; [|exact alice_example]].
  - intros r Hr Hmissing. rewrite (Hcount r Hr).
    unfold one_over_one_under.
    destruct Hmissing as [-> | ->]; cbn; [reflexivity|].
    rewrite andb_false_r. reflexivity.
  - intros r o u Hin. unfold PropMatcher.match_ in Hin.
    apply in_flat_map in Hin. destruct Hin as (e & He & Hin).
    destruct (emitted_triple _ _ _ _ _ Hin) as (-> & Hio & Hiu & Hso & Hsu & Hko & Hku & Hc).
    destruct (Hentries e He) as [Hr Hk].
    rewrite <- (reference_group_compat reference_props _ _ Hk).
    repeat split; try assumption.
    + apply (key_eqb_trans _ _ _ Hko Hk).
    + apply (key_eqb_trans _ _ _ Hku Hk).
Qed.

End MatcherFacts.

(** With the example normal form, a retail record written in another case
    and with blanks still joins its reference pair, and a reference pair
    on another line does not. *)
Lemma match_examples :
  match_ casefold
    [ {| player_name := "ALICE "; prop_type := "hits"; line := 15 # 10;
         side := single; odds := inject_Z (-119); source := retail |} ]
    [ alice_over; alice_under ]
  = [ ({| player_name := "ALICE "; prop_type := "hits"; line := 15 # 10;
          side := single; odds := inject_Z (-119); source := retail |},
       alice_over, alice_under) ]
  /\ match_ casefold [ alice_retail ]
       [ {| player_name := "Alice"; prop_type := "Hits"; line := 25 # 10;
            side := over; odds := 18 # 10; source := reference |};
         {| player_name := "Alice"; prop_type := "Hits"; line := 25 # 10;
            side := under; odds := 21 # 10; source := reference |} ]
     = []
  /\ match_ casefold [ alice_retail; alice_retail ] [ alice_under; alice_over ]
     = [ (alice_retail, alice_over, alice_under) ]
  /\ match_ casefold [ alice_retail ] [ alice_over; alice_under; alice_under ] = [].
Proof. repeat split. Qed.

End Matching.

(* ================================================================== *)
(** * Properties of the odds converter *)
(* ================================================================== *)

Module Converting.
Import OddsConverter IEEE754 Rounding.
Local Open Scope Q_scope.

Lemma Qinv_pos (x : Q) : 0 < x -> 0 < / x.
Proof. intros H. apply Qinv_lt_0_compat, H. Qed.

(** The share [a / (a + b)] of a positive part in a positive total. *)
Lemma share_bounds (a b : Q) : 0 < a -> 0 < b -> 0 < a / (a + b) /\ a / (a + b) < 1.
Proof.
  intros Ha Hb. assert (Hs : 0 < a + b) by lra. split.
  - apply Qlt_shift_div_l; [exact Hs|]. lra.
  - apply Qlt_shift_div_r; [exact Hs|]. lra.
Qed.

Lemma shares_sum (a b : Q) : 0 < a + b -> a / (a + b) + b / (a + b) == 1.
Proof. intros Hs. field. lra. Qed.

(** In exact arithmetic: for decimal odds [o > 1] and [u > 1] the
    function returns the normalised implied probabilities
    [(1/o) / (1/o + 1/u)] and [(1/u) / (1/o + 1/u)]; they add up to 1
    (so also within 1e-9 of it) and both lie strictly between 0 and 1. *)
Lemma no_vig_probabilities_exact (o u : Q) :
  1 < o -> 1 < u ->
  exists p_over p_under : Q,
    no_vig_probabilities exact o u = inr (p_over, p_under)
    /\ p_over == (1 / o) / (1 / o + 1 / u)
    /\ p_under == (1 / u) / (1 / o + 1 / u)
    /\ p_over + p_under == 1
    /\ Qabs (p_over + p_under - 1) <= 1 # 1000000000
    /\ (0 < p_over /\ p_over < 1)
    /\ (0 < p_under /\ p_under < 1).
Proof.
  intros Ho Hu.
  assert (Hpo : 0 < 1 / o) by (unfold Qdiv; rewrite Qmult_1_l; apply Qinv_pos; lra).
  assert (Hpu : 0 < 1 / u) by (unfold Qdiv; rewrite Qmult_1_l; apply Qinv_pos; lra).
  exists ((1 / o) / (1 / o + 1 / u)), ((1 / u) / (1 / o + 1 / u)).
  split.
  - unfold no_vig_probabilities. cbn [exact leb add div of_int].
    change (inject_Z 1) with 1. change (inject_Z 0) with 0.
    rewrite (Qle_bool_false o 1 Ho), (Qle_bool_false u 1 Hu). cbn [orb].
    rewrite (Qle_bool_false (1 / o + 1 / u) 0) by lra.
    reflexivity.
  - split; [reflexivity|]. split; [reflexivity|].
    assert (Hsum : (1 / o) / (1 / o + 1 / u) + (1 / u) / (1 / o + 1 / u) == 1)
      by (apply shares_sum; lra).
    split; [exact Hsum|]. split.
    + rewrite Hsum. vm_compute. discriminate.
    + split; [apply share_bounds; assumption|].
      destruct (share_bounds (1 / u) (1 / o) Hpu Hpo) as [H1 H2].
      assert (E : 1 / u / (1 / o + 1 / u) == 1 / u / (1 / u + 1 / o)).
      { apply Qmult_comp; [reflexivity|]. apply Qinv_comp. apply Qplus_comm. }
      rewrite E. split; assumption.
Qed.

Lemma no_vig_probabilities_exact_witness :
  1 < 18 # 10 /\ 1 < 21 # 10
  /\ exists p_over p_under : Q,
       no_vig_probabilities exact (18 # 10) (21 # 10) = inr (p_over, p_under)
       /\ p_over == (1 / (18 # 10)) / (1 / (18 # 10) + 1 / (21 # 10))
       /\ p_under == (1 / (21 # 10)) / (1 / (18 # 10) + 1 / (21 # 10))
       /\ p_over + p_under == 1
       /\ Qabs (p_over + p_under - 1) <= 1 # 1000000000
       /\ (0 < p_over /\ p_over < 1)
       /\ (0 < p_under /\ p_under < 1).
Proof.
  split; [reflexivity|]. split; [reflexivity|].
  apply (no_vig_probabilities_exact (18 # 10) (21 # 10)); reflexivity.
Defined.

Lemma eps64_value : eps64 == 1 # 9007199254740992.
Proof. vm_compute. reflexivity. Qed.

Lemma eta64_small : 0 < eta64 /\ eta64 <= 1 # 1000000000000.
Proof. split; [reflexivity|vm_compute; discriminate]. Qed.

Lemma eta64_relative (s : Q) : pow2 (-1023) <= s -> eta64 <= 2 * eps64 * s.
Proof.
  intros H.
  assert (E : eta64 == 2 * eps64 * pow2 (-1023)) by (vm_compute; reflexivity).
  rewrite E. apply Qmult_le_l; [reflexivity|exact H].
Qed.

Lemma inv_bounds (o : Q) :
  1 < o -> o < pow2 1024 -> pow2 (-1024) <= 1 / o /\ 1 / o <= 1.
Proof.
  intros H1 H2. split.
  - apply Qle_shift_div_l; [lra|].
    assert (E : pow2 (-1024) * pow2 1024 == 1) by (vm_compute; reflexivity).
    rewrite <- E. apply Qlt_le_weak. apply Qmult_lt_l; [apply pow2_pos|exact H2].
  - apply Qle_shift_div_r; lra.
Qed.

Lemma Qabs_le_iff (x d : Q) : -d <= x /\ x <= d -> Qabs x <= d.
Proof. intros H. apply Qabs_Qle_condition. exact H. Qed.

(** The shares of two positive parts in their rounded total, each rounded:
    their sum is within 1e-11 of 1. *)
Lemma rounded_shares (e h a b t pa pb : Q) :
  e == 1 # 9007199254740992 -> 0 < h -> h <= 1 # 1000000000000 ->
  h <= 2 * e * (a + b) ->
  0 < a -> 0 < b -> 0 < t ->
  (a + b) - ((a + b) * e + h) <= t -> t <= (a + b) + ((a + b) * e + h) ->
  a / t - (a / t * e + h) <= pa -> pa <= a / t + (a / t * e + h) ->
  b / t - (b / t * e + h) <= pb -> pb <= b / t + (b / t * e + h) ->
  - (1 # 100000000000) <= pa + pb - 1 /\ pa + pb - 1 <= 1 # 100000000000.
Proof.
  intros He Hh0 Hh1 Hrel Ha Hb Ht T1 T2 A1 A2 B1 B2.
  assert (Hq : a / t + b / t == (a + b) / t) by (field; lra).
  assert (U : (a + b) / t <= 1 + 4 * e).
  { apply Qle_shift_div_r; [exact Ht|]. rewrite He in *. lra. }
  assert (L : 1 - 4 * e <= (a + b) / t).
  { apply Qle_shift_div_l; [exact Ht|]. rewrite He in *. lra. }
  rewrite <- Hq in U, L.
  set (q := a / t) in *. set (r := b / t) in *. clearbody q r.
  rewrite He in *. split; lra.
Qed.

(** C2 on binary64.  For finite binary64 decimal odds [o > 1] and [u > 1]
    the function returns [(p_over, p_under)], the values of
    [(1/o) / (1/o + 1/u)] and [(1/u) / (1/o + 1/u)] with every operation
    rounded to binary64.  Their sum, exact or rounded, is within 1e-9 of
    1, and both are binary64 values in (0, 1]: the bound 1 can be
    reached.  In exact arithmetic the two shares add up to 1 and lie
    strictly between 0 and 1. *)
Theorem no_vig_probabilities_binary64 (o u : Q) :
  is_binary64 o = true -> is_binary64 u = true -> 1 < o -> 1 < u ->
  exists p_over p_under : Q,
    no_vig_probabilities rounded o u = inr (p_over, p_under)
    /\ p_over == rnd (rnd (1 / o) / rnd (rnd (1 / o) + rnd (1 / u)))
    /\ p_under == rnd (rnd (1 / u) / rnd (rnd (1 / o) + rnd (1 / u)))
    /\ Qabs (p_over + p_under - 1) <= 1 # 1000000000
    /\ Qabs (rnd (p_over + p_under) - 1) <= 1 # 1000000000
    /\ (0 < p_over /\ p_over <= 1)
    /\ (0 < p_under /\ p_under <= 1)
    /\ is_binary64 p_over = true /\ is_binary64 p_under = true
    /\ exists q_over q_under : Q,
         no_vig_probabilities exact o u = inr (q_over, q_under)
         /\ q_over == (1 / o) / (1 / o + 1 / u)
         /\ q_under == (1 / u) / (1 / o + 1 / u)
         /\ q_over + q_under == 1
         /\ (0 < q_over /\ q_over < 1)
         /\ (0 < q_under /\ q_under < 1).
Proof.
  intros Bo Bu Ho Hu.
  destruct (no_vig_probabilities_exact o u Ho Hu)
    as (q_over & q_under & Xe & Xo & Xu & Xs & _ & Xbo & Xbu).
  apply is_binary64_spec in Bo, Bu. destruct Bo as [_ Bo], Bu as [_ Bu].
  rewrite Qabs_pos in Bo, Bu by lra.
  destruct (inv_bounds o Ho Bo) as [Lo Uo]. destruct (inv_bounds u Hu Bu) as [Lu Uu].
  pose proof (pow2_pos (-1024)) as P. pose proof (pow2_pos (-1025)) as P'.
  assert (C : pow2 (-1024) == 2 * pow2 (-1025)) by (vm_compute; reflexivity).
  assert (C' : pow2 (-1023) == 2 * pow2 (-1024)) by (vm_compute; reflexivity).
  assert (H1 : rnd (inject_Z 1) == 1) by apply rnd_1.
  set (one := rnd (inject_Z 1)) in *.
  assert (Eo : 1 / o == one / o) by (rewrite H1; reflexivity).
  assert (Eu : 1 / u == one / u) by (rewrite H1; reflexivity).
  assert (Lo' : pow2 (-1024) <= one / o) by lra. assert (Uo' : one / o <= 1) by lra.
  assert (Lu' : pow2 (-1024) <= one / u) by lra. assert (Uu' : one / u <= 1) by lra.
  assert (Ra : rnd (1 / o) == rnd (one / o)) by (apply rnd_comp_pos; [lra|exact Eo]).
  assert (Rb : rnd (1 / u) == rnd (one / u)) by (apply rnd_comp_pos; [lra|exact Eu]).
  destruct (rnd_between (one / o) (-1024) ltac:(lia) Lo' Uo') as [La Ua].
  destruct (rnd_between (one / u) (-1024) ltac:(lia) Lu' Uu') as [Lb Ub].
  assert (Ia : rnd (rnd (one / o)) == rnd (one / o)) by (apply rnd_idem_pos; lra).
  assert (Ib : rnd (rnd (one / u)) == rnd (one / u)) by (apply rnd_idem_pos; lra).
  set (a := rnd (one / o)) in *. set (b := rnd (one / u)) in *.
  assert (Rt : rnd (rnd (1 / o) + rnd (1 / u)) == rnd (a + b)).
  { apply rnd_comp_pos; [lra|]. rewrite Ra, Rb. reflexivity. }
  assert (Ta : a <= rnd (a + b)).
  { apply Qle_trans with (rnd a); [apply Qle_lteq; right; symmetry; exact Ia|].
    apply rnd_mono_pos; lra. }
  assert (Tb : b <= rnd (a + b)).
  { apply Qle_trans with (rnd b); [apply Qle_lteq; right; symmetry; exact Ib|].
    apply rnd_mono_pos; lra. }
  assert (T2 : rnd (a + b) <= 2).
  { apply Qle_trans with (rnd 2); [apply rnd_mono_pos; lra|].
    apply Qle_lteq; right; exact rnd_2. }
  destruct (rnd_error_pos (a + b) ltac:(lra)) as [Te1 Te2].
  set (t := rnd (a + b)) in *.
  assert (Ht : 0 < t) by lra.
  assert (Qa : pow2 (-1025) <= a / t /\ a / t <= 1).
  { split; [apply Qle_shift_div_l|apply Qle_shift_div_r]; try exact Ht; try lra.
    apply Qle_trans with (pow2 (-1025) * 2); [apply Qmult_le_l; assumption|lra]. }
  assert (Qb : pow2 (-1025) <= b / t /\ b / t <= 1).
  { split; [apply Qle_shift_div_l|apply Qle_shift_div_r]; try exact Ht; try lra.
    apply Qle_trans with (pow2 (-1025) * 2); [apply Qmult_le_l; assumption|lra]. }
  destruct Qa as [Qa1 Qa2]. destruct Qb as [Qb1 Qb2].
  destruct (rnd_between (a / t) (-1025) ltac:(lia) Qa1 Qa2) as [Lpa Upa].
  destruct (rnd_between (b / t) (-1025) ltac:(lia) Qb1 Qb2) as [Lpb Upb].
  destruct (rnd_error_pos (a / t) ltac:(lra)) as [Ea1 Ea2].
  destruct (rnd_error_pos (b / t) ltac:(lra)) as [Eb1 Eb2].
  assert (Rpa : rnd (a / t) == rnd (rnd (1 / o) / rnd (rnd (1 / o) + rnd (1 / u)))).
  { apply rnd_comp_pos; [lra|]. unfold Qdiv.
    apply Qmult_comp; [symmetry; exact Ra|apply Qinv_comp; symmetry; exact Rt]. }
  assert (Rpb : rnd (b / t) == rnd (rnd (1 / u) / rnd (rnd (1 / o) + rnd (1 / u)))).
  { apply rnd_comp_pos; [lra|]. unfold Qdiv.
    apply Qmult_comp; [symmetry; exact Rb|apply Qinv_comp; symmetry; exact Rt]. }
  assert (Bpa : is_binary64 (rnd (a / t)) = true) by (apply is_binary64_rnd; lra).
  assert (Bpb : is_binary64 (rnd (b / t)) = true) by (apply is_binary64_rnd; lra).
  destruct eta64_small as [Hh0 Hh1].
  assert (Hrel : eta64 <= 2 * eps64 * (a + b)) by (apply eta64_relative; lra).
  pose proof (rounded_shares eps64 eta64 a b t (rnd (a / t)) (rnd (b / t))
                eps64_value Hh0 Hh1 Hrel ltac:(lra) ltac:(lra) Ht Te1 Te2 Ea1 Ea2 Eb1 Eb2)
    as [S1 S2].
  destruct (rnd_error_pos (rnd (a / t) + rnd (b / t)) ltac:(lra)) as [Es1 Es2].
  pose proof eps64_value as He.
  exists (rnd (a / t)), (rnd (b / t)). split.
  - unfold no_vig_probabilities. cbn [rounded leb add div of_int]. fold one.
    rewrite (Qle_bool_false o one), (Qle_bool_false u one) by lra. cbn [orb].
    fold a b. fold t.
    assert (Z0 : rnd (inject_Z 0) = 0) by reflexivity. rewrite Z0.
    rewrite (Qle_bool_false t 0) by lra. reflexivity.
  - split; [exact Rpa|]. split; [exact Rpb|].
    split; [apply Qabs_le_iff; lra|].
    split.
    { apply Qabs_le_iff. set (pa := rnd (a / t)) in *. set (pb := rnd (b / t)) in *.
      set (s := rnd (pa + pb)) in *. set (e := eps64) in *.
      set (h := eta64) in *. clearbody s e h pa pb. rewrite He in *. lra. }
    split; [lra|]. split; [lra|].
    split; [assumption|]. split; [assumption|].
    exists q_over, q_under. repeat split; tauto.
Qed.

Lemma no_vig_probabilities_binary64_witness :
  is_binary64 (rnd (18 # 10)) = true /\ is_binary64 (rnd (21 # 10)) = true
  /\ 1 < rnd (18 # 10) /\ 1 < rnd (21 # 10)
  /\ exists p_over p_under : Q,
       no_vig_probabilities rounded (rnd (18 # 10)) (rnd (21 # 10)) = inr (p_over, p_under)
       /\ Qabs (p_over + p_under - 1) <= 1 # 1000000000
       /\ Qabs (rnd (p_over + p_under) - 1) <= 1 # 1000000000
       /\ (0 < p_over /\ p_over <= 1)
       /\ (0 < p_under /\ p_under <= 1).
Proof.
  assert (Bo : is_binary64 (rnd (18 # 10)) = true) by (vm_compute; reflexivity).
  assert (Bu : is_binary64 (rnd (21 # 10)) = true) by (vm_compute; reflexivity).
  assert (Ho : 1 < rnd (18 # 10)) by (vm_compute; reflexivity).
  assert (Hu : 1 < rnd (21 # 10)) by (vm_compute; reflexivity).
  split; [exact Bo|]. split; [exact Bu|]. split; [exact Ho|]. split; [exact Hu|].
  destruct (no_vig_probabilities_binary64 (rnd (18 # 10)) (rnd (21 # 10)) Bo Bu Ho Hu)
    as (p_over & p_under & E & _ & _ & S1 & S2 & Po & Pu & _).
  exists p_over, p_under. repeat split; tauto.
Defined.

(** On the odds [2^100] and [2] the rounded arithmetic gives the under
    share exactly 1, as binary64 does. *)
Lemma no_vig_rounded_reaches_one :
  is_binary64 (pow2 100) = true /\ is_binary64 2 = true
  /\ exists p_over p_under : Q,
       no_vig_probabilities rounded (pow2 100) 2 = inr (p_over, p_under)
       /\ p_over == pow2 (-99) /\ p_under == 1.
Proof.
  split; [vm_compute; reflexivity|]. split; [vm_compute; reflexivity|].
  eexists. eexists. split; [vm_compute; reflexivity|].
  split; vm_compute; reflexivity.
Qed.

(** C6. For every integer [odds], on any arithmetic, [american_to_decimal]
    is [1 + odds/100] for [odds >= 100], [1 + 100/|odds|] for
    [odds <= -100], and fails with [InvalidOddsError] exactly for
    [-100 < odds < 100].  At 110 it is 2.1 (exactly in exact arithmetic,
    and the binary64 nearest to 2.1 on floats), at -110 it is 1.9091 to
    four decimals, at 50 it fails. *)
Theorem american_to_decimal_cases (F : Type) (A : Arith F) (odds : Z) :
  ((100 <= odds)%Z ->
     american_to_decimal A odds
     = inr (add A (of_int A 1) (div A (of_int A odds) (of_int A 100)))
     /\ american_to_decimal exact odds = inr (1 + inject_Z odds / 100))
  /\ ((odds <= -100)%Z ->
     american_to_decimal A odds
     = inr (add A (of_int A 1) (div A (of_int A 100) (of_int A (Z.abs odds))))
     /\ american_to_decimal exact odds = inr (1 + 100 / inject_Z (Z.abs odds)))
  /\ (american_to_decimal A odds = inl InvalidOddsError <-> (-100 < odds < 100)%Z)
  /\ (exists d, american_to_decimal exact 110 = inr d /\ d == 21 # 10)
  /\ (exists d, american_to_decimal exact (-110) = inr d
                /\ Qabs (d - (19091 # 10000)) <= 5 # 100000)
  /\ american_to_decimal exact 50 = inl InvalidOddsError
  /\ american_to_decimal binary64 110
     = inr (PrimFloat.div (float_of_Z 21) (float_of_Z 10))
  /\ (exists d, american_to_decimal binary64 (-110) = inr d
                /\ PrimFloat.leb
                     (PrimFloat.abs
                        (PrimFloat.sub d (PrimFloat.div (float_of_Z 19091) (float_of_Z 10000))))
                     (PrimFloat.div (float_of_Z 5) (float_of_Z 100000)) = true)
  /\ american_to_decimal binary64 50 = inl InvalidOddsError.
Proof.
  unfold american_to_decimal.
  split; [|split; [|split]].
  - intros H. apply Z.leb_le in H. rewrite H. split; reflexivity.
  - intros H.
    destruct (100 <=? odds)%Z eqn:E; [apply Z.leb_le in E; lia|].
    apply Z.leb_le in H. rewrite H. split; reflexivity.
  - destruct (100 <=? odds)%Z eqn:E1; [|destruct (odds <=? -100)%Z eqn:E2].
    + apply Z.leb_le in E1. split; [discriminate|lia].
    + apply Z.leb_le in E2. split; [discriminate|lia].
    + apply Z.leb_gt in E1. apply Z.leb_gt in E2. split; [lia|reflexivity].
  - split; [|split; [|split; [|split; [|split]]]].
    + eexists. split; [reflexivity|]. vm_compute. reflexivity.
    + eexists. split; [reflexivity|]. vm_compute. discriminate.
    + reflexivity.
    + vm_compute. reflexivity.
    + eexists. split; [reflexivity|]. vm_compute. reflexivity.
    + reflexivity.
Qed.

End Converting.

(** ** The same converter on binary64 *)

Module Binary64.
Import OddsConverter PrimFloat.
Local Open Scope float_scope.

(** On binary64 the conversions of the design's examples give the
    expected floats. *)
Lemma american_to_decimal_binary64 :
  american_to_decimal binary64 110 = inr 0x1.0cccccccccccdp+1
  /\ american_to_decimal binary64 (-110) = inr 0x1.e8ba2e8ba2e8cp+0
  /\ american_to_decimal binary64 150 = inr 2.5
  /\ decimal_to_implied_prob binary64 2.5 = inr 0x1.999999999999ap-2
  /\ american_to_decimal binary64 50 = inl InvalidOddsError.
Proof. repeat split; vm_compute; reflexivity. Qed.

(** On the odds 1.8 and 2.1 of the design's example the binary64 shares add
    up to 1 within 1e-9 and lie strictly between 0 and 1. *)
Lemma no_vig_binary64_example :
  exists p_over p_under : float,
    no_vig_probabilities binary64 (18 / 10) (21 / 10) = inr (p_over, p_under)
    /\ leb (abs (p_over + p_under - 1)) (1 / 1000000000) = true
    /\ ltb 0 p_over = true /\ ltb p_over 1 = true
    /\ ltb 0 p_under = true /\ ltb p_under 1 = true.
Proof.
  eexists. eexists. split; [vm_compute; reflexivity|].
  repeat split; vm_compute; reflexivity.
Qed.

(** The rounded arithmetic on exact values computes what the primitive
    floats compute: on the odds of the design's example, on odds that
    differ by a hundred binary orders, on the largest finite float and on
    the float next to 1, where the implied probabilities are subnormal or
    the shares reach 1. *)
Lemma rounded_agrees_with_binary64 :
  no_vig_agree 0x1.ccccccccccccdp+0 0x1.0cccccccccccdp+1 = true
  /\ no_vig_agree 0x1p+100 2 = true
  /\ no_vig_agree 0x1p+1000 0x1.0000000000001p+0 = true
  /\ no_vig_agree 2.5 1.5 = true
  /\ no_vig_agree 3 7 = true
  /\ no_vig_agree 0x1.fffffffffffffp+1023 0x1.fffffffffffffp+1023 = true
  /\ no_vig_agree 0x1.0000000000001p+0 0x1.fffffffffffffp+1023 = true
  /\ no_vig_agree 1 2 = true
  /\ same_value 0x1.ccccccccccccdp+0 (IEEE754.rnd (18 # 10)) = true
  /\ same_value 0x1.0cccccccccccdp+1 (IEEE754.rnd (21 # 10)) = true
  /\ same_value 0x0.0000000000001p-1022 (IEEE754.rnd (IEEE754.pow2 (-1074))) = true
  /\ same_value 0 (IEEE754.rnd (IEEE754.pow2 (-1076))) = true.
Proof. repeat split; vm_compute; reflexivity. Qed.

(** The claim C2 as worded, read on binary64, fails: for the odds
    [2^100] and [2] the implied probability [2^-100] of the over side is
    lost when it is added to [1/2], and the under share is exactly 1. *)
Lemma no_vig_binary64_reaches_one :
  ~ (forall o u : float,
        ltb 1 o = true -> ltb 1 u = true ->
        exists p_over p_under : float,
          no_vig_probabilities binary64 o u = inr (p_over, p_under)
          /\ ltb 0 p_over = true /\ ltb p_over 1 = true
          /\ ltb 0 p_under = true /\ ltb p_under 1 = true).
Proof.
  intros H.
  destruct (H 0x1p+100 2 eq_refl eq_refl) as (p_over & p_under & E & _ & _ & _ & Hlt).
  vm_compute in E. injection E as <- <-.
  vm_compute in Hlt. discriminate Hlt.
Qed.

End Binary64.
